(** * js-utils: the queue, the priority queue and the job queue

    A shallow embedding of [src/lib/queue.ts], [src/lib/priority-queue.ts]
    and [src/lib/job-queue.wip.ts], and the properties of the three
    components that the specification states; then [limit] and
    [makeLimit] of [src/limit.ts], which run tasks through the queue. *)

From Stdlib Require Import ZArith Lia.
From stdpp Require Import base option list sorting gmap strings.

Local Open Scope Z_scope.

(** ** JavaScript numbers used as priorities

    [priority: number] is an IEEE double.  The data model restricts
    priorities to integers; the embedding keeps those ([Fin z]) together with
    the three special values whose comparisons differ, so that the
    [-Infinity] start value of the selection loop is the value of the code.
    Finite non-integer doubles are left out. *)

Inductive jsnum : Type :=
  | NegInf
  | Fin (z : Z)
  | PosInf
  | NaN.

#[global] Instance jsnum_eq_dec : EqDecision jsnum.
Proof. solve_decision. Defined.

(** [a > b] *)
Definition js_gt (a b : jsnum) : bool :=
  match a, b with
  | NaN, _ | _, NaN => false
  | NegInf, _ => false
  | _, PosInf => false
  | Fin _, NegInf => true
  | PosInf, NegInf => true
  | PosInf, Fin _ => true
  | Fin x, Fin y => y <? x
  end.

(** [a >= b] *)
Definition js_ge (a b : jsnum) : bool :=
  match a, b with
  | NaN, _ | _, NaN => false
  | _, NegInf => true
  | PosInf, _ => true
  | NegInf, _ => false
  | Fin _, PosInf => false
  | Fin x, Fin y => y <=? x
  end.

(** [a !== b] on numbers: [NaN] differs from everything, itself included. *)
Definition js_strict_neq (a b : jsnum) : bool :=
  match a, b with
  | NaN, _ | _, NaN => true
  | NegInf, NegInf => false
  | PosInf, PosInf => false
  | Fin x, Fin y => negb (x =? y)
  | _, _ => true
  end.

(** Truthiness of a number: [0] and [NaN] are falsy. *)
Definition js_truthy (a : jsnum) : bool :=
  match a with
  | Fin z => negb (z =? 0)
  | NaN => false
  | _ => true
  end.

Definition is_finite (a : jsnum) : Prop :=
  match a with Fin _ => True | _ => False end.

#[global] Instance is_finite_dec a : Decision (is_finite a).
Proof. destruct a; simpl; apply _. Defined.

(** ** [Queue<T>] (queue.ts)

    The singly linked list between [head] and [tail] is a list, front first;
    [size] is its length. *)

Module Queue.
Section Queue.
Context {T : Type}.

Definition t : Type := list T.

Definition empty : t := [].

Definition length (q : t) : nat := List.length q.

Definition enqueue (v : T) (q : t) : t := q ++ [v].

Definition dequeue (q : t) : option T * t :=
  match q with
  | [] => (None, [])
  | v :: rest => (Some v, rest)
  end.

Definition peek (q : t) : option T := head q.

Definition isEmpty (q : t) : bool := Nat.eqb (length q) 0.

Definition fromArray (arr : list T) (q : t) : t :=
  foldl (fun acc v => enqueue v acc) q arr.

Definition toArray (q : t) : list T := q.

Definition clear (q : t) : t := [].
End Queue.
Arguments t : clear implicits.
End Queue.

(** ** [Queue<T>] as written: nodes and references

    [queue.ts] keeps the elements in [QueueNode] objects linked by [next].
    The objects live in [store]; a reference to a node is its index there,
    and [new QueueNode(value)] puts the node at the end.  A reference that
    the code holds comes from [new QueueNode]: the lookup of a reference
    that is not in the store, which JavaScript does not have, reads as
    [null]. *)

Module LinkedQueue.
Section LinkedQueue.
Context {T : Type}.

Record QueueNode : Type := { value : T; next : option nat }.

Record t : Type := {
  store : list QueueNode;
  head : option nat;
  tail : option nat;
  size : Z;
}.

(** [new Queue()] *)
Definition new : t := {| store := []; head := None; tail := None; size := 0 |}.

Definition length (q : t) : Z := size q.

(** [node.next = n] *)
Definition set_next (n : option nat) (node : QueueNode) : QueueNode :=
  {| value := value node; next := n |}.

Definition enqueue (v : T) (q : t) : t :=
  let newNode := List.length (store q) in
  let store1 := store q ++ [{| value := v; next := None |}] in
  let store2 :=
    match tail q with
    | Some tl => alter (set_next (Some newNode)) tl store1
    | None => store1
    end in
  {| store := store2;
     head := match head q with Some h => Some h | None => Some newNode end;
     tail := Some newNode;
     size := size q + 1 |}.

Definition dequeue (q : t) : option T * t :=
  match head q ≫= (fun h => store q !! h) with
  | None => (None, q)
  | Some node =>
      (Some (value node),
       {| store := store q;
          head := next node;
          tail := match next node with Some _ => tail q | None => None end;
          size := size q - 1 |})
  end.

Definition peek (q : t) : option T :=
  value <$> (head q ≫= (fun h => store q !! h)).

Definition isEmpty (q : t) : bool := size q =? 0.

Definition fromArray (arr : list T) (q : t) : t :=
  foldl (fun acc item => enqueue item acc) q arr.

(** The loop of [toArray]; every round takes one unit of [fuel]. *)
Fixpoint walk (fuel : nat) (nodes : list QueueNode) (currentNode : option nat)
    (result : list T) : option (list T) :=
  match currentNode ≫= (fun c => nodes !! c) with
  | None => Some result
  | Some node =>
      match fuel with
      | O => None
      | S fuel' => walk fuel' nodes (next node) (result ++ [value node])
      end
  end.

(** [None]: the loop has not come to its end within [fuel] rounds. *)
Definition toArray (fuel : nat) (q : t) : option (list T) :=
  walk fuel (store q) (head q) [].

Definition clear (q : t) : t :=
  {| store := store q; head := None; tail := None; size := 0 |}.
End LinkedQueue.
Arguments QueueNode : clear implicits.
Arguments t : clear implicits.
End LinkedQueue.

Module QueueSpec.
Import LinkedQueue.
Section Spec.
Context {T : Type}.

(** A call of a method of the queue, and what it returns. *)
Inductive op : Type :=
  | Enqueue (v : T)
  | Dequeue
  | Peek
  | IsEmpty
  | Length
  | FromArray (arr : list T)
  | ToArray
  | Clear.

Inductive answer : Type :=
  | Undefined
  | Value (v : option T)
  | Boolean (b : bool)
  | Number (z : Z)
  | Array (l : list T).

(** The call on the linked queue; [None]: [toArray] was cut off. *)
Definition call (fuel : nat) (o : op) (q : t T) : option (answer * t T) :=
  match o with
  | Enqueue v => Some (Undefined, enqueue v q)
  | Dequeue => let '(v, q') := dequeue q in Some (Value v, q')
  | Peek => Some (Value (peek q), q)
  | IsEmpty => Some (Boolean (isEmpty q), q)
  | Length => Some (Number (length q), q)
  | FromArray arr => Some (Undefined, fromArray arr q)
  | ToArray => l ← toArray fuel q; Some (Array l, q)
  | Clear => Some (Undefined, clear q)
  end.

Fixpoint calls (fuel : nat) (os : list op) (q : t T)
    : option (list answer * t T) :=
  match os with
  | [] => Some ([], q)
  | o :: rest =>
      '(a, q') ← call fuel o q;
      '(answers, q'') ← calls fuel rest q';
      Some (a :: answers, q'')
  end.

(** The same call on the list of the elements, front first. *)
Definition list_call (o : op) (l : list T) : answer * list T :=
  match o with
  | Enqueue v => (Undefined, Queue.enqueue v l)
  | Dequeue => let '(v, l') := Queue.dequeue l in (Value v, l')
  | Peek => (Value (Queue.peek l), l)
  | IsEmpty => (Boolean (Queue.isEmpty l), l)
  | Length => (Number (Z.of_nat (Queue.length l)), l)
  | FromArray arr => (Undefined, Queue.fromArray arr l)
  | ToArray => (Array (Queue.toArray l), l)
  | Clear => (Undefined, Queue.clear l)
  end.

Fixpoint list_calls (os : list op) (l : list T) : list answer * list T :=
  match os with
  | [] => ([], l)
  | o :: rest =>
      let '(a, l') := list_call o l in
      let '(answers, l'') := list_calls rest l' in
      (a :: answers, l'')
  end.

(** The number of elements that the calls put in. *)
Definition put (os : list op) : nat :=
  sum_list_with (fun o =>
    match o with
    | Enqueue _ => 1
    | FromArray arr => List.length arr
    | _ => 0
    end)%nat os.

(** In [nodes], the references [from], [next], ... go through the nodes
    [ns], given with their references, and end at [to]. *)
Fixpoint linked (nodes : list (QueueNode T)) (from : option nat)
    (ns : list (nat * T)) (to : option nat) : Prop :=
  match ns with
  | [] => from = to
  | (r, v) :: rest =>
      from = Some r
      /\ exists n, nodes !! r = Some {| value := v; next := n |}
                   /\ linked nodes n rest to
  end.

(** The queue holds the elements [l], front first: [head] leads through
    as many distinct nodes to [null], [tail] is the last of them, [size] is
    their number. *)
Definition represents (q : t T) (l : list T) : Prop :=
  exists ns, l = ns.*2
    /\ linked (store q) (head q) ns None
    /\ NoDup ns.*1
    /\ tail q = last ns.*1
    /\ size q = Z.of_nat (List.length ns).
End Spec.
Arguments op : clear implicits.
Arguments answer : clear implicits.

(** Three elements put in, one taken out. *)
Definition three_in_one_out : list (op Z) :=
  [FromArray [1; 2]; Enqueue 3; Dequeue; ToArray].

Definition two_left : LinkedQueue.t Z :=
  default LinkedQueue.new (snd <$> calls 3 three_in_one_out LinkedQueue.new).
End QueueSpec.

(** ** [PriorityQueue<T>] (priority-queue.ts) *)

Module PriorityQueue.
Section PriorityQueue.
(** [same a b] is [a === b] on the values of type [T]: reference
    identity for objects, equality for strings and booleans. *)
Context {T : Type} (same : T -> T -> bool).

Record item : Type := Item { priority : jsnum; value : T }.

Definition t : Type := Queue.t item.

(** What a method call leaves behind: a result and the queue, or an
    uncaught [TypeError] and the queue as the throw leaves it. *)
Inductive outcome (A : Type) : Type :=
  | Returns (a : A) (q : t)
  | Throws (q : t).
Arguments Returns {A} a q.
Arguments Throws {A} q.

Definition empty : t := Queue.empty.

Definition enqueue (v : T) (p : jsnum) (q : t) : t :=
  Queue.enqueue {| priority := p; value := v |} q.

Definition isEmpty (q : t) : bool := Queue.isEmpty q.

Definition length (q : t) : nat := Queue.length q.

(** The first loop of [dequeue]: every entry of [this.queue] moves to
    [tempQueue]; an entry whose priority is strictly greater than the
    running maximum takes the slot. The recursion follows
    [this.queue.dequeue()], which pops the front. *)
Fixpoint scan (q : t) (highestPriority : jsnum)
    (highestPriorityItem : option item) (tempQueue : t)
    : jsnum * option item * t :=
  match q with
  | [] => (highestPriority, highestPriorityItem, tempQueue)
  | it :: rest =>
      if js_gt (priority it) highestPriority
      then scan rest (priority it) (Some it) (Queue.enqueue it tempQueue)
      else scan rest highestPriority highestPriorityItem
             (Queue.enqueue it tempQueue)
  end.

(** The test of the second loop: the entry is kept. *)
Definition kept (h it : item) : bool :=
  js_strict_neq (priority it) (priority h)
  || negb (same (value it) (value h)).

(** The second loop of [dequeue] with a selected entry [h]. *)
Fixpoint rebuild (tempQueue : t) (h : item) (q : t) : t :=
  match tempQueue with
  | [] => q
  | it :: rest =>
      if kept h it
      then rebuild rest h (Queue.enqueue it q)
      else rebuild rest h q
  end.

Definition dequeue (q : t) : outcome (option T) :=
  if isEmpty q then Returns None q
  else
    let '(_, highestPriorityItem, tempQueue) :=
      scan q NegInf None Queue.empty in
    match highestPriorityItem with
    | Some h => Returns (Some (value h)) (rebuild tempQueue h Queue.empty)
    | None =>
        (* [highestPriorityItem!.priority] on [null]: the first round of
           the second loop throws; [this.queue] has been emptied. *)
        match tempQueue with
        | [] => Returns None Queue.empty
        | _ :: _ => Throws Queue.empty
        end
    end.

(** The first loop of [peek] keeps the value only. *)
Fixpoint scan_value (q : t) (highestPriority : jsnum)
    (highestPriorityValue : option T) (tempQueue : t)
    : option T * t :=
  match q with
  | [] => (highestPriorityValue, tempQueue)
  | it :: rest =>
      if js_gt (priority it) highestPriority
      then scan_value rest (priority it) (Some (value it))
             (Queue.enqueue it tempQueue)
      else scan_value rest highestPriority highestPriorityValue
             (Queue.enqueue it tempQueue)
  end.

(** The second loop of [peek]: [tempQueue] is poured back. *)
Fixpoint restore (tempQueue : t) (q : t) : t :=
  match tempQueue with
  | [] => q
  | it :: rest => restore rest (Queue.enqueue it q)
  end.

Definition peek (q : t) : option T * t :=
  if isEmpty q then (None, q)
  else
    let '(v, tempQueue) := scan_value q NegInf None Queue.empty in
    (v, restore tempQueue Queue.empty).

Definition fromArray (arr : list item) (q : t) : t :=
  foldl (fun acc it => enqueue (value it) (priority it) acc) q arr.

(** [toArray] copies every entry and restores the queue. *)
Definition toArray (q : t) : list item * t :=
  (map (fun it => {| priority := priority it; value := value it |}) q,
   restore q Queue.empty).

Definition clear (q : t) : t := Queue.clear q.

(** Calling [dequeue] until it returns [null]; the values in the order
    they were returned.  [None]: a call threw, or [fuel] calls were not
    enough. *)
Fixpoint drain (fuel : nat) (q : t) : option (list T) :=
  match fuel with
  | O => None
  | S fuel' =>
      match dequeue q with
      | Throws _ => None
      | Returns None _ => Some []
      | Returns (Some v) q' => cons v <$> drain fuel' q'
      end
  end.
End PriorityQueue.

Arguments item : clear implicits.
Arguments Item {T} priority value.
Arguments priority {T} _.
Arguments value {T} _.
Arguments t : clear implicits.
Arguments outcome : clear implicits.
Arguments Returns {T A} a q.
Arguments Throws {T A} q.
Arguments empty {T}.
Arguments enqueue {T} v p q.
Arguments isEmpty {T} q.
Arguments length {T} q.
Arguments peek {T} q.
Arguments scan {T} q _ _ _.
Arguments scan_value {T} q _ _ _.
Arguments restore {T} _ _.
Arguments fromArray {T} arr q.
Arguments toArray {T} q.
Arguments clear {T} q.
End PriorityQueue.

(** The words of the properties of the priority queue. *)

Module PriorityQueueSpec.
Import PriorityQueue.

(** [before a b l]: going through [l] from the front, [a] is met first,
    before any occurrence of [b]. *)
Inductive before {A : Type} (a b : A) : list A -> Prop :=
  | before_here l : a <> b -> before a b (a :: l)
  | before_later x l : x <> a -> x <> b -> before a b l -> before a b (x :: l).

Section Spec.
Context {T : Type}.

Definition zprio (e : item T) : Z :=
  match priority e with Fin z => z | _ => 0 end.

(** The priority of the entry is a finite integer. *)
Definition finite_prio (e : item T) : Prop := is_finite (priority e).

(** [h] is the first entry of [q] with the greatest priority. *)
Definition first_max (h : item T) (q : list (item T)) : Prop :=
  exists l1 l2, q = l1 ++ h :: l2
    /\ Forall (fun e => zprio e < zprio h) l1
    /\ Forall (fun e => zprio e <= zprio h) l2.

(** [out] lists the entries of [es] by non-increasing priority, entries
    of equal priority in the order of their insertion; when no two
    entries of [es] are equal, every entry is there once. *)
Definition drained_in_order (es out : list (item T)) : Prop :=
  (forall e, e ∈ out <-> e ∈ es)
  /\ StronglySorted (fun a b => js_ge (priority a) (priority b)) out
  /\ (forall (i j : nat) a b, (i < j)%nat ->
        out !! i = Some a -> out !! j = Some b ->
        priority a = priority b -> before a b es)
  /\ (NoDup es -> out ≡ₚ es).
End Spec.

(** [p > -Infinity] is false: [p] is [NaN] or [-Infinity]. *)
Definition unranked (p : jsnum) : Prop := p = NaN \/ p = NegInf.

(** [a === b] on numbers *)
Definition same_number (a b : jsnum) : bool := negb (js_strict_neq a b).

Section Spec.
Context {T : Type}.

(** [h] is the entry of [q] that the first loop of [dequeue] and of [peek]
    selects: its priority is greater than [-Infinity] and than every
    priority before it that is a number, and no priority behind it is
    greater. *)
Definition selected (h : item T) (q : list (item T)) : Prop :=
  exists l1 l2, q = l1 ++ h :: l2
    /\ js_gt (priority h) NegInf = true
    /\ Forall (fun e => priority e = NaN
                        \/ js_gt (priority h) (priority e) = true) l1
    /\ Forall (fun e => js_gt (priority e) (priority h) = false) l2.
End Spec.
End PriorityQueueSpec.

(** ** [JobQueue] (job-queue.wip.ts) *)

Module JobQueue.

Inductive JobQueueEvent : Type :=
  | EMPTY | IDLE | ERROR | COMPLETED | ADDED | NEXT | PAUSED | RESUMED.

#[global] Instance JobQueueEvent_eq_dec : EqDecision JobQueueEvent.
Proof. solve_decision. Defined.

Definition event_index (e : JobQueueEvent) : nat :=
  match e with
  | EMPTY => 0 | IDLE => 1 | ERROR => 2 | COMPLETED => 3
  | ADDED => 4 | NEXT => 5 | PAUSED => 6 | RESUMED => 7
  end%nat.

Definition event_of_index (n : nat) : JobQueueEvent :=
  match n with
  | 0 => EMPTY | 1 => IDLE | 2 => ERROR | 3 => COMPLETED
  | 4 => ADDED | 5 => NEXT | 6 => PAUSED | _ => RESUMED
  end%nat.

#[global] Instance JobQueueEvent_countable : Countable JobQueueEvent.
Proof. refine (inj_countable' event_index event_of_index _). by intros []. Defined.

(** *** The code around the queue

    The queue calls back into code it does not own: event listeners, the
    [onEmpty]/[onIdle] callbacks and the job functions, which run up to
    their first [await] inside [runJob].  That code can call every public
    method of the queue again.  It is data here: a sequence of commands.

    A function is a name (its identity, which [off] compares) and the
    commands it runs; the commands may differ from one call to the next,
    so they are indexed by the number of callbacks the queue has made
    before ([calls]).  In any one run, a callback makes some sequence of
    calls, whatever it computes them from: a property of all commands is a
    property of all callbacks.

    The ['abort'] handlers that a job puts on the signal it receives run
    inside [controller.abort()].  In [abort] nothing follows that call, so
    the handlers' calls are calls made after [abort]; in [destroy] the
    queue is destroyed already and the methods they call do nothing; in
    [runJob] the controller is new and the job has not seen its signal. *)

Record fn_ (P : Type) : Type := Fn { fn_name : nat; fn_body : nat -> P }.
Arguments Fn {P} fn_name fn_body.
Arguments fn_name {P} _.
Arguments fn_body {P} _ _.

(** The public methods and getters with their arguments.  [Add job priority
    signal id random]: [job] is what the job function does before its
    first [await]; [random] is the string [Math.random()] yields if it is
    asked for an id. *)
Inductive method_ (P : Type) : Type :=
  | Add (job : P) (priority : option jsnum) (signal : option nat)
        (id : option string) (random : string)
  | Start
  | Pause
  | Resume
  | Clear
  | Size
  | Active
  | Pending
  | SetPriority (id : string) (priority : jsnum)
  | Abort (id : string)
  | OnEmpty (callback : fn_ P)
  | OnIdle (callback : fn_ P)
  | On (event : JobQueueEvent) (listener : fn_ P)
  | Off (event : JobQueueEvent) (listener : fn_ P)
  | Once (event : JobQueueEvent) (listener : fn_ P)
  | RemoveAllListeners (event : option JobQueueEvent)
  | Destroy.
Arguments Add {P} job priority signal id random.
Arguments Start {P}.
Arguments Pause {P}.
Arguments Resume {P}.
Arguments Clear {P}.
Arguments Size {P}.
Arguments Active {P}.
Arguments Pending {P}.
Arguments SetPriority {P} id priority.
Arguments Abort {P} id.
Arguments OnEmpty {P} callback.
Arguments OnIdle {P} callback.
Arguments On {P} event listener.
Arguments Off {P} event listener.
Arguments Once {P} event listener.
Arguments RemoveAllListeners {P} event.
Arguments Destroy {P}.

#[local] Unset Elimination Schemes.
Inductive cmd : Type :=
  | Call (m : method_ (list cmd))
    (** a call of a public method *)
  | Try (body : list cmd)
    (** [try { body } catch {}] *)
  | Throw
    (** [throw] *)
  | AbortSignal (n : nat).
    (** [abort()] on the caller's own [AbortController] number [n] *)
#[local] Set Elimination Schemes.

Definition prog : Type := list cmd.
Definition fn : Type := fn_ prog.
Definition method : Type := method_ prog.

Inductive retval : Type :=
  | RThis
  | RUndefined
  | RString (s : string)
  | RNumber (z : Z)
  | RBoolean (b : bool).

(** *** The objects of the queue *)

(** An [AbortSignal] in [options.signal]: the one the caller gave, or the
    signal of the [new AbortController()] of [add], which nobody else
    holds. *)
Inductive abortSignal : Type :=
  | Given (n : nat)
  | Private.

(** [Required<JobOptions>] *)
Record JobOptions : Type := {
  o_priority : jsnum;
  o_signal : abortSignal;
  o_id : string;
}.

(** The object [{ job, options }] that [add] puts in the queue; [ref] is
    the identity of the object, which [!==] compares. *)
Record jobItem : Type := {
  ref : nat;
  job : prog;
  options : JobOptions;
}.

Definition same_item (a b : jobItem) : bool := Nat.eqb (ref a) (ref b).

(** An entry of [jobMap] *)
Record jobInfo : Type := {
  priority : jsnum;
  controller : option nat;
  timeoutId : option nat;
}.

(** A function in a listener array: a function of the caller, or the
    closure [onceListener] that [once] builds around one. *)
Inductive listener : Type :=
  | Plain (f : fn)
  | OnceListener (w : nat) (event : JobQueueEvent) (f : fn).

Inductive fnid : Type :=
  | FnId (name : nat)
  | OnceId (w : nat).

#[global] Instance fnid_eq_dec : EqDecision fnid.
Proof. solve_decision. Defined.

Definition listener_id (l : listener) : fnid :=
  match l with
  | Plain f => FnId (fn_name f)
  | OnceListener w _ _ => OnceId w
  end.

(** [a === b] on functions *)
Definition same_listener (a b : listener) : bool :=
  bool_decide (listener_id a = listener_id b).

(** A call of [runJob] suspended at [await job(...)]: what the rest of the
    function still reads. *)
Record flight : Type := {
  fl_id : string;
  fl_timeoutId : option nat;
}.

Inductive getter : Type := GSize | GActive | GPending.

(** What an observer of a run sees, in order. *)
Inductive logEntry : Type :=
  | Emitted (event : JobQueueEvent) (id : option string)
    (** [emit(event, data)] on a queue that is not destroyed; the [id] of
        [data] *)
  | Called (f : fnid)
    (** a listener or callback is called *)
  | Observed (g : getter) (v : Z).
    (** the code around the queue reads a getter *)

Record JobQueueOptions : Type := {
  opt_concurrency : Z;
  opt_timeout : option Z;
  opt_autoStart : option bool;
  opt_intervalCap : option Z;
  opt_interval : option Z;
}.

(** The fields of the class.  The five [readonly] fields that the
    constructor copies from its argument are read through [config]. *)
Record JobQueue : Type := {
  queue : PriorityQueue.t jobItem;
  running : Z;
  isPaused : bool;
  isDestroyed : bool;
  intervalCount : Z;
  intervalId : option unit;
  jobMap : gmap string jobInfo;
  eventListeners : gmap JobQueueEvent nat;
  config : JobQueueOptions;
}.

Definition concurrency (q : JobQueue) : Z := opt_concurrency (config q).
Definition timeout (q : JobQueue) : option Z := opt_timeout (config q).
(** [options.autoStart ?? true] *)
Definition autoStart (q : JobQueue) : bool := default true (opt_autoStart (config q)).
Definition intervalCap (q : JobQueue) : option Z := opt_intervalCap (config q).
Definition interval (q : JobQueue) : option Z := opt_interval (config q).

(** Truthiness of an optional number: [undefined] and [0] are falsy. *)
Definition truthy (o : option Z) : bool :=
  match o with
  | Some z => negb (z =? 0)
  | None => false
  end.

(** The queue object and what lives around it.
    - [arrays]: the listener arrays, [eventListeners] maps an event to the
      index of its array;
    - [controllers]: the aborted flag of every [AbortController] of
      [runJob];
    - [signals]: the signals of the caller that are aborted;
    - [links]: the ['abort'] listeners that [runJob] has put on signals of
      the caller, as pairs of a signal and a controller;
    - [timers]: the [setTimeout] timers of [runJob], [Some c] while the
      timer is pending for controller [c];
    - [flights]: the calls of [runJob] that wait at [await];
    - [fresh]: the number of objects made so far, for identities;
    - [calls]: the number of callbacks made so far;
    - [log]: the observations, oldest first. *)
Record state : Type := {
  this : JobQueue;
  arrays : list (list listener);
  controllers : list bool;
  signals : list nat;
  links : list (nat * nat);
  timers : list (option nat);
  flights : list (option flight);
  fresh : nat;
  calls : nat;
  log : list logEntry;
}.

Definition set_queue (v : PriorityQueue.t jobItem) (q : JobQueue) : JobQueue :=
  {| queue := v; running := running q; isPaused := isPaused q;
     isDestroyed := isDestroyed q; intervalCount := intervalCount q;
     intervalId := intervalId q; jobMap := jobMap q;
     eventListeners := eventListeners q; config := config q |}.

Definition set_running (v : Z) (q : JobQueue) : JobQueue :=
  {| queue := queue q; running := v; isPaused := isPaused q;
     isDestroyed := isDestroyed q; intervalCount := intervalCount q;
     intervalId := intervalId q; jobMap := jobMap q;
     eventListeners := eventListeners q; config := config q |}.

Definition set_isPaused (v : bool) (q : JobQueue) : JobQueue :=
  {| queue := queue q; running := running q; isPaused := v;
     isDestroyed := isDestroyed q; intervalCount := intervalCount q;
     intervalId := intervalId q; jobMap := jobMap q;
     eventListeners := eventListeners q; config := config q |}.

Definition set_isDestroyed (v : bool) (q : JobQueue) : JobQueue :=
  {| queue := queue q; running := running q; isPaused := isPaused q;
     isDestroyed := v; intervalCount := intervalCount q;
     intervalId := intervalId q; jobMap := jobMap q;
     eventListeners := eventListeners q; config := config q |}.

Definition set_intervalCount (v : Z) (q : JobQueue) : JobQueue :=
  {| queue := queue q; running := running q; isPaused := isPaused q;
     isDestroyed := isDestroyed q; intervalCount := v;
     intervalId := intervalId q; jobMap := jobMap q;
     eventListeners := eventListeners q; config := config q |}.

Definition set_intervalId (v : option unit) (q : JobQueue) : JobQueue :=
  {| queue := queue q; running := running q; isPaused := isPaused q;
     isDestroyed := isDestroyed q; intervalCount := intervalCount q;
     intervalId := v; jobMap := jobMap q;
     eventListeners := eventListeners q; config := config q |}.

Definition set_jobMap (v : gmap string jobInfo) (q : JobQueue) : JobQueue :=
  {| queue := queue q; running := running q; isPaused := isPaused q;
     isDestroyed := isDestroyed q; intervalCount := intervalCount q;
     intervalId := intervalId q; jobMap := v;
     eventListeners := eventListeners q; config := config q |}.

Definition set_eventListeners (v : gmap JobQueueEvent nat) (q : JobQueue)
    : JobQueue :=
  {| queue := queue q; running := running q; isPaused := isPaused q;
     isDestroyed := isDestroyed q; intervalCount := intervalCount q;
     intervalId := intervalId q; jobMap := jobMap q;
     eventListeners := v; config := config q |}.

Definition with_this (v : JobQueue) (s : state) : state :=
  {| this := v; arrays := arrays s; controllers := controllers s;
     signals := signals s; links := links s; timers := timers s;
     flights := flights s; fresh := fresh s; calls := calls s;
     log := log s |}.

Definition with_arrays (v : list (list listener)) (s : state) : state :=
  {| this := this s; arrays := v; controllers := controllers s;
     signals := signals s; links := links s; timers := timers s;
     flights := flights s; fresh := fresh s; calls := calls s;
     log := log s |}.

Definition with_controllers (v : list bool) (s : state) : state :=
  {| this := this s; arrays := arrays s; controllers := v;
     signals := signals s; links := links s; timers := timers s;
     flights := flights s; fresh := fresh s; calls := calls s;
     log := log s |}.

Definition with_signals (v : list nat) (s : state) : state :=
  {| this := this s; arrays := arrays s; controllers := controllers s;
     signals := v; links := links s; timers := timers s;
     flights := flights s; fresh := fresh s; calls := calls s;
     log := log s |}.

Definition with_links (v : list (nat * nat)) (s : state) : state :=
  {| this := this s; arrays := arrays s; controllers := controllers s;
     signals := signals s; links := v; timers := timers s;
     flights := flights s; fresh := fresh s; calls := calls s;
     log := log s |}.

Definition with_timers (v : list (option nat)) (s : state) : state :=
  {| this := this s; arrays := arrays s; controllers := controllers s;
     signals := signals s; links := links s; timers := v;
     flights := flights s; fresh := fresh s; calls := calls s;
     log := log s |}.

Definition with_flights (v : list (option flight)) (s : state) : state :=
  {| this := this s; arrays := arrays s; controllers := controllers s;
     signals := signals s; links := links s; timers := timers s;
     flights := v; fresh := fresh s; calls := calls s;
     log := log s |}.

Definition with_fresh (v : nat) (s : state) : state :=
  {| this := this s; arrays := arrays s; controllers := controllers s;
     signals := signals s; links := links s; timers := timers s;
     flights := flights s; fresh := v; calls := calls s;
     log := log s |}.

Definition with_calls (v : nat) (s : state) : state :=
  {| this := this s; arrays := arrays s; controllers := controllers s;
     signals := signals s; links := links s; timers := timers s;
     flights := flights s; fresh := fresh s; calls := v;
     log := log s |}.

Definition with_log (v : list logEntry) (s : state) : state :=
  {| this := this s; arrays := arrays s; controllers := controllers s;
     signals := signals s; links := links s; timers := timers s;
     flights := flights s; fresh := fresh s; calls := calls s;
     log := v |}.

(** *** The monad of the methods

    A method runs on a state and returns, throws, or is cut off: the
    callbacks can call the queue again without end, so every call of a
    callback and every round of a loop whose bound the callbacks can move
    takes one unit of fuel. *)

Inductive result (A : Type) : Type :=
  | Ok (a : A) (s : state)
  | Thrown (s : state)
  | OutOfFuel.
Arguments Ok {A} a s.
Arguments Thrown {A} s.
Arguments OutOfFuel {A}.

Definition M (A : Type) : Type := state -> result A.

#[global] Instance M_ret : MRet M := fun A a s => Ok a s.

#[global] Instance M_bind : MBind M := fun A B f m s =>
  match m s with
  | Ok a s' => f a s'
  | Thrown s' => Thrown s'
  | OutOfFuel => OutOfFuel
  end.

Definition get : M state := fun s => Ok s s.

(** reading the fields of [this] *)
Definition self : M JobQueue := fun s => Ok (this s) s.

Definition modify (f : state -> state) : M unit := fun s => Ok tt (f s).

(** writing fields of [this] *)
Definition update (f : JobQueue -> JobQueue) : M unit :=
  modify (fun s => with_this (f (this s)) s).

Definition throw {A : Type} : M A := fun s => Thrown s.

Definition try_catch {A : Type} (m : M A) (handler : M A) : M A := fun s =>
  match m s with
  | Thrown s' => handler s'
  | r => r
  end.

Definition note (e : logEntry) : M unit :=
  modify (fun s => with_log (log s ++ [e]) s).

(** The calls that take fuel. *)
Inductive call : Type :=
  | RunProg (p : prog)
    (** code around the queue runs *)
  | EmitFrom (a i : nat)
    (** the [for ... of] loop of [emit] over array [a], from index [i] *)
  | ProcessLoop.
    (** the [while] loop of [processNextJobs] *)

(** [signal.aborted] *)
Definition aborted (s : state) (sg : abortSignal) : bool :=
  match sg with
  | Given n => bool_decide (n ∈ signals s)
  | Private => false
  end.

(** [controller.abort(...)] *)
Definition abort_controller (c : nat) : M unit :=
  modify (fun s => with_controllers (<[c := true]> (controllers s)) s).

(** [clearTimeout(t)] *)
Definition clearTimeout (t : nat) : M unit :=
  modify (fun s => with_timers (<[t := None]> (timers s)) s).

(** [listeners.indexOf(l)] and [listeners.splice(index, 1)] *)
Definition splice_first (l : listener) (listeners : list listener)
    : list listener :=
  match list_find (fun x => same_listener x l) listeners with
  | Some (index, _) => delete index listeners
  | None => listeners
  end.

(** The [for] loop of [setPriority] over [queueArray]. *)
Definition reprioritize (id : string) (p : jsnum)
    (queueArray : list (PriorityQueue.item jobItem))
    (start : PriorityQueue.t jobItem * bool)
    : PriorityQueue.t jobItem * bool :=
  foldl (fun '(q, found) item =>
           let jobItem := PriorityQueue.value item in
           if bool_decide (o_id (options jobItem) = id)
           then
             (PriorityQueue.enqueue
                {| ref := ref jobItem; job := job jobItem;
                   options := {| o_priority := p;
                                 o_signal := o_signal (options jobItem);
                                 o_id := o_id (options jobItem) |} |}
                p q, true)
           else
             (PriorityQueue.enqueue jobItem (PriorityQueue.priority item) q,
              found))
        start queueArray.

(** The [for] loop of [abort] over [queueArray]. *)
Definition without (id : string)
    (queueArray : list (PriorityQueue.item jobItem))
    (start : PriorityQueue.t jobItem * bool)
    : PriorityQueue.t jobItem * bool :=
  foldl (fun '(q, found) item =>
           let jobItem := PriorityQueue.value item in
           if bool_decide (o_id (options jobItem) = id)
           then (q, true)
           else
             (PriorityQueue.enqueue jobItem (PriorityQueue.priority item) q,
              found))
        start queueArray.

(** The [for] loop of [destroy] over the entries of [jobMap]. *)
Definition abort_all (entries : list (string * jobInfo)) (s : state) : state :=
  foldl (fun s '(_, jobInfo) =>
           let s1 :=
             match controller jobInfo with
             | Some c => with_controllers (<[c := true]> (controllers s)) s
             | None => s
             end in
           match timeoutId jobInfo with
           | Some t => with_timers (<[t := None]> (timers s1)) s1
           | None => s1
           end)
        s entries.

(** The caller aborts its controller [n]: the signal is aborted and the
    ['abort'] listeners that [runJob] put on it abort their controllers. *)
Definition abort_signal (n : nat) : M unit :=
  s ← get;
  if bool_decide (n ∈ signals s) then mret tt
  else
    modify (fun s =>
      with_controllers
        (foldl (fun cs '(m, c) =>
                  if bool_decide (m = n) then <[c := true]> cs else cs)
               (controllers s) (links s))
        (with_signals (n :: signals s) s)).

Section Methods.
(** The calls that take fuel, with what is left of it. *)
Variable rec : call -> M unit.

Definition off (event : JobQueueEvent) (l : listener) : M unit :=
  q ← self;
  if isDestroyed q then mret tt
  else
    match eventListeners q !! event with
    | Some a =>
        modify (fun s => with_arrays (alter (splice_first l) a (arrays s)) s)
    | None => mret tt
    end.

(** A call of a function of the caller. *)
Definition call_fn (f : fn) : M unit :=
  s ← get;
  note (Called (FnId (fn_name f)));;
  modify (with_calls (S (calls s)));;
  rec (RunProg (fn_body f (calls s))).

(** [listener(data)] *)
Definition invoke (l : listener) : M unit :=
  match l with
  | Plain f => call_fn f
  | OnceListener w event f =>
      note (Called (OnceId w));;
      off event l;;
      call_fn f
  end.

Definition emit (event : JobQueueEvent) (id : option string) : M unit :=
  q ← self;
  if isDestroyed q then mret tt
  else
    note (Emitted event id);;
    match eventListeners q !! event with
    | Some a => rec (EmitFrom a 0%nat)
    | None => mret tt
    end.

(** One round of the loop of [emit]: the array is read again at every
    round, as the array iterator does. *)
Definition emit_from (a i : nat) : M unit :=
  s ← get;
  match arrays s !! a ≫= (fun listeners => listeners !! i) with
  | Some l => invoke l;; rec (EmitFrom a (S i))
  | None => mret tt
  end.

Definition processNextJobs : M unit :=
  q ← self;
  if isDestroyed q || isPaused q then mret tt
  else if truthy (intervalCap q)
          && (default 0 (intervalCap q) <=? intervalCount q)
  then mret tt
  else
    rec ProcessLoop;;
    q ← self;
    if isDestroyed q then mret tt
    else if PriorityQueue.isEmpty (queue q) then
      emit EMPTY None;;
      q ← self;
      if running q =? 0 then emit IDLE None else mret tt
    else mret tt.

(** The [catch] block of [runJob]. *)
Definition runJob_catch (id : string) : M bool :=
  q ← self;
  (if isDestroyed q then mret tt else emit ERROR (Some id));;
  mret false.

(** The [finally] block of [runJob]. *)
Definition runJob_finally (id : string) (timeoutId : option nat) : M unit :=
  match timeoutId with
  | Some t => clearTimeout t
  | None => mret tt
  end;;
  update (fun q => set_jobMap (delete id (jobMap q)) q);;
  update (fun q => set_running (running q - 1) q);;
  q ← self;
  if negb (isDestroyed q) && negb (isPaused q) then processNextJobs
  else mret tt.

(** [try { body } catch { ... } finally { ... }] of the [async] function
    [runJob].  [body] returns [true] when it stops at [await]: the rest
    runs when the job settles.  An exception that leaves the [catch] or
    the [finally] block rejects the promise of [runJob], which nobody
    awaits: the caller of [runJob] does not see it. *)
Definition protected (id : string) (timeoutId : option nat)
    (body : M bool) : M unit := fun s =>
  match try_catch body (runJob_catch id) s with
  | Ok true s' => Ok tt s'
  | Ok false s' | Thrown s' =>
      match runJob_finally id timeoutId s' with
      | Ok _ s'' | Thrown s'' => Ok tt s''
      | OutOfFuel => OutOfFuel
      end
  | OutOfFuel => OutOfFuel
  end.

(** [runJob] up to [await job(...)], or to its end if it does not get
    there. *)
Definition runJob (it : jobItem) : M unit :=
  q ← self;
  if isDestroyed q then mret tt
  else
    let id := o_id (options it) in
    update (fun q => set_running (running q + 1) q);;
    s ← get;
    let c := length (controllers s) in
    modify (with_controllers (controllers s ++ [false]));;
    update (fun q =>
      match jobMap q !! id with
      | Some jobInfo =>
          set_jobMap (<[id := {| priority := priority jobInfo;
                                  controller := Some c;
                                  timeoutId := timeoutId jobInfo |}]>
                        (jobMap q)) q
      | None => q
      end);;
    s ← get;
    (if aborted s (o_signal (options it)) then abort_controller c
     else
       match o_signal (options it) with
       | Given n => modify (fun s => with_links (links s ++ [(n, c)]) s)
       | Private => mret tt
       end);;
    t ← (if truthy (timeout q) then
           s ← get;
           let t := length (timers s) in
           modify (with_timers (timers s ++ [Some c]));;
           update (fun q =>
             match jobMap q !! id with
             | Some jobInfo =>
                 set_jobMap (<[id := {| priority := priority jobInfo;
                                         controller := controller jobInfo;
                                         timeoutId := Some t |}]>
                               (jobMap q)) q
             | None => q
             end);;
           mret (Some t)
         else mret None);
    protected id t
      (q ← self;
       if isDestroyed q then abort_controller c;; mret false
       else
         emit NEXT (Some id);;
         s ← get;
         if default false (controllers s !! c) then throw
         else
           rec (RunProg (job it));;
           modify (fun s =>
             with_flights
               (flights s ++ [Some {| fl_id := id; fl_timeoutId := t |}]) s);;
           mret true).

(** The rest of the [try] block of [runJob] after [await job(...)]: the
    promise of the job is fulfilled, or it is rejected and [await] throws. *)
Definition runJob_resumed (id : string) (fulfilled : bool) : M bool :=
  if fulfilled then
    q ← self;
    (if isDestroyed q then mret tt else emit COMPLETED (Some id));;
    mret false
  else throw.

(** The rest of [runJob] when the promise of the job settles. *)
Definition settle (k : nat) (fulfilled : bool) : M unit :=
  s ← get;
  match flights s !! k with
  | Some (Some fl) =>
      modify (fun s => with_flights (<[k := None]> (flights s)) s);;
      protected (fl_id fl) (fl_timeoutId fl)
        (runJob_resumed (fl_id fl) fulfilled)
  | _ => mret tt
  end.

(** [this.queue.dequeue()] *)
Definition dequeue_item : M (option jobItem) :=
  q ← self;
  match PriorityQueue.dequeue same_item (queue q) with
  | PriorityQueue.Returns v q' => update (set_queue q');; mret v
  | PriorityQueue.Throws q' => update (set_queue q');; throw
  end.

(** The test of the [while] loop of [processNextJobs]. *)
Definition may_start (q : JobQueue) : bool :=
  negb (isDestroyed q)
  && negb (isPaused q)
  && (running q <? concurrency q)
  && negb (PriorityQueue.isEmpty (queue q))
  && (negb (truthy (intervalCap q))
      || (intervalCount q <? default 0 (intervalCap q))).

(** One round of the [while] loop of [processNextJobs]. *)
Definition process_loop : M unit :=
  q ← self;
  if may_start q then
    item ← dequeue_item;
    match item with
    | None => mret tt
    | Some it =>
        s ← get;
        if aborted s (o_signal (options it)) then
          emit NEXT None;;
          rec ProcessLoop
        else
          runJob it;;
          q ← self;
          if truthy (intervalCap q) then
            update (fun q => set_intervalCount (intervalCount q + 1) q);;
            q ← self;
            if default 0 (intervalCap q) <=? intervalCount q then mret tt
            else rec ProcessLoop
          else rec ProcessLoop
    end
  else mret tt.

Definition add (job : prog) (priority : option jsnum) (signal : option nat)
    (id : option string) (random : string) : M string :=
  q ← self;
  if isDestroyed q then mret EmptyString
  else
    let id :=
      match id with
      | Some i => if bool_decide (i = EmptyString) then random else i
      | None => random
      end in
    let priority :=
      match priority with
      | Some p => if js_truthy p then p else Fin 0
      | None => Fin 0
      end in
    let fullOptions :=
      {| o_priority := priority;
         o_signal := match signal with Some n => Given n | None => Private end;
         o_id := id |} in
    update (fun q =>
      set_jobMap (<[id := {| priority := priority; controller := None;
                              timeoutId := None |}]> (jobMap q)) q);;
    s ← get;
    modify (with_fresh (S (fresh s)));;
    update (fun q =>
      set_queue
        (PriorityQueue.enqueue
           {| ref := fresh s; job := job; options := fullOptions |}
           priority (queue q)) q);;
    emit ADDED (Some id);;
    q ← self;
    (if autoStart q && negb (isPaused q) then processNextJobs else mret tt);;
    mret id.

Definition start : M unit :=
  q ← self;
  if negb (isDestroyed q) && negb (isPaused q) then processNextJobs
  else mret tt.

Definition pause : M unit :=
  q ← self;
  if negb (isDestroyed q) then
    update (set_isPaused true);;
    emit PAUSED None
  else mret tt.

Definition resume : M unit :=
  q ← self;
  if negb (isDestroyed q) then
    update (set_isPaused false);;
    emit RESUMED None;;
    processNextJobs
  else mret tt.

Definition clear : M unit :=
  q ← self;
  if negb (isDestroyed q) then
    update (set_queue PriorityQueue.empty);;
    update (fun q =>
      set_jobMap
        (filter (fun entry => is_Some (controller entry.2)) (jobMap q)) q)
  else mret tt.

Definition size : M Z :=
  q ← self;
  mret (if isDestroyed q then 0
        else Z.of_nat (PriorityQueue.length (queue q))).

Definition active : M Z :=
  q ← self;
  mret (if isDestroyed q then 0 else running q).

Definition pending : M Z :=
  q ← self;
  mret (if isDestroyed q then 0
        else Z.of_nat (PriorityQueue.length (queue q))).

Definition setPriority (id : string) (p : jsnum) : M bool :=
  q ← self;
  if isDestroyed q then mret false
  else
    match jobMap q !! id with
    | None => mret false
    | Some jobInfo =>
        if controller jobInfo is Some _ then
          update (fun q =>
            set_jobMap (<[id := {| priority := p;
                                    controller := controller jobInfo;
                                    timeoutId := timeoutId jobInfo |}]>
                          (jobMap q)) q);;
          mret true
        else
          let '(queueArray, restored) := PriorityQueue.toArray (queue q) in
          let '(queue', found) :=
            reprioritize id p queueArray
              (PriorityQueue.clear restored, false) in
          update (set_queue queue');;
          (if found then
             update (fun q =>
               set_jobMap (<[id := {| priority := p; controller := None;
                                       timeoutId := None |}]>
                             (jobMap q)) q)
           else mret tt);;
          mret found
    end.

Definition abort (id : string) : M bool :=
  q ← self;
  if isDestroyed q then mret false
  else
    match jobMap q !! id with
    | None => mret false
    | Some jobInfo =>
        match controller jobInfo with
        | Some c => abort_controller c;; mret true
        | None =>
            let '(queueArray, restored) := PriorityQueue.toArray (queue q) in
            let '(queue', found) :=
              without id queueArray (PriorityQueue.clear restored, false) in
            update (set_queue queue');;
            (if found then
               update (fun q => set_jobMap (delete id (jobMap q)) q)
             else mret tt);;
            mret found
        end
    end.

Definition on (event : JobQueueEvent) (l : listener) : M unit :=
  q ← self;
  if isDestroyed q then mret tt
  else
    a ← match eventListeners q !! event with
        | Some a => mret a
        | None =>
            s ← get;
            modify (with_arrays (arrays s ++ [[]]));;
            update (fun q =>
              set_eventListeners
                (<[event := length (arrays s)]> (eventListeners q)) q);;
            mret (length (arrays s))
        end;
    modify (fun s =>
      with_arrays (alter (fun listeners => listeners ++ [l]) a (arrays s)) s).

Definition once (event : JobQueueEvent) (f : fn) : M unit :=
  q ← self;
  if isDestroyed q then mret tt
  else
    s ← get;
    modify (with_fresh (S (fresh s)));;
    on event (OnceListener (fresh s) event f).

Definition removeAllListeners (event : option JobQueueEvent) : M unit :=
  q ← self;
  if isDestroyed q then mret tt
  else
    match event with
    | Some e =>
        update (fun q => set_eventListeners (delete e (eventListeners q)) q)
    | None => update (set_eventListeners ∅)
    end.

Definition onEmpty (callback : fn) : M unit :=
  on EMPTY (Plain callback);;
  q ← self;
  if negb (isDestroyed q) && PriorityQueue.isEmpty (queue q)
  then call_fn callback
  else mret tt.

Definition onIdle (callback : fn) : M unit :=
  on IDLE (Plain callback);;
  q ← self;
  if negb (isDestroyed q) && PriorityQueue.isEmpty (queue q)
     && (running q =? 0)
  then call_fn callback
  else mret tt.

Definition destroy : M unit :=
  q ← self;
  if isDestroyed q then mret tt
  else
    update (set_isDestroyed true);;
    update (set_isPaused true);;
    update (set_intervalId None);;
    modify (fun s => abort_all (map_to_list (jobMap (this s))) s);;
    update (set_jobMap ∅);;
    update (set_queue PriorityQueue.empty);;
    update (set_eventListeners ∅);;
    update (set_running 0);;
    update (set_intervalCount 0).

(** A call of a public method or getter, with what it returns. *)
Definition call_method (m : method) : M retval :=
  match m with
  | Add job priority signal id random =>
      i ← add job priority signal id random; mret (RString i)
  | Start => start;; mret RThis
  | Pause => pause;; mret RThis
  | Resume => resume;; mret RThis
  | Clear => clear;; mret RThis
  | Size => z ← size; mret (RNumber z)
  | Active => z ← active; mret (RNumber z)
  | Pending => z ← pending; mret (RNumber z)
  | SetPriority id p => b ← setPriority id p; mret (RBoolean b)
  | Abort id => b ← abort id; mret (RBoolean b)
  | OnEmpty callback => onEmpty callback;; mret RThis
  | OnIdle callback => onIdle callback;; mret RThis
  | On event f => on event (Plain f);; mret RThis
  | Off event f => off event (Plain f);; mret RThis
  | Once event f => once event f;; mret RThis
  | RemoveAllListeners event => removeAllListeners event;; mret RThis
  | Destroy => destroy;; mret RUndefined
  end.

Definition exec (c : cmd) : M unit :=
  match c with
  | Call m =>
      v ← call_method m;
      match m, v with
      | Size, RNumber z => note (Observed GSize z)
      | Active, RNumber z => note (Observed GActive z)
      | Pending, RNumber z => note (Observed GPending z)
      | _, _ => mret tt
      end
  | Try body => try_catch (rec (RunProg body)) (mret tt)
  | Throw => throw
  | AbortSignal n => abort_signal n
  end.

Fixpoint exec_prog (p : prog) : M unit :=
  match p with
  | [] => mret tt
  | c :: rest => exec c;; exec_prog rest
  end.

Definition dispatch (k : call) : M unit :=
  match k with
  | RunProg p => exec_prog p
  | EmitFrom a i => emit_from a i
  | ProcessLoop => process_loop
  end.

(** The callback of [setInterval] in [setupInterval]. *)
Definition tick : M unit :=
  q ← self;
  match intervalId q with
  | None => mret tt
  | Some _ =>
      if isDestroyed q then update (set_intervalId None)
      else
        update (set_intervalCount 0);;
        processNextJobs
  end.
End Methods.

Fixpoint run (fuel : nat) (k : call) : M unit :=
  match fuel with
  | O => fun _ => OutOfFuel
  | S fuel' => dispatch (run fuel') k
  end.

(** The callback of [setTimeout] in [runJob]. *)
Definition timeout_fires (t : nat) : M unit :=
  s ← get;
  match timers s !! t with
  | Some (Some c) => clearTimeout t;; abort_controller c
  | _ => mret tt
  end.

(** [new JobQueue(options)] *)
Definition new (options : JobQueueOptions) : state :=
  {| this :=
       {| queue := PriorityQueue.empty; running := 0; isPaused := false;
          isDestroyed := false; intervalCount := 0;
          intervalId :=
            if truthy (opt_interval options) && truthy (opt_intervalCap options)
            then Some tt else None;
          jobMap := ∅; eventListeners := ∅; config := options |};
     arrays := []; controllers := []; signals := []; links := [];
     timers := []; flights := []; fresh := 0; calls := 0; log := [] |}.

(** What happens to a queue, one thing at a time: code around the queue
    runs, the promise of a running job settles, the interval timer or the
    timeout of a job fires.  An action that the state does not allow (no
    job waits under that number, no such timer is pending) does nothing. *)
Inductive action : Type :=
  | Client (p : prog)
  | Settle (k : nat) (fulfilled : bool)
  | Tick
  | TimeoutFires (t : nat).

Definition step (fuel : nat) (a : action) : M unit :=
  match a with
  | Client p => run fuel (RunProg p)
  | Settle k fulfilled => settle (run fuel) k fulfilled
  | Tick => tick (run fuel)
  | TimeoutFires t => timeout_fires t
  end.

(** A sequence of actions. An exception that reaches the top is reported
    by the host and the queue lives on. *)
Fixpoint steps (fuel : nat) (tr : list action) (s : state) : option state :=
  match tr with
  | [] => Some s
  | a :: rest =>
      match step fuel a s with
      | Ok _ s' | Thrown s' => steps fuel rest s'
      | OutOfFuel => None
      end
  end.
End JobQueue.

(** The words of the properties of the job queue. *)

Module JobQueueSpec.
Import JobQueue.

(** What a public method or getter returns on a destroyed queue. *)
Definition sentinel (m : method) : retval :=
  match m with
  | Add _ _ _ _ _ => RString EmptyString
  | Size | Active | Pending => RNumber 0
  | SetPriority _ _ | Abort _ => RBoolean false
  | Destroy => RUndefined
  | _ => RThis
  end.

(** [{ concurrency }] *)
Definition plain (concurrency : Z) : JobQueueOptions :=
  {| opt_concurrency := concurrency; opt_timeout := None;
     opt_autoStart := None; opt_intervalCap := None; opt_interval := None |}.

(** [{ concurrency, intervalCap, interval }] *)
Definition windowed (concurrency cap period : Z) : JobQueueOptions :=
  {| opt_concurrency := concurrency; opt_timeout := None;
     opt_autoStart := None; opt_intervalCap := Some cap;
     opt_interval := Some period |}.

(** A function that makes no call. *)
Definition silent (name : nat) : fn := Fn name (fun _ => []).

(** [q.add(job, { id })] *)
Definition add_job (id : string) (job : prog) : cmd :=
  Call (Add job None None (Some id) EmptyString).

(** [wp m Q E s]: run from [s], [m] returns a value and a state in [Q], or
    throws in a state in [E], or is cut off. *)
Definition wp {A : Type} (m : M A) (Q : A -> state -> Prop)
    (E : state -> Prop) (s : state) : Prop :=
  match m s with
  | Ok a s' => Q a s'
  | Thrown s' => E s'
  | OutOfFuel => True
  end.

(** [m] keeps the invariant [I], however it ends. *)
Definition keeps {A : Type} (I : state -> Prop) (m : M A) : Prop :=
  forall s, I s -> wp m (fun _ => I) I s.

(** What the [active] getter returned is within the limit [c]. *)
Definition active_ok (c : Z) (e : logEntry) : Prop :=
  match e with
  | Observed GActive v => v <= c
  | _ => True
  end.

(** The invariant of the concurrency limit, for a queue made with
    [options]. *)
Definition within_limit (options : JobQueueOptions) (s : state) : Prop :=
  config (this s) = options
  /\ running (this s) <= opt_concurrency options
  /\ Forall (active_ok (opt_concurrency options)) (log s).

(** Room for one more running job. *)
Definition room (options : JobQueueOptions) (s : state) : Prop :=
  within_limit options s /\ running (this s) < opt_concurrency options.

(** Three jobs on a queue of limit 2; the first reads [active] and adds the
    third before its first [await]; then the first two settle. *)
Definition busy_trace : list action :=
  [Client [add_job "a" [Call Active; add_job "c" []]; add_job "b" []];
   Settle 0 true; Settle 1 false].

Definition busy_state : state :=
  default (new (plain 2)) (steps 10 busy_trace (new (plain 2))).

(** A paused queue with a listener for [PAUSED]. *)
Definition paused_queue : state :=
  default (new (plain 1))
    (steps 10 [Client [Call (On PAUSED (silent 1)); Call Pause]] (new (plain 1))).

(** A destroyed queue. *)
Definition destroyed_queue : state :=
  default (new (plain 1)) (steps 10 [Client [Call Destroy]] (new (plain 1))).

(** The entries of the log about the run of a job: [NEXT], [COMPLETED] and
    [ERROR] with its id. *)
Definition about (id : string) (e : logEntry) : bool :=
  match e with
  | Emitted NEXT (Some i) | Emitted COMPLETED (Some i)
  | Emitted ERROR (Some i) => bool_decide (i = id)
  | _ => false
  end.

(** The entry of the log that [add] leaves for a job: [ADDED] with its id. *)
Definition adds (id : string) (e : logEntry) : bool :=
  match e with
  | Emitted ADDED (Some i) => bool_decide (i = id)
  | _ => false
  end.

(** In the log [l], oldest first, nothing is about [id] before [id] is
    added (again). *)
Fixpoint quiet_until_added (id : string) (l : list logEntry) : bool :=
  match l with
  | [] => true
  | e :: rest =>
      if adds id e then true
      else if about id e then false
      else quiet_until_added id rest
  end.

Definition added (id : string) (l : list logEntry) : bool :=
  existsb (adds id) l.

(** No entry of the queue and no waiting call of [runJob] has the id. *)
Definition absent (id : string) (s : state) : Prop :=
  (forall it, it ∈ queue (this s) ->
     o_id (options (PriorityQueue.value it)) <> id)
  /\ (forall fl, Some fl ∈ flights s -> fl_id fl <> id).

(** The invariant after a pending job [id] is aborted, [base] being the log
    at that time: since then nothing is about [id] before [id] is added
    again, and until then no job [id] is queued or waiting.  With [b], [id]
    has been added again. *)
Definition stays_out (base : list logEntry) (id : string) (b : bool)
    (s : state) : Prop :=
  exists l, log s = base ++ l
    /\ quiet_until_added id l = true
    /\ (if b then added id l = true else added id l = true \/ absent id s).

(** A queue of limit 1 with job [a] running and job [b] pending. *)
Definition one_pending : state :=
  default (new (plain 1))
    (steps 10 [Client [add_job "a" []; add_job "b" []]] (new (plain 1))).

(** [one_pending] after [abort('b')]. *)
Definition b_aborted : state :=
  match abort "b" one_pending with
  | Ok _ s => s
  | _ => one_pending
  end.

(** Then job [a] ends and a job [c] is added and ends. *)
Definition after_abort : list action :=
  [Settle 0 true; Client [add_job "c" []]; Settle 1 true].

Definition b_never_ran : state :=
  default b_aborted (steps 10 after_abort b_aborted).

(** A listener that makes no call. *)
Definition inert (l : listener) : Prop :=
  exists f, l = Plain f /\ forall n, fn_body f n = [].

(** The log of calls of the listeners [ls], one after the other. *)
Definition called (ls : list listener) : list logEntry :=
  (fun l => Called (listener_id l)) <$> ls.

(** The state after calls of the inert listeners [ls]. *)
Definition seen (ls : list listener) (s : state) : state :=
  with_calls (calls s + length ls)%nat (with_log (log s ++ called ls) s).

(** A listener that adds listener 4 for [PAUSED] when it is called. *)
Definition adder : fn := Fn 2 (fun _ => [Call (On PAUSED (silent 4))]).

(** A listener that adds listener 4 for one emission of [PAUSED] when it is
    called. *)
Definition once_adder : fn := Fn 2 (fun _ => [Call (Once PAUSED (silent 4))]).

(** A queue with two inert listeners for [PAUSED]. *)
Definition two_listeners : state :=
  default (new (plain 1))
    (steps 10 [Client [Call (On PAUSED (silent 1)); Call (On PAUSED (silent 3))]]
       (new (plain 1))).

(** A queue with [adder] between two inert listeners for [PAUSED]. *)
Definition adder_between : state :=
  default (new (plain 1))
    (steps 10 [Client [Call (On PAUSED (silent 1)); Call (On PAUSED adder);
                       Call (On PAUSED (silent 3))]]
       (new (plain 1))).

(** A queue with [once_adder] between two inert listeners for [PAUSED]. *)
Definition once_adder_between : state :=
  default (new (plain 1))
    (steps 10 [Client [Call (On PAUSED (silent 1)); Call (On PAUSED once_adder);
                       Call (On PAUSED (silent 3))]]
       (new (plain 1))).

(** The number of calls of [runJob] that wait at [await job(...)]: the jobs
    that have started and whose promise has not settled. *)
Definition waiting (s : state) : Z :=
  Z.of_nat (List.length (filter (fun fl => is_Some fl) (flights s))).

(** [running] counts the jobs that wait and [d] more, those that are on
    their way to [await] in the calls of [runJob] that have not returned;
    a destroyed queue does not count. *)
Definition counts_waiting (d : Z) (s : state) : Prop :=
  isDestroyed (this s) = true \/ running (this s) - waiting s = d.

(** Two jobs started on a queue of limit 3, the first settled. *)
Definition one_settled : state :=
  default (new (plain 3))
    (steps 10 [Client [add_job "a" []; add_job "b" []]; Settle 0 true]
       (new (plain 3))).

(** Reading a log, oldest entry first: whether the last of the [PAUSED]
    and [RESUMED] events so far is [PAUSED], and whether every [NEXT]
    event so far came when it was not. *)
Definition watch_step (w : bool * bool) (e : logEntry) : bool * bool :=
  match e with
  | Emitted PAUSED _ => (true, w.2)
  | Emitted RESUMED _ => (false, w.2)
  | Emitted NEXT _ => (w.1, w.2 && negb w.1)
  | _ => w
  end.

Definition watch (l : list logEntry) : bool * bool :=
  foldl watch_step (false, true) l.

(** The log has no [NEXT] event in a pause, and [isPaused] is what the log
    says, unless the queue is destroyed. *)
Definition pause_sound (s : state) : Prop :=
  (watch (log s)).2 = true
  /\ (isDestroyed (this s) = true \/ isPaused (this s) = (watch (log s)).1).

(** An event that [watch] does not read. *)
Definition plain_event (ev : JobQueueEvent) : Prop :=
  ev <> PAUSED /\ ev <> RESUMED /\ ev <> NEXT.

(** [pause_sound], and the queue is not paused. *)
Definition unpaused (s : state) : Prop :=
  pause_sound s /\ isPaused (this s) = false.

(** A queue of limit 1 whose [NEXT] listener pauses it: job [a] starts,
    the queue is paused, job [b] waits; then [a] ends, the queue is
    resumed and [b] starts. *)
Definition pausing_trace : list action :=
  [Client [Call (On NEXT (Fn 1 (fun _ => [Call Pause])));
           add_job "a" []; add_job "b" []];
   Settle 0 true; Client [Call Resume]].

Definition paused_and_resumed : state :=
  default (new (plain 1)) (steps 10 pausing_trace (new (plain 1))).

(** A getter was read and returned [0]. *)
Definition reads_zero (e : logEntry) : Prop := exists g, e = Observed g 0.

(** The queue is destroyed and has been silent since the state [s0]: no
    event was emitted and no callback was called, the log has only grown
    by getters that returned [0]; nothing is queued. *)
Definition silent_since (s0 s : state) : Prop :=
  isDestroyed (this s) = true
  /\ calls s = calls s0
  /\ queue (this s) = queue (this s0)
  /\ exists l, log s = log s0 ++ l /\ Forall reads_zero l.

(** A queue of limit 1 with a listener for every end of a job, destroyed
    while job [a] runs and job [b] waits. *)
Definition destroyed_busy : state :=
  default (new (plain 1))
    (steps 10
       [Client [Call (On COMPLETED (silent 1)); Call (On ERROR (silent 2));
                Call (OnIdle (silent 3));
                add_job "a" []; add_job "b" []; Call Destroy]]
       (new (plain 1))).

(** Then job [a] ends, the code around reads [size] and adds a job, and a
    timer fires. *)
Definition after_destroy : list action :=
  [Settle 0 true; Client [Call Size; add_job "c" []; Call Start]; Tick;
   TimeoutFires 0].

Definition destroyed_later : state :=
  default destroyed_busy (steps 10 after_destroy destroyed_busy).

(** An entry of the queue after [setPriority(id, p)]: the entries of the
    job [id] have the priority [p], in the queue and in their options. *)
Definition retarget (id : string) (p : jsnum)
    (item : PriorityQueue.item jobItem) : PriorityQueue.item jobItem :=
  let jobItem := PriorityQueue.value item in
  if bool_decide (o_id (options jobItem) = id)
  then PriorityQueue.Item p
         {| ref := ref jobItem; job := job jobItem;
            options := {| o_priority := p;
                          o_signal := o_signal (options jobItem);
                          o_id := o_id (options jobItem) |} |}
  else item.

(** Some entry of the queue is of the job [id]. *)
Definition queued (id : string) (q : PriorityQueue.t jobItem) : bool :=
  existsb (fun item =>
    bool_decide (o_id (options (PriorityQueue.value item)) = id)) q.

(** The id that [add] gives a job: [options.id || <random>]. *)
Definition given_id (id : option string) (random : string) : string :=
  match id with
  | Some i => if bool_decide (i = EmptyString) then random else i
  | None => random
  end.





(** A function that makes no call and aborts no signal, whenever it is
    called. *)
Definition inert_fn (f : fn) : Prop := forall n, fn_body f n = [].

(** A listener whose function is inert, registered by [on] or by [once]. *)
Definition calm_listener (l : listener) : Prop :=
  match l with
  | Plain f | OnceListener _ _ f => inert_fn f
  end.

(** A call with inert callbacks and a job that does nothing before its
    first [await]. *)
Definition calm_method (m : method) : Prop :=
  match m with
  | Add job _ _ _ _ => job = []
  | OnEmpty f | OnIdle f | On _ f | Once _ f => inert_fn f
  | _ => True
  end.

(** A command of the code around the queue whose callbacks are inert. *)
#[local] Unset Elimination Schemes.
Inductive calm : cmd -> Prop :=
  | calm_Call m : calm_method m -> calm (Call m)
  | calm_Try body : Forall calm body -> calm (Try body)
  | calm_Throw : calm Throw
  | calm_AbortSignal n : calm (AbortSignal n).
#[local] Set Elimination Schemes.

Definition calm_action (a : action) : Prop :=
  match a with
  | Client p => Forall calm p
  | _ => True
  end.

(** Every listener and every queued job of the state is inert. *)
Definition calm_state (s : state) : Prop :=
  Forall (Forall calm_listener) (arrays s)
  /\ Forall (fun item => job (PriorityQueue.value item) = []) (queue (this s)).

(** A job starts: [runJob] emits [NEXT] with its id. *)
Definition is_start (e : logEntry) : bool :=
  match e with
  | Emitted NEXT (Some _) => true
  | _ => false
  end.

(** The number of jobs that start in the log [l]. *)
Definition starts (l : list logEntry) : Z :=
  Z.of_nat (List.length (filter (fun e => is_start e) l)).

(** The state [s] comes from [s0] by calls of inert listeners: the queue
    object and the controllers are the same, the log has grown by calls. *)
Definition inside (s0 s : state) : Prop :=
  calm_state s
  /\ this s = this s0
  /\ controllers s = controllers s0
  /\ exists l, log s = log s0 ++ l /\ Forall (fun e => is_start e = false) l.

(** The invariant of the interval cap [cap], for the window that began
    when the log was [base]: since then at most [intervalCount] jobs have
    started, and [intervalCount] is at most [cap]. *)
Definition capped (base : list logEntry) (cap : Z) (s : state) : Prop :=
  calm_state s
  /\ opt_intervalCap (config (this s)) = Some cap
  /\ exists l, log s = base ++ l
       /\ starts l <= cap
       /\ (isDestroyed (this s) = true
           \/ (starts l <= intervalCount (this s)
               /\ intervalCount (this s) <= cap)).

(** [capped], with room for one more start. *)
Definition below_cap (base : list logEntry) (cap : Z) (s : state) : Prop :=
  capped base cap s
  /\ isDestroyed (this s) = false
  /\ intervalCount (this s) < cap.

(** [m] keeps the invariant [I] and does not throw. *)
Definition passes {A : Type} (I : state -> Prop) (m : M A) : Prop :=
  forall s, I s -> wp m (fun _ => I) (fun _ => False) s.

(** [this.intervalCount++] *)
Definition bump (s : state) : state :=
  with_this (set_intervalCount (intervalCount (this s) + 1) (this s)) s.

(** The calls that the queue makes while it goes through inert listeners. *)
Definition listening (k : call) : Prop :=
  match k with
  | EmitFrom _ _ => True
  | RunProg p => p = []
  | ProcessLoop => False
  end.

(** The calls that start jobs or run the code around the queue. *)
Definition working (k : call) : Prop :=
  match k with
  | EmitFrom _ _ => False
  | RunProg p => Forall calm p
  | ProcessLoop => True
  end.

(** A stretch of at most one window of the interval timer: no action but
    the first is a tick. *)
Definition one_window (tr : list action) : Prop :=
  match tr with
  | [] => True
  | _ :: rest => Forall (fun a => a <> Tick) rest
  end.

(** Five jobs are added to a queue that starts at most two jobs per
    interval and tells a listener of every start. *)
Definition five_added : list action :=
  [Client [Call (On NEXT (silent 1));
           add_job "a" []; add_job "b" []; add_job "c" []; add_job "d" [];
           add_job "e" []]].

(** The timer fires, then a job ends and one more is added. *)
Definition next_window : list action :=
  [Tick; Settle 0 true; Client [add_job "f" []]].

Definition five_added_state : state :=
  default (new (windowed 5 2 1000)) (steps 20 five_added (new (windowed 5 2 1000))).

Definition next_window_state : state :=
  default five_added_state (steps 20 next_window five_added_state).

(** The function that a call hands to the queue to be called back. *)
Definition callback (m : method) : option fn :=
  match m with
  | OnEmpty f | OnIdle f | On _ f | Once _ f => Some f
  | _ => None
  end.

(** Code that calls neither [start] nor [resume], in the callbacks that it
    registers either.  What the job functions do is free. *)
#[local] Unset Elimination Schemes.
Inductive no_start : cmd -> Prop :=
  | no_start_Call m :
      m <> Start -> m <> Resume ->
      (forall f n, callback m = Some f -> Forall no_start (fn_body f n)) ->
      no_start (Call m)
  | no_start_Try body : Forall no_start body -> no_start (Try body)
  | no_start_Throw : no_start Throw
  | no_start_AbortSignal n : no_start (AbortSignal n).
#[local] Set Elimination Schemes.

Definition no_start_fn (f : fn) : Prop :=
  forall n, Forall no_start (fn_body f n).

Definition no_start_listener (l : listener) : Prop :=
  match l with
  | Plain f | OnceListener _ _ f => no_start_fn f
  end.

Definition no_start_action (a : action) : Prop :=
  match a with
  | Client p => Forall no_start p
  | _ => True
  end.

(** [emit(NEXT, ...)] *)
Definition is_next (e : logEntry) : bool :=
  match e with
  | Emitted NEXT _ => true
  | _ => false
  end.

(** The queue holds its jobs back: it does not start jobs by itself, has
    no interval timer, nothing runs and nothing has started, and no
    listener calls [start] or [resume]. *)
Definition holding (s : state) : Prop :=
  autoStart (this s) = false
  /\ intervalId (this s) = None
  /\ running (this s) = 0
  /\ flights s = []
  /\ Forall (fun e => is_next e = false) (log s)
  /\ Forall (Forall no_start_listener) (arrays s).

(** The calls that a holding queue can make. *)
Definition held (k : call) : Prop :=
  match k with
  | RunProg p => Forall no_start p
  | EmitFrom _ _ => True
  | ProcessLoop => False
  end.

(** [{ concurrency, autoStart: false }] *)
Definition manual (concurrency : Z) : JobQueueOptions :=
  {| opt_concurrency := concurrency; opt_timeout := None;
     opt_autoStart := Some false; opt_intervalCap := None;
     opt_interval := None |}.

(** Two jobs are added, one is given another priority, the queue is paused
    and the getters are read, with a listener on every event of interest. *)
Definition busy_without_start : list action :=
  [Client [Call (On ADDED (silent 1)); Call (OnIdle (silent 2));
           add_job "a" [Call Start]; add_job "b" [];
           Call (SetPriority "b" (Fin 5)); Call Pause; Call Pending;
           Call Active];
   Tick; Settle 0 true; TimeoutFires 0].

Definition still_holding : state :=
  default (new (manual 2)) (steps 10 busy_without_start (new (manual 2))).
End JobQueueSpec.

(** ** [limit(tasks, n)] (limit.ts)

    The counters [index] and [active] live in the closure of the promise
    that [limit] returns: only [next] and the callbacks of [finally] reach
    them.  A callback runs as a whole, after the promise of its task has
    settled, fulfilled or rejected alike.  The array [tasks] is the one
    given at the call, and [n] is a whole number. *)

Module Limit.

(** What a task does when it is called: it returns a promise, or it throws
    before it has one to return. *)
Inductive task : Type :=
  | ReturnsPromise
  | ThrowsAtCall.

#[global] Instance task_eq_dec : EqDecision task.
Proof. solve_decision. Defined.

(** The promise that [limit] returns. *)
Inductive outcome : Type :=
  | Unsettled
  | Resolved
  | Rejected.

(** - [called]: the indices of the tasks called so far, in the order of
      the calls;
    - [waiting]: the tasks that have returned a promise whose callback of
      [finally] has not run yet. *)
Record state : Type := {
  index : nat;
  active : Z;
  called : list nat;
  waiting : list nat;
  promise : outcome;
}.

Inductive result : Type :=
  | Returns (s : state)
  | Throws (s : state).

(** [resolve()] and the rejection by the executor: a settled promise
    stays as it is. *)
Definition resolve (s : state) : state :=
  {| index := index s; active := active s; called := called s;
     waiting := waiting s;
     promise := match promise s with Unsettled => Resolved | o => o end |}.

Definition reject (s : state) : state :=
  {| index := index s; active := active s; called := called s;
     waiting := waiting s;
     promise := match promise s with Unsettled => Rejected | o => o end |}.

Section Limit.
Variable tasks : list task.
Variable n : Z.

(** The [while] loop of [next].  [rest] holds the tasks from [index] on:
    [index < tasks.length] as long as it is not empty. *)
Fixpoint while (rest : list task) (s : state) : result :=
  match rest with
  | [] => Returns s
  | task :: rest' =>
      if active s <? n then
        let s1 :=
          {| index := S (index s); active := active s + 1;
             called := called s ++ [index s]; waiting := waiting s;
             promise := promise s |} in
        match task with
        | ReturnsPromise =>
            while rest'
              {| index := index s1; active := active s1; called := called s1;
                 waiting := waiting s1 ++ [index s]; promise := promise s1 |}
        | ThrowsAtCall => Throws s1
        end
      else Returns s
  end.

Definition next (s : state) : result :=
  if (List.length tasks <=? index s)%nat && (active s =? 0)
  then Returns (resolve s)
  else while (drop (index s) tasks) s.

(** The callback of [finally] of the task called at index [k].  An
    exception of [next] rejects the promise that [finally] has returned,
    which nobody holds. *)
Definition finally (k : nat) (s : state) : state :=
  if bool_decide (k ∈ waiting s) then
    match next {| index := index s; active := active s - 1;
                  called := called s;
                  waiting := filter (fun j => j <> k) (waiting s);
                  promise := promise s |} with
    | Returns s' | Throws s' => s'
    end
  else s.

(** [limit(tasks, n)]: the executor of the promise runs [next]; if it
    throws, the promise is rejected. *)
Definition limit : state :=
  match next {| index := 0; active := 0; called := []; waiting := [];
                promise := Unsettled |} with
  | Returns s => s
  | Throws s => reject s
  end.

(** The state after the promises of the tasks [ks] have settled, in this
    order. *)
Definition run (ks : list nat) : state :=
  foldl (fun s k => finally k s) limit ks.
End Limit.
End Limit.

Module LimitSpec.
Import Limit.

(** The tasks among [ks] that threw when they were called. *)
Definition thrown (tasks : list task) (ks : list nat) : list nat :=
  filter (fun k => tasks !! k = Some ThrowsAtCall) ks.

(** What holds between the calls of [next]. *)
Definition consistent (tasks : list task) (n : Z) (s : state) : Prop :=
  (index s <= List.length tasks)%nat
  /\ called s = seq 0 (index s)
  /\ NoDup (waiting s)
  /\ (forall k, k ∈ waiting s -> (k < index s)%nat)
  /\ active s
     = Z.of_nat (List.length (waiting s))
       + Z.of_nat (List.length (thrown tasks (called s)))
  /\ active s <= Z.max 0 n
  /\ (promise s = Resolved -> index s = List.length tasks /\ active s = 0).

(** [consistent], and [next] has returned: no task waits for a free
    place, and the promise is resolved when nothing is left to do. *)
Definition settled (tasks : list task) (n : Z) (s : state) : Prop :=
  consistent tasks n s
  /\ promise s <> Rejected
  /\ (active s < n -> index s = List.length tasks)
  /\ (index s = List.length tasks -> active s = 0 -> promise s = Resolved).

(** No task throws at its call. *)
Definition all_return (tasks : list task) : Prop :=
  Forall (fun t => t = ReturnsPromise) tasks.

Definition five : list task :=
  [ReturnsPromise; ReturnsPromise; ReturnsPromise; ReturnsPromise;
   ReturnsPromise].

Definition second_throws : list task :=
  [ReturnsPromise; ThrowsAtCall; ReturnsPromise].
End LimitSpec.

(** ** [makeLimit(concurrency)] (limit.ts)

    [running] and [queue] live in the closure of the function that
    [makeLimit] returns: only that function, [runNext] and the callbacks
    of [finally] reach them.  A function given to the limiter may call the
    limiter again before it returns its promise.  [concurrency] is a whole
    number. *)

Module MakeLimit.

(** A function given to the limiter: when it is called it first calls the
    limiter with each function of its body, in order; then it returns a
    promise, or it throws. *)
#[local] Unset Elimination Schemes.
Inductive fn : Type :=
  | Fn (body : list fn) (throws : bool).
#[local] Set Elimination Schemes.

(** - [queue]: the queued closures [() => fn().then(resolve).catch(reject)],
      each with the number of the call of the limiter that made it;
    - [made]: the number of calls of the limiter so far;
    - [started]: the calls whose function has been called, in the order
      of these calls;
    - [waiting]: the calls whose function has returned a promise and whose
      callback of [finally] has not run yet;
    - [threw]: the calls whose function threw;
    - [rejected]: the calls whose promise was rejected by its executor. *)
Record state : Type := {
  running : Z;
  queue : Queue.t (nat * fn);
  made : nat;
  started : list nat;
  waiting : list nat;
  threw : list nat;
  rejected : list nat;
}.

Inductive result : Type :=
  | Returns (s : state)
  | Throws (s : state).

Definition set_queue (q : Queue.t (nat * fn)) (s : state) : state :=
  {| running := running s; queue := q; made := made s; started := started s;
     waiting := waiting s; threw := threw s; rejected := rejected s |}.

Definition set_running (r : Z) (s : state) : state :=
  {| running := r; queue := queue s; made := made s; started := started s;
     waiting := waiting s; threw := threw s; rejected := rejected s |}.

Definition set_made (m : nat) (s : state) : state :=
  {| running := running s; queue := queue s; made := m; started := started s;
     waiting := waiting s; threw := threw s; rejected := rejected s |}.

Definition set_started (l : list nat) (s : state) : state :=
  {| running := running s; queue := queue s; made := made s; started := l;
     waiting := waiting s; threw := threw s; rejected := rejected s |}.

Definition set_waiting (l : list nat) (s : state) : state :=
  {| running := running s; queue := queue s; made := made s;
     started := started s; waiting := l; threw := threw s;
     rejected := rejected s |}.

Definition set_threw (l : list nat) (s : state) : state :=
  {| running := running s; queue := queue s; made := made s;
     started := started s; waiting := waiting s; threw := l;
     rejected := rejected s |}.

Definition set_rejected (l : list nat) (s : state) : state :=
  {| running := running s; queue := queue s; made := made s;
     started := started s; waiting := waiting s; threw := threw s;
     rejected := l |}.

Section MakeLimit.
Variable concurrency : Z.

(** The function that [makeLimit] returns: the executor of the new promise
    queues the closure and calls [runNext]; if that throws, the new
    promise is rejected. *)
Definition limited (runNext : state -> option result) (f : fn) (s : state)
    : option state :=
  let k := made s in
  match runNext (set_made (S k) (set_queue (Queue.enqueue (k, f) (queue s)) s)) with
  | Some (Returns s') => Some s'
  | Some (Throws s') => Some (set_rejected (rejected s' ++ [k]) s')
  | None => None
  end.

(** What a function does before it returns or throws. *)
Fixpoint call_each (runNext : state -> option result) (body : list fn)
    (s : state) : option state :=
  match body with
  | [] => Some s
  | f :: rest =>
      match limited runNext f s with
      | Some s' => call_each runNext rest s'
      | None => None
      end
  end.

(** [runNext]; every call of it from within a function takes one unit of
    fuel. *)
Fixpoint runNext (fuel : nat) (s : state) : option result :=
  match fuel with
  | O => None
  | S fuel' =>
      if (Queue.length (queue s) =? 0)%nat || (concurrency <=? running s)
      then Some (Returns s)
      else
        match Queue.dequeue (queue s) with
        | (Some (k, Fn body throws), q') =>
            let s1 :=
              set_started (started s ++ [k])
                (set_running (running s + 1) (set_queue q' s)) in
            match call_each (runNext fuel') body s1 with
            | Some s2 =>
                if throws then Some (Throws (set_threw (threw s2 ++ [k]) s2))
                else Some (Returns (set_waiting (waiting s2 ++ [k]) s2))
            | None => None
            end
        | (None, q') => Some (Throws (set_queue q' s))
        end
  end.

(** The callback of [finally] of call [k].  An exception of [runNext]
    rejects the promise that [finally] has returned, which nobody holds. *)
Definition finally (fuel : nat) (k : nat) (s : state) : option state :=
  if bool_decide (k ∈ waiting s) then
    match runNext fuel
            (set_waiting (filter (fun j => j <> k) (waiting s))
               (set_running (running s - 1) s)) with
    | Some (Returns s') | Some (Throws s') => Some s'
    | None => None
    end
  else Some s.

(** [makeLimit(concurrency)] *)
Definition makeLimit : state :=
  {| running := 0; queue := Queue.empty; made := 0; started := [];
     waiting := []; threw := []; rejected := [] |}.

(** What happens to a limiter: the code around it calls it with a
    function, or the promise of a started function settles. *)
Inductive event : Type :=
  | Call (f : fn)
  | Settled (k : nat).

Definition step (fuel : nat) (e : event) (s : state) : option state :=
  match e with
  | Call f => limited (runNext fuel) f s
  | Settled k => finally fuel k s
  end.

Fixpoint steps (fuel : nat) (evs : list event) (s : state) : option state :=
  match evs with
  | [] => Some s
  | e :: rest =>
      match step fuel e s with
      | Some s' => steps fuel rest s'
      | None => None
      end
  end.
End MakeLimit.
End MakeLimit.

Module MakeLimitSpec.
Import MakeLimit.

(** The number of calls of the limiter that a call with [f] leads to. *)
Fixpoint weight (f : fn) : nat :=
  match f with
  | Fn body _ =>
      S ((fix sum (l : list fn) : nat :=
            match l with
            | [] => 0%nat
            | g :: l' => (weight g + sum l')%nat
            end) body)
  end.

Definition weights (l : list fn) : nat :=
  foldr (fun f n => (weight f + n)%nat) 0%nat l.

Definition queued (q : Queue.t (nat * fn)) : nat :=
  weights (snd <$> Queue.toArray q).

(** Fuel that is enough for the events [evs]. *)
Definition enough (evs : list event) : nat :=
  S (foldr (fun e n =>
              match e with
              | Call f => (weight f + n)%nat
              | Settled _ => n
              end) 0%nat evs).

(** What holds of a limiter while the functions of the calls [inside]
    have been called and have not returned yet. *)
Definition sound (c : Z) (inside : list nat) (s : state) : Prop :=
  running s
  = Z.of_nat (List.length (waiting s)) + Z.of_nat (List.length (threw s))
    + Z.of_nat (List.length inside)
  /\ running s <= Z.max 0 c
  /\ started s ++ (fst <$> Queue.toArray (queue s)) = seq 0 (made s)
  /\ NoDup (waiting s ++ threw s ++ inside)
  /\ (forall k, k ∈ waiting s ++ threw s ++ inside -> k ∈ started s)
  /\ (forall k, k ∈ rejected s -> k ∈ threw s).

(** No place is idle while a function is queued. *)
Definition busy (c : Z) (s : state) : Prop :=
  queue s = [] \/ c <= running s.

(** [busy] once the next function has been started. *)
Definition nearly_busy (c : Z) (s : state) : Prop :=
  (List.length (queue s) <= 1)%nat \/ c <= running s + 1.

Definition state_of (r : result) : state :=
  match r with
  | Returns s | Throws s => s
  end.

(** A function that returns a promise, one that throws, and one that
    calls the limiter with both before it returns. *)
Definition plain_fn : fn := Fn [] false.
Definition throwing_fn : fn := Fn [] true.
Definition nesting_fn : fn := Fn [plain_fn; throwing_fn] false.

Definition some_events : list event :=
  [Call plain_fn; Call nesting_fn; Call plain_fn; Settled 0; Call throwing_fn;
   Settled 1; Settled 2].
End MakeLimitSpec.

(** * Properties *)

(** ** The queue *)

Module QueueProps.
Import LinkedQueue QueueSpec.
Section Props.
Context {T : Type}.
Implicit Types (q : t T) (l : list T) (ns : list (nat * T))
  (nodes : list (QueueNode T)).

Lemma linked_app nodes from ns1 ns2 to :
  linked nodes from (ns1 ++ ns2) to
  <-> exists mid, linked nodes from ns1 mid /\ linked nodes mid ns2 to.
Proof.
  revert from. induction ns1 as [|[r v] ns1 IH]; intros from; simpl.
  - split; [by eauto|]. by intros (mid & -> & H).
  - split.
    + intros (-> & n & Hn & H). apply IH in H as (mid & H1 & H2).
      exists mid. split; [|done]. split; [done|]. by exists n.
    + intros (mid & (-> & n & Hn & H1) & H2). split; [done|].
      exists n. split; [done|]. apply IH. by exists mid.
Qed.

Lemma linked_valid nodes from ns to r :
  linked nodes from ns to -> r ∈ ns.*1 -> (r < List.length nodes)%nat.
Proof.
  revert from. induction ns as [|[r' v] ns IH]; intros from; simpl.
  - by intros _ ?%elem_of_nil.
  - intros (-> & n & Hn & H) [->|Hin]%elem_of_cons.
    + by apply lookup_lt_Some in Hn.
    + by apply (IH n).
Qed.

Lemma linked_ext nodes nodes' from ns to :
  (forall r, r ∈ ns.*1 -> nodes' !! r = nodes !! r) ->
  linked nodes from ns to -> linked nodes' from ns to.
Proof.
  revert from. induction ns as [|[r v] ns IH]; intros from Hext; simpl; [done|].
  intros (-> & n & Hn & H). split; [done|]. exists n. split.
  - rewrite Hext; [done|]. simpl. apply elem_of_cons. by left.
  - apply IH; [|done]. intros r' Hr'. apply Hext. simpl. apply elem_of_cons. by right.
Qed.

Lemma represents_new : represents (@new T) [].
Proof. exists []. split_and!; try done. constructor. Qed.

Lemma represents_enqueue q l v :
  represents q l -> represents (enqueue v q) (Queue.enqueue v l).
Proof.
  intros (ns & -> & Hl & Hnd & Htl & Hsz).
  set (n := List.length (store q)).
  exists (ns ++ [(n, v)]).
  assert (n ∉ ns.*1) as Hfresh.
  { intros Hin. pose proof (linked_valid _ _ _ _ _ Hl Hin). unfold n in *. lia. }
  unfold enqueue, Queue.enqueue. simpl.
  rewrite !fmap_app. simpl. split_and!.
  - done.
  - destruct ns as [|p ns' _] using rev_ind.
    + simpl in *. rewrite Hl in *. rewrite Htl. simpl. split; [done|].
      exists None. split; [|done]. fold n. by rewrite lookup_app_r, Nat.sub_diag.
    + destruct p as [tl vl]. rewrite fmap_app in Htl. simpl in Htl.
      rewrite last_snoc in Htl. rewrite Htl.
      apply linked_app in Hl as (mid & H1 & Hmid & nx & Hlook & Hend).
      simpl in Hend. subst mid nx.
      assert (tl < n)%nat as Htln by (by apply lookup_lt_Some in Hlook).
      assert (exists h, head q = Some h) as [h Hh].
      { destruct ns' as [|[r0 v0] ns'']; simpl in *; [by eauto|].
        destruct H1 as [-> _]. by eauto. }
      rewrite Hh.
      rewrite fmap_app in Hnd. apply NoDup_app in Hnd as (_ & Hdis & _).
      apply linked_app. exists (Some n). split.
      * apply linked_app. exists (Some tl). split.
        -- eapply linked_ext; [|rewrite <- Hh; exact H1]. intros r Hr.
           rewrite list_lookup_alter_ne.
           ++ apply lookup_app_l. eapply linked_valid; [exact H1|done].
           ++ intros ->. apply (Hdis _ Hr). simpl. apply elem_of_cons. by left.
        -- simpl. split; [done|]. exists (Some n). split; [|done].
           rewrite list_lookup_alter, decide_True by done.
           rewrite lookup_app_l by done. by rewrite Hlook.
      * simpl. split; [done|]. exists None. split; [|done].
        rewrite list_lookup_alter_ne by lia. fold n.
        by rewrite lookup_app_r, Nat.sub_diag.
  - apply NoDup_app. split_and!; [done| |apply NoDup_singleton].
    intros r Hr [->|[]%elem_of_nil]%elem_of_cons. done.
  - by rewrite last_snoc.
  - rewrite length_app. simpl. lia.
Qed.

Lemma represents_fromArray arr q l :
  represents q l -> represents (fromArray arr q) (Queue.fromArray arr l).
Proof.
  revert q l. induction arr as [|v arr IH]; intros q l Hq; [done|].
  apply IH. by apply represents_enqueue.
Qed.

Lemma represents_dequeue q l :
  represents q l ->
  (dequeue q).1 = (Queue.dequeue l).1
  /\ represents (dequeue q).2 (Queue.dequeue l).2.
Proof.
  intros (ns & -> & Hl & Hnd & Htl & Hsz). unfold dequeue.
  destruct ns as [|[r v] rest]; simpl in *.
  - rewrite Hl. simpl. split; [done|]. exists []. by rewrite Hl.
  - destruct Hl as (-> & n & Hn & Hl). simpl. rewrite Hn. simpl.
    split; [done|]. exists rest. simpl. apply NoDup_cons in Hnd as [_ Hnd].
    split_and!; [done..| |lia].
    destruct rest as [|[r' v'] rest']; simpl in *; [by subst n|].
    by destruct Hl as (-> & _).
Qed.

Lemma represents_peek q l : represents q l -> peek q = Queue.peek l.
Proof.
  intros (ns & -> & Hl & _). unfold peek, Queue.peek.
  destruct ns as [|[r v] rest]; simpl in *; [by rewrite Hl|].
  destruct Hl as (-> & n & Hn & _). simpl. by rewrite Hn.
Qed.

Lemma represents_size q l : represents q l -> size q = Z.of_nat (List.length l).
Proof. intros (ns & -> & _ & _ & _ & ->). by rewrite length_fmap. Qed.

Lemma represents_isEmpty q l : represents q l -> isEmpty q = Queue.isEmpty l.
Proof.
  intros Hq. unfold isEmpty, Queue.isEmpty, Queue.length.
  rewrite (represents_size _ _ Hq). by destruct l.
Qed.

Lemma walk_linked nodes from ns result (fuel : nat) :
  linked nodes from ns None -> (List.length ns <= fuel)%nat ->
  walk fuel nodes from result = Some (result ++ ns.*2).
Proof.
  revert from result fuel.
  induction ns as [|[r v] ns IH]; intros from result fuel; simpl.
  - intros -> _. destruct fuel; simpl; by rewrite app_nil_r.
  - intros (-> & n & Hn & Hl) Hfuel. destruct fuel as [|fuel]; [lia|].
    simpl. rewrite Hn. simpl. rewrite (IH n); [|done|lia].
    by rewrite <- app_assoc.
Qed.

Lemma represents_toArray q l (fuel : nat) :
  represents q l -> (List.length l <= fuel)%nat ->
  toArray fuel q = Some (Queue.toArray l).
Proof.
  intros (ns & -> & Hl & _) Hfuel. rewrite length_fmap in Hfuel.
  unfold toArray. by rewrite (walk_linked _ _ ns).
Qed.

Lemma represents_clear q : represents (clear q) [].
Proof. exists []. split_and!; try done. constructor. Qed.

Lemma queue_fromArray_app arr l : Queue.fromArray arr l = l ++ arr.
Proof.
  revert l. induction arr as [|v arr IH]; intros l; simpl.
  - by rewrite app_nil_r.
  - unfold Queue.fromArray in *. simpl. rewrite IH. unfold Queue.enqueue.
    by rewrite <- app_assoc.
Qed.

Lemma call_refines (fuel : nat) (o : op T) q l :
  represents q l -> (List.length l <= fuel)%nat ->
  exists q', call fuel o q = Some ((list_call o l).1, q')
             /\ represents q' (list_call o l).2.
Proof.
  intros Hq Hfuel. destruct o; simpl.
  - eexists. split; [done|]. by apply represents_enqueue.
  - destruct (represents_dequeue _ _ Hq) as [Hv Hq'].
    destruct (dequeue q) as [v q'], (Queue.dequeue l) as [v' l'].
    simpl in *. subst v'. by exists q'.
  - exists q. by rewrite (represents_peek _ _ Hq).
  - exists q. by rewrite (represents_isEmpty _ _ Hq).
  - exists q. unfold length. by rewrite (represents_size _ _ Hq).
  - eexists. split; [done|]. by apply represents_fromArray.
  - exists q. by rewrite (represents_toArray _ _ _ Hq Hfuel).
  - eexists. split; [done|]. apply represents_clear.
Qed.

Lemma list_call_length (o : op T) l :
  (List.length (list_call o l).2 <= List.length l + put [o])%nat.
Proof.
  destruct o; simpl; try lia.
  - unfold Queue.enqueue. rewrite length_app. simpl. lia.
  - destruct l; simpl; lia.
  - rewrite queue_fromArray_app, length_app. lia.
Qed.

Lemma calls_refine (fuel : nat) (os : list (op T)) q l :
  represents q l -> (List.length l + put os <= fuel)%nat ->
  exists q', calls fuel os q = Some ((list_calls os l).1, q')
             /\ represents q' (list_calls os l).2.
Proof.
  revert q l. induction os as [|o os IH]; intros q l Hq Hfuel.
  - by exists q.
  - cbn [calls list_calls].
    pose proof (list_call_length o l) as Hlen.
    unfold put in *. cbn [sum_list_with] in *.
    destruct (call_refines fuel o q l Hq) as (q1 & -> & Hq1); [lia|].
    destruct (list_call o l) as [a l1]. cbn [fst snd mbind option_bind] in *.
    destruct (IH q1 l1 Hq1) as (q2 & -> & Hq2); [lia|].
    destruct (list_calls os l1) as [answers l2]. simpl in *. by exists q2.
Qed.

Lemma calls_represents (fuel : nat) (os : list (op T)) q l answers q' :
  calls fuel os q = Some (answers, q') -> represents q l ->
  represents q' (list_calls os l).2.
Proof.
  revert q l answers. induction os as [|o os IH]; intros q l answers.
  - by intros [= _ <-].
  - cbn [calls list_calls]. intros Hcalls Hq.
    destruct (call fuel o q) as [[a q1]|] eqn:Hcall; [|done]. simpl in Hcalls.
    destruct (calls fuel os q1) as [[answers' q2]|] eqn:Hrest; [|done].
    simpl in Hcalls. injection Hcalls as <- <-.
    assert (represents q1 (list_call o l).2) as Hq1.
    { destruct o; simpl in Hcall.
      - injection Hcall as <- <-. by apply represents_enqueue.
      - destruct (represents_dequeue _ _ Hq) as [_ Hd].
        destruct (dequeue q) as [v qd]. injection Hcall as <- <-.
        simpl. by destruct (Queue.dequeue l).
      - by injection Hcall as <- <-.
      - by injection Hcall as <- <-.
      - by injection Hcall as <- <-.
      - injection Hcall as <- <-. by apply represents_fromArray.
      - destruct (toArray fuel q); [|done]. by injection Hcall as <- <-.
      - injection Hcall as <- <-. apply represents_clear. }
    destruct (list_call o l) as [a' l1]. simpl in *.
    pose proof (IH _ _ _ Hrest Hq1) as Hq2.
    by destruct (list_calls os l1).
Qed.

(** X1. A queue made by [new Queue()] and used through its methods in any
    order behaves as the list of its elements: every call returns what the
    same call returns on the list ([enqueue] appends at the back, [dequeue]
    and [peek] read the front or return [null] on the empty list, [length]
    and [isEmpty] count, [toArray] lists front first and ends), and the
    nodes between [head] and [tail] hold that list. *)
Theorem linked_queue_is_fifo (os : list (op T)) (more : nat) :
  exists q,
    calls (put os + more) os new = Some ((list_calls os []).1, q)
    /\ represents q (list_calls os []).2.
Proof. apply calls_refine; [apply represents_new|simpl; lia]. Qed.

(** X2. [fromArray] then [toArray] gives the array back: on a new queue,
    and after any elements put in before, which come first. *)
Theorem toArray_fromArray (arr0 arr : list T) (more : nat) :
  toArray (List.length arr0 + List.length arr + more)
    (fromArray arr (fromArray arr0 new))
  = Some (arr0 ++ arr).
Proof.
  assert (represents (fromArray arr (fromArray arr0 new)) (arr0 ++ arr)) as Hq.
  { pose proof (represents_fromArray arr _ _
      (represents_fromArray arr0 _ _ represents_new)) as Hq.
    by rewrite !queue_fromArray_app in Hq. }
  rewrite (represents_toArray _ _ _ Hq); [done|]. rewrite length_app. lia.
Qed.

(** X3. After any calls on a new queue, [isEmpty()], which reads [size],
    agrees with [head] and [tail], which [dequeue] and [peek] read: the
    three say empty together, [size] is not negative, and when
    [isEmpty()] is false [dequeue()] returns an element and takes one off
    [size]. *)
Theorem isEmpty_agrees_with_head (fuel : nat) (os : list (op T)) answers q :
  calls fuel os new = Some (answers, q) ->
  0 <= size q
  /\ (isEmpty q = true <-> head q = None)
  /\ (head q = None <-> tail q = None)
  /\ (isEmpty q = false ->
      exists v q', dequeue q = (Some v, q') /\ peek q = Some v
                   /\ size q' = size q - 1).
Proof.
  intros Hcalls.
  assert (exists l, represents q l) as [l Hq].
  { exists (list_calls os []).2.
    eapply calls_represents; [exact Hcalls|apply represents_new]. }
  pose proof (represents_isEmpty _ _ Hq) as He.
  pose proof (represents_size _ _ Hq) as Hs.
  pose proof (represents_peek _ _ Hq) as Hp.
  destruct (represents_dequeue _ _ Hq) as [Hv Hq'].
  pose proof (represents_size _ _ Hq') as Hs'.
  destruct Hq as (ns & -> & Hl & _ & Htl & _).
  destruct (dequeue q) as [v q']. simpl in *.
  rewrite He, Htl. clear He Htl Hq'.
  destruct ns as [|[r x] rest]; simpl in *.
  - rewrite Hl. split_and!; [lia|done..].
  - destruct Hl as (-> & _). split_and!; [lia|done| |].
    + split; [done|]. by intros Hlast%last_None.
    + intros _. exists x, q'. subst v. split_and!; [done..|lia].
Qed.
End Props.

Lemma isEmpty_agrees_with_head_witness :
  calls 3 three_in_one_out new
  = Some ([Undefined; Undefined; Value (Some 1); Array [2; 3]], two_left)
  /\ 0 <= size two_left
  /\ (isEmpty two_left = true <-> head two_left = None)
  /\ (head two_left = None <-> tail two_left = None)
  /\ (isEmpty two_left = false ->
      exists v q', dequeue two_left = (Some v, q') /\ peek two_left = Some v
                   /\ size q' = size two_left - 1).
Proof.
  assert (calls 3 three_in_one_out new
          = Some ([Undefined; Undefined; Value (Some 1); Array [2; 3]], two_left))
    as Hc by (by vm_compute).
  split; [exact Hc|].
  exact (isEmpty_agrees_with_head 3 three_in_one_out _ two_left Hc).
Defined.
End QueueProps.

(** ** The priority queue *)

Module PriorityQueueProps.
Import PriorityQueue PriorityQueueSpec.

Section Props.
Context {T : Type} (same : T -> T -> bool).
Hypothesis same_spec : forall x y, same x y = true <-> x = y.

Implicit Types (q es temp acc : list (item T)) (h e : item T).

Lemma js_gt_finite e1 e2 :
  finite_prio e1 -> finite_prio e2 ->
  js_gt (priority e1) (priority e2) = (zprio e2 <? zprio e1).
Proof.
  unfold finite_prio, zprio.
  destruct (priority e1), (priority e2); simpl; done.
Qed.

Lemma kept_spec h e : finite_prio h -> kept same h e = false <-> e = h.
Proof.
  intros Hh. unfold kept, finite_prio in *. destruct e as [p v], h as [ph vh].
  simpl in *. rewrite orb_false_iff, negb_false_iff, same_spec. split.
  - intros [Hp ->]. f_equal.
    destruct p, ph; simpl in *; try discriminate; try tauto.
    apply negb_false_iff, Z.eqb_eq in Hp. by subst.
  - intros [= -> ->]. split; [|done].
    destruct ph; simpl in *; try tauto. by rewrite Z.eqb_refl.
Qed.

Lemma kept_true h e : finite_prio h -> kept same h e = true <-> e <> h.
Proof.
  intros Hh. rewrite <- (kept_spec h e Hh).
  destruct (kept same h e); split; congruence.
Qed.

Lemma scan_temp q hp hi temp : (scan q hp hi temp).2 = temp ++ q.
Proof.
  revert hp hi temp. induction q as [|it q IH]; intros; simpl.
  - by rewrite app_nil_r.
  - destruct (js_gt _ _); rewrite IH; unfold Queue.enqueue;
      by rewrite <- app_assoc.
Qed.

Lemma rebuild_filter temp h acc :
  rebuild same temp h acc = acc ++ filter (fun it => kept same h it) temp.
Proof.
  revert acc. induction temp as [|it temp IH]; intros.
  - simpl. by rewrite app_nil_r.
  - rewrite filter_cons. cbn [rebuild]. destruct (kept same h it) eqn:E.
    + rewrite decide_True by done. rewrite IH.
      unfold Queue.enqueue. by rewrite <- app_assoc.
    + rewrite decide_False by (intros []). apply IH.
Qed.

Lemma restore_app temp acc : restore temp acc = acc ++ temp.
Proof.
  revert acc. induction temp as [|it temp IH]; intros; simpl.
  - by rewrite app_nil_r.
  - rewrite IH. unfold Queue.enqueue. by rewrite <- app_assoc.
Qed.

Lemma fromArray_app es q : fromArray es q = q ++ es.
Proof.
  revert q. induction es as [|[p v] es IH]; intros; simpl.
  - by rewrite app_nil_r.
  - unfold fromArray in *. simpl. rewrite IH. unfold enqueue, Queue.enqueue.
    simpl. by rewrite <- app_assoc.
Qed.

Lemma scan_selects q hp hi temp :
  Forall finite_prio q ->
  match hi with
  | None => hp = NegInf
  | Some h0 => hp = priority h0 /\ finite_prio h0
  end ->
  match (scan q hp hi temp).1 with
  | (_, None) => q = [] /\ hi = None
  | (hp', Some h) =>
      hp' = priority h /\ finite_prio h /\
      ((hi = Some h /\ Forall (fun e => zprio e <= zprio h) q)
       \/ (first_max h q
           /\ forall h0, hi = Some h0 -> zprio h0 < zprio h))
  end.
Proof.
  revert hp hi temp. induction q as [|it q IH]; intros hp hi temp Hfin Hhi.
  - simpl. destruct hi as [h0|]; [|done].
    destruct Hhi as [-> ?]. split_and!; [done..|]. left. by split.
  - apply Forall_cons in Hfin as [Hit Hfin]. simpl.
    destruct (js_gt (priority it) hp) eqn:Hgt.
    + specialize (IH (priority it) (Some it) (Queue.enqueue it temp) Hfin).
      destruct (scan q _ _ _) as [[hp' [h|]] temp'] eqn:E; simpl in *.
      * destruct IH as (-> & Hh & IH); [done|]. split_and!; [done..|]. right.
        assert (forall h0, hi = Some h0 -> zprio h0 < zprio it) as Hlt.
        { intros h0 ->. destruct Hhi as [-> Hh0].
          rewrite js_gt_finite in Hgt by done. by apply Z.ltb_lt in Hgt. }
        destruct IH as [[[= ->] Hall]|[(l1 & l2 & -> & H1 & H2) Hlt']].
        -- split; [|done]. exists [], q. split_and!; [done|constructor|done].
        -- specialize (Hlt' it eq_refl). split.
           ++ exists (it :: l1), l2. split_and!; [done| |done].
              constructor; [done|done].
           ++ intros h0 Hh0. specialize (Hlt h0 Hh0). lia.
      * destruct IH as [_ [=]]. done.
    + specialize (IH hp hi (Queue.enqueue it temp) Hfin Hhi).
      destruct (scan q _ _ _) as [[hp' [h|]] temp'] eqn:E; simpl in *.
      * destruct IH as (-> & Hh & IH). split_and!; [done..|].
        destruct hi as [h0|].
        -- destruct Hhi as [-> Hh0]. rewrite js_gt_finite in Hgt by done.
           apply Z.ltb_ge in Hgt.
           destruct IH as [[[= ->] Hall]|[(l1 & l2 & -> & H1 & H2) Hlt']].
           ++ left. split; [done|]. by constructor.
           ++ specialize (Hlt' h0 eq_refl). right. split; [|by intros ? [= <-]].
              exists (it :: l1), l2. split_and!; [done| |done].
              constructor; [lia|done].
        -- subst hp. destruct it as [[] v]; simpl in *; done.
      * destruct IH as [-> ->]. subst hp.
        destruct it as [[] v]; simpl in *; done.
Qed.

Lemma scan_first_max q :
  Forall finite_prio q -> q <> [] ->
  exists h, scan q NegInf None Queue.empty = (priority h, Some h, q)
            /\ finite_prio h /\ first_max h q.
Proof.
  intros Hfin Hne.
  pose proof (scan_selects q NegInf None Queue.empty Hfin eq_refl) as H.
  pose proof (scan_temp q NegInf None Queue.empty) as Ht.
  destruct (scan q NegInf None Queue.empty) as [[hp' [h|]] temp'];
    simpl in *; subst temp'.
  - destruct H as (-> & Hh & [[[=] _]|[Hfm _]]). by exists h.
  - by destruct H.
Qed.

Lemma first_max_elem h q : first_max h q -> h ∈ q.
Proof.
  intros (l1 & l2 & -> & _). apply elem_of_app. right. apply elem_of_cons. by left.
Qed.

Lemma first_max_ge h q e : first_max h q -> e ∈ q -> zprio e <= zprio h.
Proof.
  intros (l1 & l2 & -> & H1 & H2) He.
  rewrite Forall_forall in H1, H2.
  apply elem_of_app in He as [He|He]; [specialize (H1 _ He); lia|].
  apply elem_of_cons in He as [->|He]; [lia|by apply H2].
Qed.

Lemma first_max_before h q e :
  first_max h q -> e <> h -> zprio e = zprio h -> before h e q.
Proof.
  intros (l1 & l2 & -> & H1 & _) Hne Hp.
  induction H1 as [|x l1 Hx _ IH]; simpl.
  - by constructor.
  - constructor; [|intros ->; lia|done]. intros ->. lia.
Qed.

(** What [dequeue] does on a non-empty queue of finite priorities. *)
Lemma dequeue_finite q :
  Forall finite_prio q -> q <> [] ->
  exists h, first_max h q /\ finite_prio h /\
    dequeue same q
    = Returns (Some (value h)) (filter (fun it => kept same h it) q).
Proof.
  intros Hfin Hne. destruct (scan_first_max q Hfin Hne) as (h & E & Hh & Hfm).
  exists h. split_and!; [done..|]. unfold dequeue.
  destruct q as [|it q]; [done|]. change (isEmpty (it :: q)) with false.
  cbv iota. rewrite E. by rewrite rebuild_filter.
Qed.

Lemma before_filter (P : item T -> Prop) `{!forall x, Decision (P x)} a b l :
  P a -> P b -> before a b (filter P l) -> before a b l.
Proof.
  intros Ha Hb. induction l as [|x l IH]; [done|].
  rewrite filter_cons. destruct (decide (P x)) as [Hx|Hx].
  - inversion 1; subst; [by constructor|]. constructor; auto.
  - intros Hbef. constructor; [by intros ->|by intros ->|auto].
Qed.

Lemma filter_ne_perm (P : item T -> Prop) `{!forall x, Decision (P x)} h l :
  (forall x, P x <-> x <> h) -> (forall x, ~ P x -> x = h) ->
  NoDup l -> h ∈ l -> h :: filter P l ≡ₚ l.
Proof.
  intros HP HP'. induction 1 as [|x l Hx Hnd IH]; intros Hin.
  - by apply elem_of_nil in Hin.
  - rewrite filter_cons. destruct (decide (P x)) as [Hpx|Hpx].
    + apply HP in Hpx. apply elem_of_cons in Hin as [->|Hin]; [done|].
      rewrite Permutation_swap. by rewrite IH.
    + assert (x = h) as -> by auto.
      f_equiv. clear IH Hin Hnd. induction l as [|y l IH]; [done|].
      apply not_elem_of_cons in Hx as [Hy Hx]. rewrite filter_cons.
      rewrite decide_True by (by apply HP). f_equiv. by apply IH.
Qed.

Lemma js_ge_finite e1 e2 :
  finite_prio e1 -> finite_prio e2 ->
  js_ge (priority e1) (priority e2) = (zprio e2 <=? zprio e1).
Proof.
  unfold finite_prio, zprio.
  destruct (priority e1), (priority e2); simpl; done.
Qed.

Lemma zprio_eq e1 e2 :
  finite_prio e1 -> finite_prio e2 ->
  priority e1 = priority e2 <-> zprio e1 = zprio e2.
Proof.
  unfold finite_prio, zprio.
  destruct (priority e1), (priority e2); simpl; try done.
  intros _ _. split; congruence.
Qed.

Lemma drain_in_order (n : nat) es :
  (length es <= n)%nat -> Forall finite_prio es ->
  exists out, drain same (S n) es = Some (value <$> out)
              /\ drained_in_order es out.
Proof.
  revert es. induction n as [|n IH]; intros es Hlen Hfin.
  - destruct es; [|simpl in Hlen; lia]. exists []. split; [done|].
    split_and!; [done|constructor| |done].
    intros ???? _ Hi. by rewrite lookup_nil in Hi.
  - destruct (decide (es = [])) as [->|Hne].
    { exists []. split; [done|]. split_and!; [done|constructor| |done].
      intros ???? _ Hi. by rewrite lookup_nil in Hi. }
    destruct (dequeue_finite es Hfin Hne) as (h & Hfm & Hh & Hdq).
    set (P := fun it : item T => Is_true (kept same h it)) in *.
    assert (forall x, P x <-> x <> h) as HP.
    { intros x. unfold P. rewrite Is_true_true. by apply kept_true. }
    assert (forall x, ~ P x -> x = h) as HP'.
    { intros x Hx. apply (kept_spec h x Hh). unfold P in Hx.
      by destruct (kept same h x); [destruct Hx|]. }
    pose proof (first_max_elem _ _ Hfm) as Hin.
    assert (length (filter P es) < length es)%nat as Hlt.
    { apply (length_filter_lt P es h Hin). rewrite HP. by intros []. }
    destruct (IH (filter P es)) as (out & Hdr & Hm & Hs & Hf & Hp).
    { lia. }
    { rewrite Forall_forall in Hfin |- *. intros x Hx.
      apply list_elem_of_filter in Hx as [_ Hx]. by apply Hfin. }
    exists (h :: out). split.
    { change (drain same (S (S n)) es) with
        (match dequeue same es with
         | Throws _ => None
         | Returns None _ => Some []
         | Returns (Some v) q' => cons v <$> drain same (S n) q'
         end).
      rewrite Hdq. fold P. by rewrite Hdr. }
    assert (forall e, e ∈ out -> e ∈ es /\ e <> h) as Hout.
    { intros e He. apply Hm, list_elem_of_filter in He as [He ?].
      by apply HP in He. }
    rewrite Forall_forall in Hfin.
    split_and!.
    + intros e. rewrite elem_of_cons, Hm, list_elem_of_filter, HP.
      split; [intros [->|[_ ?]]; done|]. intros He.
      destruct (decide (P e)) as [Hpe|Hpe]; [right; split; [by apply HP|done]|].
      left. by apply HP'.
    + constructor; [done|]. apply Forall_forall. intros e He.
      destruct (Hout e He) as [He' _].
      rewrite js_ge_finite by auto. apply Is_true_true, Z.leb_le.
      by apply (first_max_ge h es).
    + intros i j a b Hij Ha Hb Hpr. destruct j as [|j]; [lia|].
      simpl in Hb. apply list_elem_of_lookup_2 in Hb as Hbin.
      destruct (Hout b Hbin) as [Hbes Hbh].
      destruct i as [|i]; simpl in Ha.
      * injection Ha as <-. apply first_max_before; [done..|].
        symmetry. by apply zprio_eq; auto.
      * apply list_elem_of_lookup_2 in Ha as Hain.
        destruct (Hout a Hain) as [Haes Hah].
        apply (before_filter P); [by apply HP..|].
        apply (Hf i j); [lia|done..].
    + intros Hnd. rewrite Hp by (by apply NoDup_filter).
      by apply filter_ne_perm.
Qed.

Lemma scan_value_scan q hp hi temp :
  scan_value q hp (value <$> hi) temp
  = (value <$> (scan q hp hi temp).1.2, (scan q hp hi temp).2).
Proof.
  revert hp hi temp. induction q as [|it q IH]; intros; simpl; [done|].
  destruct (js_gt _ _); [|apply IH]. apply (IH _ (Some it)).
Qed.

Lemma filter_absent (P : item T -> Prop) `{!forall x, Decision (P x)} h
    (l : list (item T)) :
  (forall x, P x <-> x <> h) -> h ∉ l -> filter P l = l.
Proof.
  intros HP. induction l as [|y l IH]; [done|]. intros Hx.
  apply not_elem_of_cons in Hx as [Hy Hx]. rewrite filter_cons.
  rewrite decide_True by (by apply HP). f_equal. by apply IH.
Qed.

(** When the selected entry has no equal in the queue, [dequeue] takes
    out that entry and nothing else. *)
Lemma dequeue_removes_one q :
  Forall finite_prio q -> q <> [] -> NoDup q ->
  exists h l1 l2, first_max h q /\ q = l1 ++ h :: l2
    /\ dequeue same q = Returns (Some (value h)) (l1 ++ l2).
Proof.
  intros Hfin Hne Hnd.
  destruct (dequeue_finite q Hfin Hne) as (h & Hfm & Hh & Hdq).
  destruct Hfm as (l1 & l2 & -> & H1 & H2) in Hdq |- *.
  exists h, l1, l2. split_and!; [by exists l1, l2|done|]. rewrite Hdq. f_equal.
  apply NoDup_app in Hnd as (_ & Hl1 & Hnd).
  apply NoDup_cons in Hnd as [Hl2 _].
  assert (forall x, Is_true (kept same h x) <-> x <> h) as HP.
  { intros x. rewrite Is_true_true. by apply kept_true. }
  rewrite filter_app, filter_cons, decide_False.
  - f_equal; apply (filter_absent _ h); [done| |done..].
    intros Hin. apply (Hl1 h Hin). apply elem_of_cons. by left.
  - rewrite HP. by intros [].
Qed.

(** For every sequence of [enqueue] calls with finite integer priorities,
    calling [dequeue] until it returns [null] returns values by
    non-increasing priority, entries of equal priority in the order of
    their insertion.  [out] is the list of the entries whose values are
    returned: every entry is in it, but entries equal in priority and value
    are there once only.  When no two entries are equal, [out] is a
    permutation of the entries. *)
Theorem drain_priority_fifo (es : list (item T)) :
  Forall finite_prio es ->
  exists out,
    drain same (S (List.length es)) (fromArray es empty)
    = Some (value <$> out)
    /\ drained_in_order es out.
Proof.
  intros Hfin. rewrite fromArray_app. by apply drain_in_order.
Qed.

(** C10. On a queue whose priorities are finite integers, [peek] and
    [dequeue] return [null] when the queue is empty, and the value of an
    entry, the same for both, when it is not; [dequeue] does not throw. *)
Theorem null_only_when_empty (q : t T) :
  Forall finite_prio q ->
  (q = [] /\ dequeue same q = Returns None [] /\ peek q = (None, []))
  \/ (q <> [] /\ exists v q',
        dequeue same q = Returns (Some v) q' /\ peek q = (Some v, q)).
Proof.
  intros Hfin. destruct (decide (q = [])) as [->|Hne]; [by left|right].
  split; [done|].
  destruct (dequeue_finite q Hfin Hne) as (h & Hfm & Hh & Hdq).
  destruct (scan_first_max q Hfin Hne) as (h' & E & _ & Hfm').
  exists (value h'), (filter (fun it => kept same h it) q).
  assert (peek q = (Some (value h'), q)) as Hpk.
  { unfold peek. destruct q as [|it q]; [done|].
    change (isEmpty (it :: q)) with false. cbv iota.
    pose proof (scan_value_scan (it :: q) NegInf None Queue.empty) as Hsv.
    rewrite E in Hsv. change (value <$> None) with (@None T) in Hsv.
    rewrite Hsv. cbn [fst snd fmap option_fmap option_map].
    by rewrite restore_app. }
  split; [|done]. rewrite Hdq. unfold dequeue in Hdq.
  destruct q as [|it q]; [done|]. change (isEmpty (it :: q)) with false in Hdq.
  cbv iota in Hdq. rewrite E in Hdq. by injection Hdq as ->.
Qed.
End Props.

(** What [dequeue] returns and leaves, whatever the priorities are. *)

Section Dequeue.
Context {T : Type} (same : T -> T -> bool).
Implicit Types (q temp : list (item T)).

Lemma scan_item_in q hp hi temp h :
  (scan q hp hi temp).1.2 = Some h -> h ∈ q \/ hi = Some h.
Proof.
  revert hp hi temp. induction q as [|it q IH]; intros hp hi temp; simpl.
  - by right.
  - destruct (js_gt _ _); intros Hs; apply IH in Hs as [?|Hs].
    + left. apply elem_of_cons. by right.
    + injection Hs as ->. left. apply elem_of_cons. by left.
    + left. apply elem_of_cons. by right.
    + by right.
Qed.

Lemma dequeue_sub q :
  match dequeue same q with
  | Returns r q' =>
      (forall x, x ∈ q' -> x ∈ q)
      /\ (forall v, r = Some v -> exists x, x ∈ q /\ value x = v)
  | Throws q' => q' = []
  end.
Proof.
  unfold dequeue. destruct (isEmpty q); [split; [done|by intros ? [=]]|].
  pose proof (scan_item_in q NegInf None Queue.empty) as Hin.
  pose proof (scan_temp q NegInf None Queue.empty) as Ht.
  destruct (scan q NegInf None Queue.empty) as [[hp [h|]] temp]; simpl in *.
  - subst temp. rewrite rebuild_filter. simpl. split.
    + intros x Hx. by apply list_elem_of_filter in Hx as [_ ?].
    + intros v [= <-]. exists h. split; [|done]. by destruct (Hin h eq_refl).
  - destruct temp; [|done]. split; [|by intros ? [=]].
    intros x Hx. by apply elem_of_nil in Hx.
Qed.
End Dequeue.

(** The order of the drain at four entries, two of them of equal
    priority. *)
Lemma drain_priority_fifo_witness :
  let es := [Item (Fin 1) "low"%string; Item (Fin 5) "first"%string; Item (Fin 5) "second"%string;
             Item (Fin 10) "high"%string] in
  Forall finite_prio es
  /\ exists out,
       drain String.eqb (S (List.length es)) (fromArray es empty)
       = Some (value <$> out)
       /\ drained_in_order es out.
Proof.
  intros es. split.
  - repeat constructor.
  - apply (drain_priority_fifo String.eqb String.eqb_eq es). repeat constructor.
Defined.

(** C10 at a queue of two entries. *)
Lemma null_only_when_empty_witness :
  let q := [Item (Fin 1) "low"%string; Item (Fin 10) "high"%string] in
  Forall finite_prio q
  /\ ((q = [] /\ dequeue String.eqb q = Returns None []
       /\ peek q = (None, []))
      \/ (q <> [] /\ exists v q',
            dequeue String.eqb q = Returns (Some v) q'
            /\ peek q = (Some v, q))).
Proof.
  intros q. split.
  - repeat constructor.
  - apply (null_only_when_empty String.eqb q). repeat constructor.
Defined.

(** C2 at its failing input: after [enqueue('a', 1)] twice, one [dequeue]
    returns ['a'] and leaves the queue empty: the length goes from 2 to 0,
    both entries are gone. *)
Theorem dequeue_drops_equal_entries :
  let q := enqueue "a"%string (Fin 1) (enqueue "a"%string (Fin 1) empty) in
  length q = 2%nat
  /\ dequeue String.eqb q = Returns (Some "a"%string) empty
  /\ @length string empty = 0%nat.
Proof. by vm_compute. Qed.

(** C1 at its failing input: after [enqueue('a', 1)], [enqueue('b', 1)],
    [enqueue('a', 1)], calling [dequeue] until it returns [null] returns
    ['a'] and ['b'] and no more.  The first [dequeue] takes both entries
    of ['a'] out of the queue, so the entry inserted last never comes out,
    where insertion order among equal priorities gives ['a'], ['b'], ['a'].
    After [enqueue('a', 1)] twice, ['a'] comes out once. *)
Theorem drain_leaves_out_equal_entries :
  let es := [Item (Fin 1) "a"%string; Item (Fin 1) "b"%string;
             Item (Fin 1) "a"%string] in
  value <$> es = ["a"%string; "b"%string; "a"%string]
  /\ dequeue String.eqb (fromArray es empty)
     = Returns (Some "a"%string) [Item (Fin 1) "b"%string]
  /\ drain String.eqb (S (List.length es)) (fromArray es empty)
     = Some ["a"%string; "b"%string]
  /\ drain String.eqb 3
       (enqueue "a"%string (Fin 1) (enqueue "a"%string (Fin 1) empty))
     = Some ["a"%string].
Proof. by vm_compute. Qed.

(** *** Priorities that are not finite numbers *)

Lemma js_gt_NegInf p : js_gt p NegInf = false <-> unranked p.
Proof.
  unfold unranked. destruct p; simpl; split; try done; try (by auto).
  all: by intros [|].
Qed.

Lemma js_gt_trans a b c :
  js_gt a b = true -> js_gt c b = false -> c = NaN \/ js_gt a c = true.
Proof.
  destruct a, b, c; simpl; try done; try (by left); try (by right).
  intros ?%Z.ltb_lt ?%Z.ltb_ge. right. apply Z.ltb_lt. lia.
Qed.

Lemma js_gt_trans2 a b c :
  js_gt a b = true -> js_gt b c = true -> js_gt a c = true.
Proof.
  destruct a, b, c; simpl; try done.
  intros ?%Z.ltb_lt ?%Z.ltb_lt. apply Z.ltb_lt. lia.
Qed.

Section More.
Context {T : Type} (same : T -> T -> bool).
Implicit Types (q temp : list (item T)) (h e : item T).

(** What the first loop selects, from any running maximum. *)
Lemma scan_any q hp hi temp :
  match hi with
  | None => hp = NegInf
  | Some h0 => hp = priority h0 /\ js_gt hp NegInf = true
  end ->
  match (scan q hp hi temp).1 with
  | (_, None) => hi = None /\ Forall (fun e => unranked (priority e)) q
  | (hp', Some h) =>
      hp' = priority h /\ js_gt hp' NegInf = true
      /\ ((hi = Some h
           /\ Forall (fun e => js_gt (priority e) hp = false) q)
          \/ exists l1 l2, q = l1 ++ h :: l2
               /\ js_gt (priority h) hp = true
               /\ Forall (fun e => priority e = NaN
                                   \/ js_gt (priority h) (priority e) = true) l1
               /\ Forall (fun e => js_gt (priority e) (priority h) = false) l2)
  end.
Proof.
  revert hp hi temp. induction q as [|e q IH]; intros hp hi temp Hhi; simpl.
  - destruct hi as [h0|]; [|by split]. destruct Hhi as [-> ?].
    split_and!; [done..|]. left. by split.
  - destruct (js_gt (priority e) hp) eqn:Egt.
    + assert (js_gt (priority e) NegInf = true) as He.
      { destruct hi as [h0|]; [|by subst hp]. destruct Hhi as [-> Hh0].
        by apply (js_gt_trans2 _ (priority h0)). }
      specialize (IH (priority e) (Some e) (Queue.enqueue e temp) (conj eq_refl He)).
      destruct (scan q (priority e) (Some e) (Queue.enqueue e temp))
        as [[hp' [h|]] temp'] eqn:Es; simpl in *; [|by destruct IH].
      destruct IH as (-> & Hr & Hcase).
      split_and!; [done..|]. right.
      destruct Hcase as [[[= ->] Hall]|(l1 & l2 & -> & Hgt & H1 & H2)].
      * exists [], q. by split_and!.
      * exists (e :: l1), l2. split_and!; [done| |constructor; [|done]|done].
        -- by apply (js_gt_trans2 _ (priority e)).
        -- by right.
    + specialize (IH hp hi (Queue.enqueue e temp) Hhi).
      destruct (scan q hp hi (Queue.enqueue e temp))
        as [[hp' [h|]] temp'] eqn:Es; simpl in *.
      * destruct IH as (-> & Hr & Hcase). split_and!; [done..|].
        destruct Hcase as [[-> Hall]|(l1 & l2 & -> & Hgt & H1 & H2)].
        -- left. split; [done|]. by constructor.
        -- right. exists (e :: l1), l2. split_and!; [done..| |done].
           constructor; [|done].
           destruct (js_gt_trans _ _ _ Hgt Egt); by eauto.
      * destruct IH as [-> Hall]. split; [done|]. constructor; [|done].
        subst hp. by apply js_gt_NegInf.
Qed.

Lemma scan_first q :
  match (scan q NegInf None Queue.empty).1.2 with
  | None => Forall (fun e => unranked (priority e)) q
  | Some h => selected h q
  end.
Proof.
  pose proof (scan_any q NegInf None Queue.empty eq_refl) as H.
  destruct (scan q NegInf None Queue.empty) as [[hp [h|]] temp]; simpl in *.
  - destruct H as (-> & Hr & [[[=] _]|(l1 & l2 & -> & _ & H1 & H2)]).
    by exists l1, l2.
  - by destruct H.
Qed.

Lemma selected_not_unranked h q e :
  selected h q -> unranked (priority e) -> kept same h e = true.
Proof.
  intros (_ & _ & _ & Hr & _) He. unfold kept. apply orb_true_iff. left.
  destruct He as [-> | ->]; [done|]. by destruct (priority h).
Qed.

Lemma dequeue_any q :
  match dequeue same q with
  | Returns None q' => q = [] /\ q' = []
  | Returns (Some v) q' =>
      exists h, selected h q /\ v = value h
                /\ q' = filter (fun e => kept same h e) q
  | Throws q' =>
      q <> [] /\ Forall (fun e => unranked (priority e)) q /\ q' = []
  end.
Proof.
  unfold dequeue. destruct q as [|e q]; [done|].
  change (isEmpty (e :: q)) with false. cbv iota.
  pose proof (scan_first (e :: q)) as Hsel.
  pose proof (scan_temp (e :: q) NegInf None Queue.empty) as Htemp.
  destruct (scan (e :: q) NegInf None Queue.empty) as [[hp hi] temp].
  simpl in Hsel, Htemp. subst temp. destruct hi as [h|]; [|done].
  exists h. split_and!; [done..|]. by rewrite rebuild_filter.
Qed.

Lemma peek_any q :
  peek q = (value <$> (scan q NegInf None Queue.empty).1.2, q).
Proof.
  unfold peek. destruct q as [|e q]; [done|].
  change (isEmpty (e :: q)) with false. cbv iota.
  change (@None T) with (value <$> @None (item T)).
  rewrite scan_value_scan, scan_temp, restore_app. done.
Qed.

(** X4. What [dequeue] does, whatever the priorities are ([NaN] and the
    infinities too).  On the empty queue it returns [null].  If no
    priority is greater than [-Infinity], it throws and the queue is left
    empty.  Otherwise it returns the value of the first entry of the
    greatest priority and leaves, in their order, the entries that differ
    from that one in priority or in value. *)
Theorem dequeue_whatever_the_priorities (q : t T) :
  match dequeue same q with
  | Returns None q' => q = [] /\ q' = []
  | Returns (Some v) q' =>
      exists h, selected h q /\ v = value h
                /\ q' = filter (fun e => kept same h e) q
  | Throws q' =>
      q <> [] /\ Forall (fun e => unranked (priority e)) q /\ q' = []
  end.
Proof. apply dequeue_any. Qed.

(** X5. A queue that is not empty and whose priorities are all [NaN] or
    [-Infinity]: [peek] returns [null] and keeps the queue; [dequeue]
    throws, and every entry is lost. *)
Theorem dequeue_throws_when_nothing_ranks (q : t T) :
  q <> [] -> Forall (fun e => unranked (priority e)) q ->
  peek q = (None, q) /\ dequeue same q = Throws [].
Proof.
  intros Hne Hall.
  assert (forall h, ~ selected h q) as Hno.
  { intros h (l1 & l2 & -> & Hr & _).
    apply Forall_app in Hall as [_ [Hh _]%Forall_cons].
    apply js_gt_NegInf in Hh. congruence. }
  split.
  - rewrite peek_any. pose proof (scan_first q) as Hsel.
    destruct ((scan q NegInf None Queue.empty).1.2) as [h|]; [|done].
    by destruct (Hno h).
  - pose proof (dequeue_any q) as Hd.
    destruct (dequeue same q) as [[v|] q'|q'].
    + destruct Hd as (h & Hh & _). by destruct (Hno h).
    + by destruct Hd.
    + by destruct Hd as (_ & _ & ->).
Qed.

(** X6. An entry whose priority is [NaN] or [-Infinity] is never the one
    that [dequeue] returns and is in the queue after every [dequeue] that
    returns: it leaves the queue only when [dequeue] throws, or by
    [clear]. *)
Theorem unranked_entry_stays (q q' : t T) (r : option T) (e : item T) :
  dequeue same q = Returns r q' ->
  e ∈ q -> unranked (priority e) ->
  e ∈ q'
  /\ exists h, h ∈ q /\ r = Some (value h) /\ ~ unranked (priority h).
Proof.
  intros Hd He Hu. pose proof (dequeue_any q) as Hany. rewrite Hd in Hany.
  destruct r as [v|].
  - destruct Hany as (h & Hsel & -> & ->). split.
    + apply list_elem_of_filter. split; [|done].
      by rewrite (selected_not_unranked h q e).
    + exists h. destruct Hsel as (l1 & l2 & -> & Hr & _). split_and!; [|done|].
      * apply elem_of_app. right. apply elem_of_cons. by left.
      * intros Hh%js_gt_NegInf. congruence.
  - destruct Hany as [-> _]. by apply elem_of_nil in He.
Qed.

(** X7. [peek] never changes the queue, and it returns what [dequeue]
    would return; where [dequeue] would throw, it returns [null]. *)
Theorem peek_shows_what_dequeue_returns (q : t T) :
  (peek q).2 = q
  /\ match dequeue same q with
     | Returns r _ => (peek q).1 = r
     | Throws _ => (peek q).1 = None
     end.
Proof.
  rewrite peek_any. split; [done|]. simpl.
  unfold dequeue. destruct q as [|e q]; [done|].
  change (isEmpty (e :: q)) with false. cbv iota.
  pose proof (scan_temp (e :: q) NegInf None Queue.empty) as Htemp.
  destruct (scan (e :: q) NegInf None Queue.empty) as [[hp hi] temp].
  simpl in *. subst temp. by destruct hi.
Qed.

(** X8. [toArray] lists the entries in the order of their insertion, not
    of their priority, and keeps the queue; [fromArray] puts the entries
    of the array behind those of the queue, in the order of the array. *)
Theorem toArray_in_insertion_order (arr : list (item T)) (q : t T) :
  toArray (fromArray arr q) = (q ++ arr, q ++ arr)
  /\ length (fromArray arr q) = (length q + List.length arr)%nat.
Proof.
  rewrite fromArray_app. unfold toArray, length, Queue.length.
  rewrite restore_app, length_app. split; [|done]. f_equal.
  induction (q ++ arr) as [|[p v] l IH]; [done|]. simpl. by rewrite IH.
Qed.
End More.

(** X9. In a queue of numbers, a value [NaN] that [dequeue] returns stays
    in the queue: [NaN !== NaN], so the second loop keeps every entry, the
    selected one too, and the next [dequeue] returns it again. *)
Theorem dequeue_keeps_NaN_value (q q' : t jsnum) :
  dequeue same_number q = Returns (Some NaN) q' -> q' = q.
Proof.
  intros Hd. pose proof (dequeue_any same_number q) as Hany. rewrite Hd in Hany.
  destruct Hany as (h & _ & Hv & ->).
  clear Hd. induction q as [|e q IH]; [done|].
  rewrite filter_cons_True; [by rewrite IH|].
  unfold kept, same_number. rewrite <- Hv.
  destruct (js_strict_neq (priority e) (priority h)); [done|].
  by destruct (value e).
Qed.

Lemma dequeue_keeps_NaN_value_witness :
  dequeue same_number [Item (Fin 1) (Fin 7); Item (Fin 2) NaN]
  = Returns (Some NaN) [Item (Fin 1) (Fin 7); Item (Fin 2) NaN]
  /\ [Item (Fin 1) (Fin 7); Item (Fin 2) NaN]
     = [Item (Fin 1) (Fin 7); Item (Fin 2) NaN].
Proof.
  assert (dequeue same_number [Item (Fin 1) (Fin 7); Item (Fin 2) NaN]
          = Returns (Some NaN) [Item (Fin 1) (Fin 7); Item (Fin 2) NaN]) as Hd
    by (by vm_compute).
  split; [exact Hd|].
  exact (dequeue_keeps_NaN_value _ _ Hd).
Defined.

Lemma dequeue_throws_when_nothing_ranks_witness :
  ([Item NaN "a"%string; Item NegInf "b"%string] <> []
   /\ Forall (fun e => unranked (priority e))
        [Item NaN "a"%string; Item NegInf "b"%string])
  /\ peek [Item NaN "a"%string; Item NegInf "b"%string]
     = (None, [Item NaN "a"%string; Item NegInf "b"%string])
  /\ dequeue String.eqb [Item NaN "a"%string; Item NegInf "b"%string]
     = Throws [].
Proof.
  assert ([Item NaN "a"%string; Item NegInf "b"%string] <> []) as Hne by done.
  assert (Forall (fun e => unranked (priority e))
            [Item NaN "a"%string; Item NegInf "b"%string]) as Hall.
  { apply Forall_cons. split; [by left|].
    apply Forall_cons. split; [by right|]. constructor. }
  split; [exact (conj Hne Hall)|].
  exact (dequeue_throws_when_nothing_ranks String.eqb _ Hne Hall).
Defined.

Lemma unranked_entry_stays_witness :
  (dequeue String.eqb [Item NaN "a"%string; Item (Fin 1) "b"%string]
   = Returns (Some "b"%string) [Item NaN "a"%string]
   /\ Item NaN "a"%string ∈ [Item NaN "a"%string; Item (Fin 1) "b"%string]
   /\ unranked (priority (Item NaN "a"%string)))
  /\ Item NaN "a"%string ∈ [Item NaN "a"%string]
  /\ exists h, h ∈ [Item NaN "a"%string; Item (Fin 1) "b"%string]
               /\ Some "b"%string = Some (value h)
               /\ ~ unranked (priority h).
Proof.
  assert (dequeue String.eqb [Item NaN "a"%string; Item (Fin 1) "b"%string]
          = Returns (Some "b"%string) [Item NaN "a"%string]) as Hd
    by (by vm_compute).
  assert (Item NaN "a"%string ∈ [Item NaN "a"%string; Item (Fin 1) "b"%string])
    as He by (apply elem_of_cons; by left).
  assert (unranked (priority (Item NaN "a"%string))) as Hu by (by left).
  split; [by split_and!|].
  exact (unranked_entry_stays String.eqb _ _ _ _ Hd He Hu).
Defined.
End PriorityQueueProps.

(** ** The job queue *)

Module JobQueueProps.
Import JobQueue JobQueueSpec.

Lemma this_abort_all entries (s : state) : this (abort_all entries s) = this s.
Proof.
  revert s. induction entries as [|[id info] entries IH]; intros s; [done|].
  unfold abort_all in *. simpl. rewrite IH.
  by destruct (timeoutId info), (controller info).
Qed.

Lemma destroy_destroys (s : state) :
  exists s', destroy s = Ok tt s' /\ isDestroyed (this s') = true.
Proof.
  unfold destroy, mbind, M_bind, self. simpl.
  destruct (isDestroyed (this s)) eqn:E; simpl; [by eauto|].
  eexists. split; [reflexivity|]. simpl. by rewrite this_abort_all.
Qed.

Lemma destroyed_inert (rec : call -> M unit) (m : method) (s : state) :
  isDestroyed (this s) = true -> call_method rec m s = Ok (sentinel m) s.
Proof.
  intros E.
  destruct m; simpl;
    unfold add, start, pause, resume, clear, size, active, pending,
      setPriority, abort, onEmpty, onIdle, on, off, once, removeAllListeners,
      destroy, mbind, M_bind, self, mret, M_ret; simpl;
    rewrite ?E; simpl; rewrite ?E; done.
Qed.

(** C5. After [destroy()], every public method and getter returns its
    empty value ([''] for [add], [0], [false], [this]), does not throw and
    leaves the state as it is: nothing enters [jobMap] or the queue, no
    event is emitted, no listener is called. *)
Theorem after_destroy_inert (rec : call -> M unit) (m : method) (s : state) :
  exists s', destroy s = Ok tt s'
             /\ isDestroyed (this s') = true
             /\ call_method rec m s' = Ok (sentinel m) s'.
Proof.
  destruct (destroy_destroys s) as (s' & Hd & E). exists s'.
  split_and!; [done..|]. by apply destroyed_inert.
Qed.

(** C6 at its failing input: a job is added with a signal that is aborted
    already; the loop of [processNextJobs] skips it, and its entry stays in
    [jobMap] while nothing is queued or running. *)
Theorem skipped_job_stays_in_jobMap :
  exists s,
    steps 10 [Client [AbortSignal 0;
                     Call (Add [] None (Some 0%nat) (Some "a"%string)
                             EmptyString)]]
      (new (plain 1)) = Some s
    /\ log s = [Emitted ADDED (Some "a"%string); Emitted NEXT None;
                Emitted EMPTY None; Emitted IDLE None]
    /\ jobMap (this s) !! "a"%string
       = Some {| priority := Fin 0; controller := None; timeoutId := None |}
    /\ queue (this s) = [] /\ running (this s) = 0 /\ flights s = [].
Proof. eexists. split; [by vm_compute|]. by vm_compute. Qed.

(** C4 at its failing input: with [intervalCap: 1], a job that adds a second
    job before its first [await]; both jobs start in the call of [add],
    before any tick of the interval. *)
Theorem cap_passed_by_add_in_job :
  exists s,
    steps 10 [Client [add_job "first" [add_job "second" []]]]
      (new (windowed 10 1 1000)) = Some s
    /\ log s = [Emitted ADDED (Some "first"%string);
                Emitted NEXT (Some "first"%string);
                Emitted ADDED (Some "second"%string);
                Emitted NEXT (Some "second"%string);
                Emitted EMPTY None; Emitted EMPTY None]
    /\ running (this s) = 2 /\ intervalCount (this s) = 2
    /\ intervalCap (this s) = Some 1.
Proof. eexists. split; [by vm_compute|]. by vm_compute. Qed.

(** C7, counterexample: a queue with a listener for [PAUSED] is paused; a
    second [pause()] emits [PAUSED] again and the listener is called again. *)
Lemma second_pause_emits_again :
  exists s1 s2,
    steps 10 [Client [Call (On PAUSED (silent 1)); Call Pause]] (new (plain 1))
    = Some s1
    /\ isPaused (this s1) = true
    /\ log s1 = [Emitted PAUSED None; Called (FnId 1)]
    /\ pause (run 10) s1 = Ok tt s2
    /\ log s2 = [Emitted PAUSED None; Called (FnId 1);
                 Emitted PAUSED None; Called (FnId 1)].
Proof. do 2 eexists. split; [by vm_compute|]. by vm_compute. Qed.

(** C7, amended. On a paused queue, [pause()] does exactly what an
    emission of [PAUSED] does on that queue, and nothing else.  If the
    queue is not destroyed, [pause] itself changes no field of the queue
    and [PAUSED] is emitted again: the event is there once more, and the
    loop of [emit] goes through the listeners of [PAUSED], if there are
    any, from the first one on.  On a destroyed queue, [destroy()] returns
    at once: no state change, no emission. *)
Theorem pause_again_destroy_again (rec : call -> M unit) (s : state) :
  (isPaused (this s) = true -> pause rec s = emit rec PAUSED None s)
  /\ (isPaused (this s) = true -> isDestroyed (this s) = false ->
      pause rec s
      = match eventListeners (this s) !! PAUSED with
        | Some a =>
            rec (EmitFrom a 0%nat)
              (with_log (log s ++ [Emitted PAUSED None]) s)
        | None => Ok tt (with_log (log s ++ [Emitted PAUSED None]) s)
        end)
  /\ (isDestroyed (this s) = true -> destroy s = Ok tt s).
Proof.
  assert (isPaused (this s) = true ->
          with_this (set_isPaused true (this s)) s = s) as Hs.
  { intros E. destruct s as [q ?????????]; destruct q; simpl in *. by subst. }
  split_and!.
  - intros E.
    unfold pause, emit, mbind, M_bind, self, update, modify.
    destruct (isDestroyed (this s)) eqn:Ed; cbn [negb]; [done|].
    rewrite (Hs E), Ed. done.
  - intros E Ed.
    unfold pause, emit, mbind, M_bind, self, update, modify, note, modify.
    rewrite Ed. cbn [negb]. rewrite (Hs E), Ed.
    by destruct (eventListeners (this s) !! PAUSED).
  - intros E. unfold destroy, mbind, M_bind, self. simpl. by rewrite E.
Qed.

(** C7, amended, at a paused queue with a listener and at a destroyed queue. *)
Lemma pause_again_destroy_again_witness :
  (isPaused (this paused_queue) = true
   /\ pause (run 10) paused_queue = emit (run 10) PAUSED None paused_queue)
  /\ ((isPaused (this paused_queue) = true
       /\ isDestroyed (this paused_queue) = false)
      /\ pause (run 10) paused_queue
         = match eventListeners (this paused_queue) !! PAUSED with
           | Some a =>
               run 10 (EmitFrom a 0%nat)
                 (with_log (log paused_queue ++ [Emitted PAUSED None])
                    paused_queue)
           | None =>
               Ok tt
                 (with_log (log paused_queue ++ [Emitted PAUSED None])
                    paused_queue)
           end)
  /\ (isDestroyed (this destroyed_queue) = true
      /\ destroy destroyed_queue = Ok tt destroyed_queue).
Proof.
  assert (isPaused (this paused_queue) = true) as Hp by (by vm_compute).
  assert (isDestroyed (this paused_queue) = false) as Hnd by (by vm_compute).
  assert (isDestroyed (this destroyed_queue) = true) as Hd by (by vm_compute).
  destruct (pause_again_destroy_again (run 10) paused_queue) as (H1 & H2 & _).
  destruct (pause_again_destroy_again (run 10) destroyed_queue) as (_ & _ & H3).
  split_and!; [done|exact (H1 Hp)|done|done|exact (H2 Hp Hnd)|done|exact (H3 Hd)].
Defined.

Lemma log_abort_all entries (s : state) : log (abort_all entries s) = log s.
Proof.
  revert s. induction entries as [|[id info] entries IH]; intros s; [done|].
  unfold abort_all in *. simpl. rewrite IH.
  by destruct (timeoutId info), (controller info).
Qed.

(** *** The rules of [wp] *)

Section Wp.
Context {A : Type}.
Implicit Types (m : M A) (Q : A -> state -> Prop) (E : state -> Prop).

Lemma wp_ret a Q E s : Q a s -> wp (mret a) Q E s.
Proof. done. Qed.

Lemma wp_bind {B} (m : M B) (f : B -> M A) Q E s :
  wp m (fun b s' => wp (f b) Q E s') E s -> wp (m ≫= f) Q E s.
Proof. unfold wp, mbind, M_bind. by destruct (m s). Qed.

Lemma wp_throw Q E s : E s -> wp (@throw A) Q E s.
Proof. done. Qed.

Lemma wp_try_catch m h Q E s :
  wp m Q (fun s' => wp h Q E s') s -> wp (try_catch m h) Q E s.
Proof. unfold wp, try_catch. by destruct (m s). Qed.

Lemma wp_mono m Q Q' E E' s :
  wp m Q E s -> (forall a s', Q a s' -> Q' a s') -> (forall s', E s' -> E' s') ->
  wp m Q' E' s.
Proof. unfold wp. destruct (m s); auto. Qed.
End Wp.

Lemma wp_get Q E s : Q s s -> wp get Q E s.
Proof. done. Qed.
Lemma wp_self Q E s : Q (this s) s -> wp self Q E s.
Proof. done. Qed.
Lemma wp_modify f Q E s : Q tt (f s) -> wp (modify f) Q E s.
Proof. done. Qed.
Lemma wp_update f Q E s : Q tt (with_this (f (this s)) s) -> wp (update f) Q E s.
Proof. done. Qed.
Lemma wp_note e Q E s : Q tt (with_log (log s ++ [e]) s) -> wp (note e) Q E s.
Proof. done. Qed.
Lemma wp_abort_controller c Q E s :
  Q tt (with_controllers (<[c := true]> (controllers s)) s) -> wp (abort_controller c) Q E s.
Proof. done. Qed.
Lemma wp_clearTimeout t Q E s :
  Q tt (with_timers (<[t := None]> (timers s)) s) -> wp (clearTimeout t) Q E s.
Proof. done. Qed.

Lemma wp_protected rec id t body Q E s :
  wp (try_catch body (runJob_catch rec id))
     (fun b s' => if b then Q tt s'
                  else wp (runJob_finally rec id t) (fun _ => Q tt) (Q tt) s')
     (fun s' => wp (runJob_finally rec id t) (fun _ => Q tt) (Q tt) s') s ->
  wp (protected rec id t body) Q E s.
Proof.
  unfold wp, protected. destruct (try_catch _ _ s) as [[] s'|s'|]; try done.
  all: by destruct (runJob_finally _ _ _ s').
Qed.

Ltac sstate :=
  cbn [this arrays controllers signals links timers flights fresh calls log
       queue running isPaused isDestroyed intervalCount intervalId jobMap
       eventListeners config
       with_this with_arrays with_controllers with_signals with_links
       with_timers with_flights with_fresh with_calls with_log
       set_queue set_running set_isPaused set_isDestroyed set_intervalCount
       set_intervalId set_jobMap set_eventListeners] in *.

Ltac wp_step :=
  lazymatch goal with
  | |- wp (mbind _ _) _ _ _ => apply wp_bind
  | |- wp (mret _) _ _ _ => apply wp_ret
  | |- wp self _ _ _ => apply wp_self
  | |- wp get _ _ _ => apply wp_get
  | |- wp (modify _) _ _ _ => apply wp_modify
  | |- wp (update _) _ _ _ => apply wp_update
  | |- wp (note _) _ _ _ => apply wp_note
  | |- wp (abort_controller _) _ _ _ => apply wp_abort_controller
  | |- wp (clearTimeout _) _ _ _ => apply wp_clearTimeout
  | |- wp throw _ _ _ => apply wp_throw
  | |- wp (try_catch _ _) _ _ _ => apply wp_try_catch
  | |- wp (protected _ _ _ _) _ _ _ => apply wp_protected
  | |- wp (if ?b then _ else _) _ _ _ => destruct b eqn:?
  | |- wp (match ?x with _ => _ end) _ _ _ => destruct x eqn:?
  | |- wp _ _ _ (with_this (match ?x with _ => _ end) _) => destruct x eqn:?
  | |- if ?b then _ else _ => destruct b
  end.

Ltac wp_steps := repeat (wp_step; sstate).

Ltac lim :=
  repeat match goal with
         | H : within_limit _ _ |- _ => destruct H as (? & ? & ?)
         | H : _ /\ _ |- _ => destruct H
         end;
  unfold within_limit, concurrency in *; sstate;
  repeat case_match; sstate;
  repeat split; try done; try lia;
  try (apply Forall_app; split; [done|repeat constructor; simpl; try done; try lia]).

Ltac call_with lem :=
  eapply wp_mono;
  [eapply lem; try done; try (by lim) | intros ? ? ? | intros ? ?; try done].


(** *** The concurrency limit *)

Section Limit.
Variable options : JobQueueOptions.
Hypothesis concurrency_nonneg : 0 <= opt_concurrency options.
Variable rec : call -> M unit.
Hypothesis rec_keeps : forall k, keeps (within_limit options) (rec k).

Lemma off_keeps ev l : keeps (within_limit options) (off ev l).
Proof. intros s Hs. unfold off. wp_steps; by lim. Qed.

Lemma call_fn_keeps f : keeps (within_limit options) (call_fn rec f).
Proof. intros s Hs. unfold call_fn. wp_steps. apply rec_keeps. by lim. Qed.

Lemma invoke_keeps l : keeps (within_limit options) (invoke rec l).
Proof.
  intros s Hs. unfold invoke. wp_steps.
  - by apply call_fn_keeps.
  - call_with off_keeps; by apply call_fn_keeps.
Qed.

Lemma emit_keeps ev id : keeps (within_limit options) (emit rec ev id).
Proof.
  intros s Hs. unfold emit. wp_steps; try by lim. apply rec_keeps. by lim.
Qed.

Lemma emit_from_keeps a i : keeps (within_limit options) (emit_from rec a i).
Proof.
  intros s Hs. unfold emit_from. wp_steps; try by lim.
  call_with invoke_keeps; by apply rec_keeps.
Qed.

Lemma processNextJobs_keeps : keeps (within_limit options) (processNextJobs rec).
Proof.
  intros s Hs. unfold processNextJobs. wp_steps; try by lim.
  call_with rec_keeps. wp_steps; try by lim.
  call_with emit_keeps. wp_steps; try by lim. by apply emit_keeps.
Qed.

Lemma runJob_catch_keeps id : keeps (within_limit options) (runJob_catch rec id).
Proof.
  intros s Hs. unfold runJob_catch. wp_steps; try by lim.
  call_with emit_keeps. by wp_steps.
Qed.

Lemma runJob_finally_keeps id t : keeps (within_limit options) (runJob_finally rec id t).
Proof.
  intros s Hs. unfold runJob_finally. wp_steps; try by lim.
  all: apply processNextJobs_keeps; by lim.
Qed.

Lemma runJob_keeps it s :
  room options s -> wp (runJob rec it) (fun _ => within_limit options) (within_limit options) s.
Proof.
  intros [Hs Hr]. unfold runJob. wp_steps; try by lim.
  all: try (call_with emit_keeps; wp_steps; try by lim).
  all: try (call_with rec_keeps; wp_steps; try by lim).
  all: try (call_with runJob_catch_keeps; wp_steps; try done).
  all: try (apply runJob_finally_keeps; by lim).
Qed.

Lemma settle_keeps k b : keeps (within_limit options) (settle rec k b).
Proof.
  intros s Hs. unfold settle, runJob_resumed. wp_steps; try by lim.
  all: try (call_with emit_keeps; wp_steps; try by lim).
  all: try (call_with runJob_catch_keeps; wp_steps; try done).
  all: try (apply runJob_finally_keeps; by lim).
Qed.

Lemma dequeue_item_room : keeps (room options) dequeue_item.
Proof.
  intros s [Hs Hr]. unfold dequeue_item. wp_steps; split; by lim.
Qed.

Lemma process_loop_keeps : keeps (within_limit options) (process_loop rec).
Proof.
  intros s Hs. unfold process_loop. wp_steps; try by lim.
  assert (room options s) as Hroom.
  { split; [done|]. unfold may_start in *. destruct Hs as (Hc & _).
    unfold concurrency in *. rewrite Hc in *.
    repeat match goal with H : _ && _ = true |- _ => apply andb_true_iff in H as [? ?] end.
    lia. }
  call_with dequeue_item_room; [|by destruct H]. destruct H as [Hs' Hr'].
  wp_steps; try by lim.
  - call_with emit_keeps. by apply rec_keeps.
  - call_with runJob_keeps. wp_steps; try by lim.
    all: apply rec_keeps; by lim.
Qed.

Lemma add_keeps job p sg id rnd : keeps (within_limit options) (add rec job p sg id rnd).
Proof.
  intros s Hs. unfold add. wp_steps; try by lim.
  call_with emit_keeps. wp_steps; try by lim.
  call_with processNextJobs_keeps. by wp_steps.
Qed.

Lemma start_keeps : keeps (within_limit options) (start rec).
Proof.
  intros s Hs. unfold start. wp_steps; try by lim. by apply processNextJobs_keeps.
Qed.

Lemma pause_keeps : keeps (within_limit options) (pause rec).
Proof.
  intros s Hs. unfold pause. wp_steps; try by lim. apply emit_keeps. by lim.
Qed.

Lemma resume_keeps : keeps (within_limit options) (resume rec).
Proof.
  intros s Hs. unfold resume. wp_steps; try by lim.
  call_with emit_keeps. by apply processNextJobs_keeps.
Qed.

Lemma clear_keeps : keeps (within_limit options) clear.
Proof. intros s Hs. unfold clear. wp_steps; by lim. Qed.

Lemma size_keeps : keeps (within_limit options) size.
Proof. intros s Hs. unfold size. wp_steps; by lim. Qed.

Lemma pending_keeps : keeps (within_limit options) pending.
Proof. intros s Hs. unfold pending. wp_steps; by lim. Qed.

Lemma active_keeps s :
  within_limit options s -> wp active (fun v s' => within_limit options s' /\ v <= opt_concurrency options)
     (within_limit options) s.
Proof. intros Hs. unfold active. wp_steps. split; [done|]. by lim. Qed.

Lemma setPriority_keeps id p : keeps (within_limit options) (setPriority id p).
Proof. intros s Hs. unfold setPriority. wp_steps; by lim. Qed.

Lemma abort_keeps id : keeps (within_limit options) (abort id).
Proof. intros s Hs. unfold abort. wp_steps; by lim. Qed.

Lemma on_keeps ev l : keeps (within_limit options) (on ev l).
Proof. intros s Hs. unfold on. wp_steps; by lim. Qed.

Lemma once_keeps ev f : keeps (within_limit options) (once ev f).
Proof. intros s Hs. unfold once. wp_steps; try by lim. apply on_keeps. by lim. Qed.

Lemma removeAllListeners_keeps ev : keeps (within_limit options) (removeAllListeners ev).
Proof. intros s Hs. unfold removeAllListeners. wp_steps; by lim. Qed.

Lemma onEmpty_keeps f : keeps (within_limit options) (onEmpty rec f).
Proof.
  intros s Hs. unfold onEmpty. wp_steps. call_with on_keeps.
  wp_steps; try by lim. by apply call_fn_keeps.
Qed.

Lemma onIdle_keeps f : keeps (within_limit options) (onIdle rec f).
Proof.
  intros s Hs. unfold onIdle. wp_steps. call_with on_keeps.
  wp_steps; try by lim. by apply call_fn_keeps.
Qed.

Lemma destroy_keeps : keeps (within_limit options) destroy.
Proof.
  intros s Hs. unfold destroy. wp_steps; try by lim.
  destruct Hs as (? & ? & ?). unfold within_limit. sstate.
  rewrite log_abort_all, this_abort_all. sstate. split_and!; [done|lia|done].
Qed.

Lemma abort_signal_keeps n : keeps (within_limit options) (abort_signal n).
Proof. intros s Hs. unfold abort_signal. wp_steps; by lim. Qed.

Lemma call_method_keeps m s :
  within_limit options s ->
  wp (call_method rec m)
     (fun v s' =>
        within_limit options s'
        /\ (m = Active -> forall z, v = RNumber z -> z <= opt_concurrency options))
     (within_limit options) s.
Proof.
  intros Hs. destruct m; cbn [call_method]; wp_steps.
  - call_with add_keeps. by wp_steps.
  - call_with start_keeps. by wp_steps.
  - call_with pause_keeps. by wp_steps.
  - call_with resume_keeps. by wp_steps.
  - call_with clear_keeps. by wp_steps.
  - call_with size_keeps. by wp_steps.
  - call_with active_keeps. wp_steps. destruct H. split; [done|]. by intros _ ? [= <-].
  - call_with pending_keeps. by wp_steps.
  - call_with setPriority_keeps. by wp_steps.
  - call_with abort_keeps. by wp_steps.
  - call_with onEmpty_keeps. by wp_steps.
  - call_with onIdle_keeps. by wp_steps.
  - call_with on_keeps. by wp_steps.
  - call_with off_keeps. by wp_steps.
  - call_with once_keeps. by wp_steps.
  - call_with removeAllListeners_keeps. by wp_steps.
  - call_with destroy_keeps. by wp_steps.
Qed.

Lemma exec_keeps c : keeps (within_limit options) (exec rec c).
Proof.
  intros s Hs. destruct c; cbn [exec]; wp_steps; try done.
  - call_with call_method_keeps. destruct H as [Hs' Hv].
    wp_steps; try done; try by lim.
    specialize (Hv eq_refl _ eq_refl). by lim.
  - call_with rec_keeps. by wp_steps.
  - by apply abort_signal_keeps.
Qed.

Lemma exec_prog_keeps p : keeps (within_limit options) (exec_prog rec p).
Proof.
  induction p as [|c p IH]; intros s Hs; cbn [exec_prog]; wp_steps; [done|].
  call_with exec_keeps. by apply IH.
Qed.

Lemma dispatch_keeps k : keeps (within_limit options) (dispatch rec k).
Proof.
  destruct k; cbn [dispatch].
  - apply exec_prog_keeps.
  - apply emit_from_keeps.
  - apply process_loop_keeps.
Qed.

Lemma tick_keeps : keeps (within_limit options) (tick rec).
Proof.
  intros s Hs. unfold tick. wp_steps; try by lim.
  apply processNextJobs_keeps. by lim.
Qed.
End Limit.

Lemma timeout_fires_keeps options t : keeps (within_limit options) (timeout_fires t).
Proof. intros s Hs. unfold timeout_fires. wp_steps; by lim. Qed.

Lemma run_keeps options fuel k :
  0 <= opt_concurrency options -> keeps (within_limit options) (run fuel k).
Proof.
  intros Hc. revert k. induction fuel as [|fuel IH]; intros k; [by intros s Hs|].
  cbn [run]. apply dispatch_keeps; done.
Qed.

Lemma step_keeps options fuel a :
  0 <= opt_concurrency options -> keeps (within_limit options) (step fuel a).
Proof.
  intros Hc. destruct a; cbn [step].
  - by apply run_keeps.
  - apply settle_keeps; try done. intros ?. by apply run_keeps.
  - apply tick_keeps; try done. intros ?. by apply run_keeps.
  - apply timeout_fires_keeps.
Qed.

Lemma steps_keep options fuel tr s s' :
  0 <= opt_concurrency options ->
  within_limit options s -> steps fuel tr s = Some s' -> within_limit options s'.
Proof.
  intros Hc. revert s. induction tr as [|a tr IH]; intros s Hs; cbn [steps].
  - by intros [= <-].
  - pose proof (step_keeps options fuel a Hc s Hs) as Hstep. unfold wp in Hstep.
    destruct (step fuel a s); [by apply IH..|done].
Qed.

(** C3. In every state that a queue made with a concurrency limit of at
    least 0 reaches, after any sequence of calls from the code around it,
    settled jobs and timers, with callbacks that call the queue again, the
    count of running jobs is at most the limit; so is every value that the
    [active] getter has returned on the way, inside callbacks too. *)
Theorem running_within_concurrency options fuel tr s :
  0 <= opt_concurrency options ->
  steps fuel tr (new options) = Some s ->
  concurrency (this s) = opt_concurrency options
  /\ running (this s) <= concurrency (this s)
  /\ (forall v, Observed GActive v ∈ log s -> v <= concurrency (this s)).
Proof.
  intros Hc Hsteps.
  assert (within_limit options (new options)) as H0.
  { split_and!; [done|simpl; lia|constructor]. }
  destruct (steps_keep options fuel tr _ s Hc H0 Hsteps) as (Hcfg & Hr & Hl).
  unfold concurrency. rewrite Hcfg. split_and!; [done..|].
  intros v Hv. rewrite Forall_forall in Hl. apply (Hl _ Hv).
Qed.

(** C3 at a queue of limit 2 with three jobs, the first of which reads
    [active] and adds the third. *)
Lemma running_within_concurrency_witness :
  (0 <= opt_concurrency (plain 2)
   /\ steps 10 busy_trace (new (plain 2)) = Some busy_state)
  /\ concurrency (this busy_state) = opt_concurrency (plain 2)
  /\ running (this busy_state) <= concurrency (this busy_state)
  /\ (forall v, Observed GActive v ∈ log busy_state ->
        v <= concurrency (this busy_state)).
Proof.
  assert (0 <= opt_concurrency (plain 2)) as Hc by (simpl; lia).
  assert (steps 10 busy_trace (new (plain 2)) = Some busy_state) as Hs
    by (by vm_compute).
  split; [exact (conj Hc Hs)|].
  exact (running_within_concurrency (plain 2) 10 busy_trace busy_state Hc Hs).
Defined.


(** *** A pending job that is aborted *)

Section Log.
Variable id : string.
Implicit Types (l es : list logEntry) (e : logEntry).

Lemma adds_not_about e : adds id e = true -> about id e = false.
Proof. by destruct e as [[] [?|]| |]. Qed.

Lemma added_app l es : added id (l ++ es) = added id l || added id es.
Proof. apply existsb_app. Qed.

Lemma quiet_app_added l es :
  quiet_until_added id l = true -> added id l = true ->
  quiet_until_added id (l ++ es) = true.
Proof.
  induction l as [|e l IH]; [done|]. cbn [quiet_until_added added existsb app].
  destruct (adds id e); [done|]. destruct (about id e); [done|]. apply IH.
Qed.

Lemma quiet_app_neutral l es :
  quiet_until_added id l = true -> Forall (fun e => about id e = false) es ->
  quiet_until_added id (l ++ es) = true.
Proof.
  intros Hl Hes. induction l as [|e l IH].
  - simpl. induction Hes as [|e es He _ IH]; [done|]. simpl.
    rewrite He. by destruct (adds id e).
  - cbn [quiet_until_added app] in *. destruct (adds id e); [done|].
    destruct (about id e); [done|]. by apply IH.
Qed.

Lemma quiet_spec l l1 e l2 :
  quiet_until_added id l = true -> l = l1 ++ e :: l2 -> about id e = true ->
  exists e', e' ∈ l1 /\ adds id e' = true.
Proof.
  intros Hq -> He. induction l1 as [|x l1 IH]; cbn [quiet_until_added app] in Hq.
  - rewrite He in Hq. destruct (adds id e) eqn:Ha; [|done].
    apply adds_not_about in Ha. congruence.
  - destruct (adds id x) eqn:Ha.
    + exists x. split; [apply elem_of_cons; by left|done].
    + destruct (about id x); [done|]. destruct (IH Hq) as (e' & ? & ?).
      exists e'. split; [apply elem_of_cons; by right|done].
Qed.
End Log.

Section StaysOut.
Variables (base : list logEntry) (id : string).

Lemma stays_weaken b s : stays_out base id true s -> stays_out base id b s.
Proof. intros (l & ? & ? & ?). exists l. destruct b; auto. Qed.

Lemma stays_trans b s s' es :
  stays_out base id b s ->
  log s' = log s ++ es ->
  (b = true \/ Forall (fun e => about id e = false) es) ->
  (b = true \/ added id es = true \/ (absent id s -> absent id s')) ->
  stays_out base id b s'.
Proof.
  intros (l & Hl & Hq & Hb) Hlog H1 H2. exists (l ++ es).
  rewrite Hlog, Hl, app_assoc. split; [done|].
  destruct (added id l) eqn:Ha.
  - split; [by apply quiet_app_added|]. rewrite added_app, Ha.
    destruct b; auto.
  - destruct b; [done|]. destruct Hb as [?|Hb]; [done|].
    destruct H1 as [?|H1]; [done|]. split; [by apply quiet_app_neutral|].
    destruct H2 as [?|[H2|H2]]; [done| |].
    + left. rewrite added_app, H2. apply orb_true_r.
    + right. auto.
Qed.

Lemma stays_same b s s' :
  stays_out base id b s ->
  log s' = log s ->
  (b = true \/ (absent id s -> absent id s')) ->
  stays_out base id b s'.
Proof.
  intros Hs Hlog H2. apply (stays_trans b s s' []); auto.
  - by rewrite app_nil_r.
  - destruct H2; auto.
Qed.

Lemma absent_same s s' :
  queue (this s') = queue (this s) -> flights s' = flights s ->
  absent id s -> absent id s'.
Proof. unfold absent. by intros -> ->. Qed.
End StaysOut.


Lemma flights_abort_all entries (s : state) :
  flights (abort_all entries s) = flights s.
Proof.
  revert s. induction entries as [|[i info] entries IH]; intros s; [done|].
  unfold abort_all in *. simpl. rewrite IH.
  by destruct (timeoutId info), (controller info).
Qed.

Lemma toArray_fst {T} (q : PriorityQueue.t T) : (PriorityQueue.toArray q).1 = q.
Proof.
  unfold PriorityQueue.toArray. simpl. induction q as [|[p v] q IH]; [done|].
  simpl. by rewrite IH.
Qed.

Lemma reprioritize_ids i p arr q0 f0 x :
  x ∈ (reprioritize i p arr (q0, f0)).1 ->
  exists y, (y ∈ arr \/ y ∈ q0)
            /\ o_id (options (PriorityQueue.value y))
               = o_id (options (PriorityQueue.value x)).
Proof.
  revert q0 f0. induction arr as [|[pa va] arr IH]; intros q0 f0.
  - intros Hx. exists x. auto.
  - unfold reprioritize in *. cbn [foldl PriorityQueue.value PriorityQueue.priority].
    destruct (bool_decide _); intros Hx; apply IH in Hx as (y & [Hy|Hy] & Hid).
    all: try (exists y; split; [left; apply elem_of_cons; by right|done]).
    all: unfold PriorityQueue.enqueue, Queue.enqueue in Hy.
    all: apply elem_of_app in Hy as [Hy|Hy]; [exists y; by auto|].
    all: apply list_elem_of_singleton in Hy as ->.
    all: exists (PriorityQueue.Item pa va).
    all: split; [left; apply elem_of_cons; by left|done].
Qed.

Lemma without_sub i arr q0 f0 x :
  x ∈ (without i arr (q0, f0)).1 ->
  (x ∈ arr /\ o_id (options (PriorityQueue.value x)) <> i) \/ x ∈ q0.
Proof.
  revert q0 f0. induction arr as [|[pa va] arr IH]; intros q0 f0.
  - auto.
  - unfold without in *. cbn [foldl PriorityQueue.value PriorityQueue.priority].
    destruct (bool_decide _) eqn:E; intros Hx; apply IH in Hx as [[Hx ?]|Hx].
    all: try (left; split; [apply elem_of_cons; by right|done]).
    + by right.
    + unfold PriorityQueue.enqueue, Queue.enqueue in Hx.
      apply elem_of_app in Hx as [Hx|Hx]; [by right|].
      apply list_elem_of_singleton in Hx as ->. left.
      apply bool_decide_eq_false in E. split; [apply elem_of_cons; by left|done].
Qed.

Ltac same_log :=
  sstate; rewrite ?this_abort_all, ?log_abort_all, ?flights_abort_all; reflexivity.

Ltac stay :=
  match goal with
  | H : stays_out ?base ?id ?b ?s |- stays_out _ _ _ ?s' =>
      first
        [ exact H
        | apply (stays_same base id b s s' H);
          [same_log
          |right; apply absent_same; sstate; repeat case_match; same_log]
        | eapply (stays_trans base id b s s' _ H);
          [same_log
          |right; repeat constructor
          |right; right; apply absent_same; sstate; repeat case_match; same_log] ]
  end.

Ltac side :=
  first
    [ by left
    | by right
    | match goal with
      | H : _ = true \/ _ <> _ |- _ =>
          destruct H as [?|?]; [by left|right]; simpl; try done;
          by apply bool_decide_eq_false
      end ].

Ltac call_stay lem :=
  eapply wp_mono;
  [eapply lem; try done; try (by stay); try side
  | intros ? ? ? | intros ? ?; try done].

Section Aborted.
Variables (base : list logEntry) (id : string).
Variable rec : call -> M unit.
Hypothesis rec_stays : forall b k, keeps (stays_out base id b) (rec k).

Lemma off_stays b ev l : keeps (stays_out base id b) (off ev l).
Proof. intros s Hs. unfold off. wp_steps; by stay. Qed.

Lemma call_fn_stays b f : keeps (stays_out base id b) (call_fn rec f).
Proof. intros s Hs. unfold call_fn. wp_steps. apply rec_stays. by stay. Qed.

Lemma invoke_stays b l : keeps (stays_out base id b) (invoke rec l).
Proof.
  intros s Hs. unfold invoke. wp_steps.
  - by apply call_fn_stays.
  - call_stay off_stays. by apply call_fn_stays.
Qed.

Lemma emit_stays b ev i s :
  stays_out base id b s ->
  b = true \/ about id (Emitted ev i) = false ->
  wp (emit rec ev i) (fun _ => stays_out base id b) (stays_out base id b) s.
Proof.
  intros Hs Hok. unfold emit.
  assert (stays_out base id b (with_log (log s ++ [Emitted ev i]) s)) as Hs'.
  { eapply (stays_trans base id b s _ _ Hs); [same_log| |].
    - destruct Hok; [by left|right]. by repeat constructor.
    - right; right. by apply absent_same. }
  wp_steps; try done. by apply rec_stays.
Qed.

Lemma emit_from_stays b a i : keeps (stays_out base id b) (emit_from rec a i).
Proof.
  intros s Hs. unfold emit_from. wp_steps; try by stay.
  call_stay invoke_stays. by apply rec_stays.
Qed.

Lemma processNextJobs_stays b : keeps (stays_out base id b) (processNextJobs rec).
Proof.
  intros s Hs. unfold processNextJobs. wp_steps; try by stay.
  call_stay rec_stays. wp_steps; try by stay.
  call_stay emit_stays. wp_steps; try by stay.
  apply emit_stays; [done|by right].
Qed.

Lemma runJob_catch_stays b i s :
  stays_out base id b s -> b = true \/ i <> id ->
  wp (runJob_catch rec i) (fun _ => stays_out base id b) (stays_out base id b) s.
Proof.
  intros Hs Hok. unfold runJob_catch. wp_steps; try by stay.
  call_stay emit_stays. by wp_steps.
Qed.

Lemma absent_sub s s' :
  (forall x, x ∈ queue (this s') -> x ∈ queue (this s)) ->
  flights s' = flights s -> absent id s -> absent id s'.
Proof. unfold absent. intros Hq -> [H1 H2]. split; auto. Qed.

Lemma absent_flight s s' i t :
  queue (this s') = queue (this s) ->
  flights s' = flights s ++ [Some {| fl_id := i; fl_timeoutId := t |}] ->
  i <> id -> absent id s -> absent id s'.
Proof.
  unfold absent. intros -> -> Hi [H1 H2]. split; [done|]. intros fl Hfl.
  apply elem_of_app in Hfl as [?|Hfl]; [auto|].
  apply list_elem_of_singleton in Hfl. by injection Hfl as ->.
Qed.

Lemma absent_landed s s' k :
  queue (this s') = queue (this s) ->
  flights s' = <[k := None]> (flights s) ->
  absent id s -> absent id s'.
Proof.
  unfold absent. intros -> -> [H1 H2]. split; [done|]. intros fl Hfl.
  apply list_elem_of_lookup in Hfl as [j Hj].
  destruct (decide (k = j)) as [->|Hne].
  - destruct (decide (j < length (flights s))%nat).
    + by rewrite list_lookup_insert_eq in Hj.
    + rewrite list_insert_ge in Hj by lia. apply H2.
      apply list_elem_of_lookup. eauto.
  - rewrite list_lookup_insert_ne in Hj by done. apply H2.
    apply list_elem_of_lookup. eauto.
Qed.

Lemma runJob_finally_stays b i t :
  keeps (stays_out base id b) (runJob_finally rec i t).
Proof.
  intros s Hs. unfold runJob_finally. wp_steps; try by stay.
  all: apply processNextJobs_stays; by stay.
Qed.

Lemma runJob_stays b it s :
  stays_out base id b s -> b = true \/ o_id (options it) <> id ->
  wp (runJob rec it) (fun _ => stays_out base id b) (stays_out base id b) s.
Proof.
  intros Hs Hok. unfold runJob. wp_steps; try by stay.
  all: try (call_stay emit_stays; wp_steps; try by stay).
  all: try (call_stay rec_stays; wp_steps).
  all: try (call_stay runJob_catch_stays; wp_steps; try done).
  all: try (apply runJob_finally_stays; by stay).
  all: match goal with
       | H : stays_out _ _ _ ?s0 |- stays_out _ _ _ ?s1 =>
           apply (stays_same base id b s0 s1 H); [same_log|];
           destruct Hok as [?|Hne]; [by left|right];
           eapply absent_flight; [sstate; reflexivity..|done]
       end.
Qed.

Lemma settled_stays b fl fulfilled s :
  stays_out base id b s -> b = true \/ fl_id fl <> id ->
  wp (protected rec (fl_id fl) (fl_timeoutId fl)
        (runJob_resumed rec (fl_id fl) fulfilled))
     (fun _ => stays_out base id b) (stays_out base id b) s.
Proof.
  intros Hs Hok. unfold runJob_resumed. wp_steps; try by stay.
  all: try (call_stay emit_stays; wp_steps; try by stay).
  all: try (call_stay runJob_catch_stays; wp_steps; try done).
  all: try (apply runJob_finally_stays; by stay).
Qed.

Lemma settle_stays b k fulfilled : keeps (stays_out base id b) (settle rec k fulfilled).
Proof.
  intros s Hs. unfold settle. apply wp_bind, wp_get.
  destruct (flights s !! k) as [[fl|]|] eqn:Hk; try by apply wp_ret.
  apply wp_bind, wp_modify.
  assert (stays_out base id b
            (with_flights (<[k:=None]> (flights s)) s)) as Hs'.
  { apply (stays_same base id b s _ Hs); [same_log|]. right.
    eapply absent_landed; sstate; reflexivity. }
  destruct (decide (fl_id fl = id)) as [Heq|Hne]; [|apply settled_stays; auto].
  destruct b; [apply settled_stays; auto|].
  destruct Hs as (l & Hl & Hq & [Ha|Hab]).
  - eapply wp_mono; [apply (settled_stays true)| |]; auto using stays_weaken.
    exists l. by sstate.
  - destruct Hab as [_ Hfl]. exfalso. apply (Hfl fl); [|done].
    apply list_elem_of_lookup. eauto.
Qed.

Lemma dequeue_item_stays b s :
  stays_out base id b s ->
  wp dequeue_item
     (fun r s' =>
        stays_out base id b s'
        /\ forall it, r = Some it ->
             stays_out base id true s' \/ o_id (options it) <> id)
     (stays_out base id b) s.
Proof.
  intros Hs. unfold dequeue_item. wp_steps.
  all: pose proof (PriorityQueueProps.dequeue_sub same_item (queue (this s))) as Hsub.
  all: match goal with H : PriorityQueue.dequeue _ _ = _ |- _ =>
         rewrite H in Hsub end.
  - destruct Hsub as [Hq Hv].
    assert (stays_out base id b (with_this (set_queue q (this s)) s)) as Hs'.
    { apply (stays_same base id b s _ Hs); [same_log|]. right.
      apply absent_sub; by sstate. }
    split; [done|]. intros it ->. destruct (Hv it eq_refl) as (x & Hx & <-).
    destruct b; [by left|]. destruct Hs as (l & Hl & Hq' & [Ha|Hab]).
    + left. exists l. by sstate.
    + right. by apply Hab.
  - subst. apply (stays_same base id b s _ Hs); [same_log|]. right.
    apply absent_sub; sstate; [|done]. intros x Hx. by apply elem_of_nil in Hx.
Qed.

Lemma process_loop_stays b : keeps (stays_out base id b) (process_loop rec).
Proof.
  intros s Hs. unfold process_loop. apply wp_bind, wp_self.
  destruct (may_start (this s)); [|by apply wp_ret].
  apply wp_bind. call_stay dequeue_item_stays. destruct H as [Hs' Hit].
  destruct a as [it|]; [|by apply wp_ret].
  match goal with
  | |- wp ?m _ _ _ =>
      assert (forall b' s0, stays_out base id b' s0 ->
                b' = true \/ o_id (options it) <> id ->
                wp m (fun _ => stays_out base id b') (stays_out base id b') s0)
        as Hrest
  end.
  { intros b' s0 Hs0 Hok. wp_steps; try by stay.
    - call_stay emit_stays. by apply rec_stays.
    - call_stay runJob_stays. wp_steps; try by stay.
      all: apply rec_stays; by stay. }
  destruct (Hit _ eq_refl) as [Ht|Hne].
  - eapply wp_mono; [apply (Hrest true); [done|by left]|..].
    + intros ? ? ?. by apply stays_weaken.
    + intros ? ?. by apply stays_weaken.
  - apply Hrest; [done|by right].
Qed.

Lemma added_stays b s s' it p i :
  stays_out base id b s ->
  log s' = log s ++ [Emitted ADDED (Some i)] ->
  queue (this s') = PriorityQueue.enqueue it p (queue (this s)) ->
  o_id (options it) = i ->
  flights s' = flights s ->
  stays_out base id b s'.
Proof.
  intros Hs Hlog Hq <- Hfl. eapply (stays_trans base id b s s' _ Hs); [done|..].
  - right. by repeat constructor.
  - right. destruct (decide (o_id (options it) = id)) as [Heq|Hne].
    + left. simpl. by rewrite bool_decide_eq_true_2.
    + right. unfold absent. rewrite Hq, Hfl. intros [H1 H2]. split; [|done].
      intros x Hx. unfold PriorityQueue.enqueue, Queue.enqueue in Hx.
      apply elem_of_app in Hx as [Hx|Hx]; [auto|].
      by apply list_elem_of_singleton in Hx as ->.
Qed.

Lemma add_stays b job p sg i rnd : keeps (stays_out base id b) (add rec job p sg i rnd).
Proof.
  intros s Hs. unfold add, emit. wp_steps; try (by stay); try congruence.
  all: try match goal with
           | |- wp _ _ _ ?s1 =>
               assert (stays_out base id b s1) as Hs1
                 by (eapply (added_stays b s); [done|sstate; reflexivity..])
           end.
  - call_stay rec_stays. wp_steps; try by stay.
    call_stay processNextJobs_stays. by wp_steps.
  - call_stay processNextJobs_stays. by wp_steps.
  - eapply (added_stays b s); [done|sstate; reflexivity..].
Qed.

Lemma start_stays b : keeps (stays_out base id b) (start rec).
Proof.
  intros s Hs. unfold start. wp_steps; try by stay.
  by apply processNextJobs_stays.
Qed.

Lemma pause_stays b : keeps (stays_out base id b) (pause rec).
Proof.
  intros s Hs. unfold pause. wp_steps; try by stay.
  apply emit_stays; [by stay|by right].
Qed.

Lemma resume_stays b : keeps (stays_out base id b) (resume rec).
Proof.
  intros s Hs. unfold resume. wp_steps; try by stay.
  call_stay emit_stays. by apply processNextJobs_stays.
Qed.

Lemma absent_emptied s s' :
  queue (this s') = [] -> flights s' = flights s -> absent id s -> absent id s'.
Proof.
  unfold absent. intros -> -> [_ ?]. split; [|done].
  intros x Hx. by apply elem_of_nil in Hx.
Qed.

Lemma clear_stays b : keeps (stays_out base id b) clear.
Proof.
  intros s Hs. unfold clear. wp_steps; try by stay.
  apply (stays_same base id b s _ Hs); [same_log|]. right.
  apply absent_emptied; by sstate.
Qed.

Lemma size_stays b : keeps (stays_out base id b) size.
Proof. intros s Hs. unfold size. by wp_steps. Qed.

Lemma active_stays b : keeps (stays_out base id b) active.
Proof. intros s Hs. unfold active. by wp_steps. Qed.

Lemma pending_stays b : keeps (stays_out base id b) pending.
Proof. intros s Hs. unfold pending. by wp_steps. Qed.

Lemma requeued_stays b s s' q' :
  stays_out base id b s ->
  (forall x, x ∈ q' -> exists y, y ∈ queue (this s)
     /\ o_id (options (PriorityQueue.value y))
        = o_id (options (PriorityQueue.value x))) ->
  log s' = log s -> queue (this s') = q' -> flights s' = flights s ->
  stays_out base id b s'.
Proof.
  intros Hs Hq Hlog Hq' Hfl. apply (stays_same base id b s s' Hs Hlog). right.
  unfold absent. rewrite Hq', Hfl. intros [H1 H2]. split; [|done].
  intros x Hx. destruct (Hq x Hx) as (y & Hy & <-). by apply H1.
Qed.

Lemma setPriority_stays b i p : keeps (stays_out base id b) (setPriority i p).
Proof.
  intros s Hs. unfold setPriority. apply wp_bind, wp_self.
  destruct (isDestroyed (this s)); [by apply wp_ret|].
  destruct (jobMap (this s) !! i) as [info|]; [|by apply wp_ret].
  destruct (controller info); [wp_steps; by stay|].
  destruct (PriorityQueue.toArray (queue (this s))) as [arr restored] eqn:Harr.
  destruct (reprioritize i p arr (PriorityQueue.clear restored, false))
    as [queue' found] eqn:Hre.
  assert (forall x, x ∈ queue' -> exists y, y ∈ queue (this s)
            /\ o_id (options (PriorityQueue.value y))
               = o_id (options (PriorityQueue.value x))) as Hq.
  { intros x Hx. pose proof (toArray_fst (queue (this s))) as Hfst.
    rewrite Harr in Hfst. simpl in Hfst. subst arr.
    pose proof (reprioritize_ids i p (queue (this s))
                  (PriorityQueue.clear restored) false x) as Hids.
    rewrite Hre in Hids. destruct (Hids Hx) as (y & [Hy|Hy] & Hid); [by eauto|].
    by apply elem_of_nil in Hy. }
  wp_steps; eapply (requeued_stays b s _ queue' Hs Hq); same_log.
Qed.

Lemma abort_stays b i : keeps (stays_out base id b) (abort i).
Proof.
  intros s Hs. unfold abort. apply wp_bind, wp_self.
  destruct (isDestroyed (this s)); [by apply wp_ret|].
  destruct (jobMap (this s) !! i) as [info|]; [|by apply wp_ret].
  destruct (controller info); [wp_steps; by stay|].
  destruct (PriorityQueue.toArray (queue (this s))) as [arr restored] eqn:Harr.
  destruct (without i arr (PriorityQueue.clear restored, false))
    as [queue' found] eqn:Hre.
  assert (forall x, x ∈ queue' -> exists y, y ∈ queue (this s)
            /\ o_id (options (PriorityQueue.value y))
               = o_id (options (PriorityQueue.value x))) as Hq.
  { intros x Hx. pose proof (toArray_fst (queue (this s))) as Hfst.
    rewrite Harr in Hfst. simpl in Hfst. subst arr.
    pose proof (without_sub i (queue (this s))
                  (PriorityQueue.clear restored) false x) as Hsub.
    rewrite Hre in Hsub. destruct (Hsub Hx) as [[Hy _]|Hy]; [by eauto|].
    by apply elem_of_nil in Hy. }
  wp_steps; eapply (requeued_stays b s _ queue' Hs Hq); same_log.
Qed.

Lemma on_stays b ev l : keeps (stays_out base id b) (on ev l).
Proof. intros s Hs. unfold on. wp_steps; by stay. Qed.

Lemma once_stays b ev f : keeps (stays_out base id b) (once ev f).
Proof.
  intros s Hs. unfold once. wp_steps; try by stay. apply on_stays. by stay.
Qed.

Lemma removeAllListeners_stays b ev :
  keeps (stays_out base id b) (removeAllListeners ev).
Proof. intros s Hs. unfold removeAllListeners. wp_steps; by stay. Qed.

Lemma onEmpty_stays b f : keeps (stays_out base id b) (onEmpty rec f).
Proof.
  intros s Hs. unfold onEmpty. wp_steps. call_stay on_stays.
  wp_steps; try by stay. by apply call_fn_stays.
Qed.

Lemma onIdle_stays b f : keeps (stays_out base id b) (onIdle rec f).
Proof.
  intros s Hs. unfold onIdle. wp_steps. call_stay on_stays.
  wp_steps; try by stay. by apply call_fn_stays.
Qed.

Lemma destroy_stays b : keeps (stays_out base id b) destroy.
Proof.
  intros s Hs. unfold destroy. wp_steps; try by stay.
  apply (stays_same base id b s _ Hs); [same_log|]. right.
  apply absent_emptied; same_log.
Qed.

Lemma abort_signal_stays b n : keeps (stays_out base id b) (abort_signal n).
Proof. intros s Hs. unfold abort_signal. wp_steps; by stay. Qed.

Lemma call_method_stays b m : keeps (stays_out base id b) (call_method rec m).
Proof.
  intros s Hs. destruct m; cbn [call_method]; wp_steps.
  - call_stay add_stays. by wp_steps.
  - call_stay start_stays. by wp_steps.
  - call_stay pause_stays. by wp_steps.
  - call_stay resume_stays. by wp_steps.
  - call_stay clear_stays. by wp_steps.
  - call_stay size_stays. by wp_steps.
  - call_stay active_stays. by wp_steps.
  - call_stay pending_stays. by wp_steps.
  - call_stay setPriority_stays. by wp_steps.
  - call_stay abort_stays. by wp_steps.
  - call_stay onEmpty_stays. by wp_steps.
  - call_stay onIdle_stays. by wp_steps.
  - call_stay on_stays. by wp_steps.
  - call_stay off_stays. by wp_steps.
  - call_stay once_stays. by wp_steps.
  - call_stay removeAllListeners_stays. by wp_steps.
  - call_stay destroy_stays. by wp_steps.
Qed.

Lemma exec_stays b c : keeps (stays_out base id b) (exec rec c).
Proof.
  intros s Hs. destruct c; cbn [exec]; wp_steps; try done.
  - call_stay call_method_stays. wp_steps; try done; by stay.
  - call_stay rec_stays. by wp_steps.
  - by apply abort_signal_stays.
Qed.

Lemma exec_prog_stays b p : keeps (stays_out base id b) (exec_prog rec p).
Proof.
  induction p as [|c p IH]; intros s Hs; cbn [exec_prog]; wp_steps; [done|].
  call_stay exec_stays. by apply IH.
Qed.

Lemma dispatch_stays b k : keeps (stays_out base id b) (dispatch rec k).
Proof.
  destruct k; cbn [dispatch].
  - apply exec_prog_stays.
  - apply emit_from_stays.
  - apply process_loop_stays.
Qed.

Lemma tick_stays b : keeps (stays_out base id b) (tick rec).
Proof.
  intros s Hs. unfold tick. wp_steps; try by stay.
  apply processNextJobs_stays. by stay.
Qed.
End Aborted.

Lemma timeout_fires_stays base id b t :
  keeps (stays_out base id b) (timeout_fires t).
Proof. intros s Hs. unfold timeout_fires. wp_steps; by stay. Qed.

Lemma run_stays base id fuel b k : keeps (stays_out base id b) (run fuel k).
Proof.
  revert b k. induction fuel as [|fuel IH]; intros b k; [by intros s Hs|].
  cbn [run]. by apply dispatch_stays.
Qed.

Lemma step_stays base id fuel b a : keeps (stays_out base id b) (step fuel a).
Proof.
  destruct a; cbn [step].
  - apply run_stays.
  - apply settle_stays. intros ? ?. apply run_stays.
  - apply tick_stays. intros ? ?. apply run_stays.
  - apply timeout_fires_stays.
Qed.

Lemma steps_stay base id fuel b tr s s' :
  stays_out base id b s -> steps fuel tr s = Some s' -> stays_out base id b s'.
Proof.
  revert s. induction tr as [|a tr IH]; intros s Hs; cbn [steps].
  - by intros [= <-].
  - pose proof (step_stays base id fuel b a s Hs) as Hstep. unfold wp in Hstep.
    destruct (step fuel a s); [by apply IH..|done].
Qed.

(** C8. A job [id] is pending: it has an entry without controller in
    [jobMap] and no running job has its id.  When [abort(id)] returns [true],
    then whatever happens next, every [NEXT], [COMPLETED] or [ERROR] event
    with that id in the log after the abort comes after an [ADDED] event
    with that id, after the abort too: the aborted job does not start and
    none of the three events is emitted for it; only a job added later under
    the same id can run. *)
Theorem aborted_pending_stays_out (s s1 s2 : state) (id : string)
    (fuel : nat) (tr : list action) :
  (exists info, jobMap (this s) !! id = Some info /\ controller info = None) ->
  (forall fl, Some fl ∈ flights s -> fl_id fl <> id) ->
  abort id s = Ok true s1 ->
  steps fuel tr s1 = Some s2 ->
  exists l, log s2 = log s ++ l
    /\ forall l1 e l2, l = l1 ++ e :: l2 -> about id e = true ->
         exists e', e' ∈ l1 /\ adds id e' = true.
Proof.
  intros (info & Hinfo & Hctl) Hfl Habort Hsteps.
  assert (stays_out (log s) id false s1) as H1.
  { unfold abort, mbind, M_bind, self in Habort.
    destruct (isDestroyed (this s)); [done|]. rewrite Hinfo, Hctl in Habort.
    destruct (PriorityQueue.toArray (queue (this s))) as [arr restored] eqn:Harr.
    destruct (without id arr (PriorityQueue.clear restored, false))
      as [queue' found] eqn:Hre.
    assert (forall x, x ∈ queue' ->
              o_id (options (PriorityQueue.value x)) <> id) as Hq.
    { intros x Hx.
      pose proof (without_sub id arr (PriorityQueue.clear restored) false x)
        as Hsub.
      rewrite Hre in Hsub. destruct (Hsub Hx) as [[_ ?]|Hy]; [done|].
      by apply elem_of_nil in Hy. }
    exists []. rewrite app_nil_r. unfold update, modify, mret, M_ret in Habort.
    destruct found; simpl in Habort; [|discriminate]. injection Habort as <-.
    sstate. split; [done|]. split; [done|]. right. split; by sstate. }
  destruct (steps_stay _ _ _ _ _ _ _ H1 Hsteps) as (l & Hl & Hq & _).
  exists l. split; [done|]. intros l1 e l2 Heq He. by eapply quiet_spec.
Qed.

(** C8 at a queue with job [a] running and job [b] pending: [b] is aborted,
    then [a] ends and a job [c] runs. *)
Lemma aborted_pending_stays_out_witness :
  ((exists info, jobMap (this one_pending) !! "b"%string = Some info
                 /\ controller info = None)
   /\ (forall fl, Some fl ∈ flights one_pending -> fl_id fl <> "b"%string)
   /\ abort "b" one_pending = Ok true b_aborted
   /\ steps 10 after_abort b_aborted = Some b_never_ran)
  /\ exists l, log b_never_ran = log one_pending ++ l
       /\ forall l1 e l2, l = l1 ++ e :: l2 -> about "b" e = true ->
            exists e', e' ∈ l1 /\ adds "b" e' = true.
Proof.
  assert (exists info, jobMap (this one_pending) !! "b"%string = Some info
                       /\ controller info = None) as H1.
  { eexists. split; by vm_compute. }
  assert (forall fl, Some fl ∈ flights one_pending -> fl_id fl <> "b"%string)
    as H2.
  { intros fl Hfl. vm_compute in Hfl. apply list_elem_of_singleton in Hfl.
    by injection Hfl as ->. }
  assert (abort "b" one_pending = Ok true b_aborted) as H3 by (by vm_compute).
  assert (steps 10 after_abort b_aborted = Some b_never_ran) as H4
    by (by vm_compute).
  split; [exact (conj H1 (conj H2 (conj H3 H4)))|].
  exact (aborted_pending_stays_out one_pending b_aborted b_never_ran "b" 10
           after_abort H1 H2 H3 H4).
Defined.

(** *** Emission over the live listener array *)

Lemma seen_nil s : seen [] s = s.
Proof.
  unfold seen, called, with_calls, with_log. destruct s. simpl. f_equal; [lia|]. by rewrite app_nil_r.
Qed.

Lemma seen_cons l ls s :
  seen ls (with_calls (S (calls s)) (with_log (log s ++ [Called (listener_id l)]) s))
  = seen (l :: ls) s.
Proof.
  unfold seen, called, with_calls, with_log. destruct s. simpl. f_equal; [lia|].
  by rewrite <- app_assoc.
Qed.

Lemma call_fn_inert f n s :
  (forall k, fn_body f k = []) -> (1 <= n)%nat ->
  call_fn (run n) f s
  = Ok tt (with_calls (S (calls s))
             (with_log (log s ++ [Called (FnId (fn_name f))]) s)).
Proof.
  intros Hf Hn. destruct n as [|n]; [lia|].
  unfold call_fn, mbind, M_bind, get, note, modify. cbn. by rewrite Hf.
Qed.

Lemma emit_from_inert mid : forall fuel s a i before after,
  arrays s !! a = Some (before ++ mid ++ after) ->
  length before = i -> Forall inert mid -> (1 <= fuel)%nat ->
  run (length mid + fuel) (EmitFrom a i) s
  = run fuel (EmitFrom a (i + length mid)) (seen mid s).
Proof.
  induction mid as [|l mid IH]; intros fuel s a i before after Harr Hi Hmid Hfuel.
  - simpl. by rewrite seen_nil, Nat.add_0_r.
  - apply Forall_cons in Hmid as [(f & -> & Hf) Hmid].
    cbn [length Nat.add run dispatch]. unfold emit_from.
    unfold mbind at 1. unfold M_bind at 1. unfold get at 1.
    rewrite Harr. cbn [mbind option_bind].
    rewrite lookup_app_r by lia. replace (i - length before)%nat with 0%nat by lia.
    change (((Plain f :: mid) ++ after) !! 0%nat) with (Some (Plain f)).
    cbn [invoke]. unfold mbind, M_bind.
    rewrite call_fn_inert by (done || lia).
    rewrite (IH fuel _ a (S i) (before ++ [Plain f]) after); try done.
    + rewrite (seen_cons (Plain f)). f_equal. f_equal. lia.
    + cbn. by rewrite <- app_assoc.
    + rewrite length_app. simpl. lia.
Qed.

Lemma emit_from_end fuel s a i ls :
  arrays s !! a = Some ls -> (length ls <= i)%nat -> (1 <= fuel)%nat ->
  run fuel (EmitFrom a i) s = Ok tt s.
Proof.
  intros Harr Hi Hfuel. destruct fuel as [|fuel]; [lia|].
  cbn [run dispatch]. unfold emit_from, mbind, M_bind, get. rewrite Harr.
  cbn [option_bind mbind]. by rewrite lookup_ge_None_2 by lia.
Qed.

Lemma arrays_seen ls s : arrays (seen ls s) = arrays s.
Proof. done. Qed.


Lemma log_seen ls s : log (seen ls s) = log s ++ called ls.
Proof. done. Qed.

Lemma splice_first_last (w : listener) (ls : list listener) :
  Forall (fun x => listener_id x <> listener_id w) ls ->
  splice_first w (ls ++ [w]) = ls.
Proof.
  intros Hls. unfold splice_first.
  rewrite list_find_app_r.
  - simpl. unfold same_listener. rewrite decide_True by (by apply bool_decide_pack).
    simpl. rewrite <- (app_nil_r ls) at 3. apply delete_middle.
  - apply list_find_None. eapply Forall_impl; [done|]. intros x Hx.
    unfold same_listener. by intros ?%bool_decide_unpack.
Qed.

Lemma inert_plain ls w : Forall inert ls -> Forall (fun x => listener_id x <> OnceId w) ls.
Proof. intros Hls. eapply Forall_impl; [done|]. by intros x (f & -> & _). Qed.

Lemma on_existing ev l s a :
  isDestroyed (this s) = false -> eventListeners (this s) !! ev = Some a ->
  on ev l s
  = Ok tt (with_arrays (alter (fun ls => ls ++ [l]) a (arrays s)) s).
Proof.
  intros Hd Hev. unfold on, mbind, M_bind, self, mret, M_ret, modify.
  by rewrite Hd, Hev.
Qed.

Lemma once_existing ev g s a :
  isDestroyed (this s) = false -> eventListeners (this s) !! ev = Some a ->
  once ev g s
  = Ok tt (with_arrays
             (alter (fun ls => ls ++ [OnceListener (fresh s) ev g]) a (arrays s))
             (with_fresh (S (fresh s)) s)).
Proof.
  intros Hd Hev. unfold once, mbind, M_bind, self, get, modify. rewrite Hd.
  by rewrite (on_existing ev _ _ a).
Qed.

Lemma off_existing ev l s a :
  isDestroyed (this s) = false -> eventListeners (this s) !! ev = Some a ->
  off ev l s = Ok tt (with_arrays (alter (splice_first l) a (arrays s)) s).
Proof.
  intros Hd Hev. unfold off, mbind, M_bind, self, modify. by rewrite Hd, Hev.
Qed.

Lemma emit_listeners_unchanged (fuel : nat) (s : state)
    (ev : JobQueueEvent) (i : option string) (a : nat)
    (pre post : list listener) :
  isDestroyed (this s) = false ->
  eventListeners (this s) !! ev = Some a ->
  Forall inert pre -> Forall inert post ->
  (length pre + length post + 3 <= fuel)%nat ->
  arrays s !! a = Some (pre ++ post) ->
  exists s', emit (run fuel) ev i s = Ok tt s'
    /\ log s' = log s ++ Emitted ev i :: called (pre ++ post)
    /\ arrays s' !! a = Some (pre ++ post).
Proof.
  intros Hd Hev Hpre Hpost Hfuel.
  assert (forall k, emit k ev i s
          = k (EmitFrom a 0%nat) (with_log (log s ++ [Emitted ev i]) s)) as Hemit.
  { intros k. unfold emit, mbind, M_bind, self, note, modify. by rewrite Hd, Hev. }
  rewrite Hemit. set (s0 := with_log (log s ++ [Emitted ev i]) s).
  intros Harr.
  replace fuel with (length (pre ++ post) + (fuel - length (pre ++ post)))%nat
    by (rewrite length_app; lia).
  rewrite (emit_from_inert (pre ++ post) _ s0 a 0%nat [] []);
    [|by rewrite app_nil_r|done|by apply Forall_app|rewrite length_app; lia].
  rewrite (emit_from_end _ _ a _ (pre ++ post));
    [|done|simpl; lia|rewrite length_app; lia].
  eexists. split; [done|]. rewrite log_seen, arrays_seen. subst s0. simpl.
  split; [|done]. by rewrite <- app_assoc.
Qed.

Lemma emit_on_added (fuel : nat) (s : state)
    (ev : JobQueueEvent) (i : option string) (a : nat)
    (pre post : list listener) (f g : fn) :
  isDestroyed (this s) = false ->
  eventListeners (this s) !! ev = Some a ->
  Forall inert pre -> Forall inert post -> inert (Plain g) ->
  (length pre + length post + 3 <= fuel)%nat ->
  arrays s !! a = Some (pre ++ Plain f :: post) ->
  (forall n, fn_body f n = [Call (On ev g)]) ->
  exists s', emit (run fuel) ev i s = Ok tt s'
    /\ log s' = log s ++ Emitted ev i
                   :: called (pre ++ Plain f :: post ++ [Plain g])
    /\ arrays s' !! a = Some (pre ++ Plain f :: post ++ [Plain g]).
Proof.
  intros Hd Hev Hpre Hpost Hg Hfuel.
  assert (forall k, emit k ev i s
          = k (EmitFrom a 0%nat) (with_log (log s ++ [Emitted ev i]) s)) as Hemit.
  { intros k. unfold emit, mbind, M_bind, self, note, modify. by rewrite Hd, Hev. }
  rewrite Hemit. set (s0 := with_log (log s ++ [Emitted ev i]) s).
  intros Harr Hf.
  replace fuel with (length pre + (fuel - length pre))%nat by lia.
  rewrite (emit_from_inert pre _ s0 a 0%nat [] (Plain f :: post));
    [|done|done|done|lia].
  set (s1 := seen pre s0).
  destruct (fuel - length pre)%nat as [|fuel1] eqn:Hf1; [lia|].
  cbn [run dispatch Nat.add]. unfold emit_from.
  unfold mbind at 1. unfold M_bind at 1. unfold get at 1.
  replace (arrays s1 !! a) with (Some (pre ++ Plain f :: post)) by done.
  cbn [mbind option_bind]. rewrite list_lookup_middle by done.
  cbn [invoke]. unfold mbind, M_bind.
  destruct fuel1 as [|fuel2] eqn:Hf2; [lia|].
  unfold call_fn, mbind, M_bind, get, note, modify. cbn [run dispatch].
  rewrite Hf. cbn [exec_prog exec call_method]. unfold on at 1.
  unfold mbind, M_bind, self, mret, M_ret, modify. cbn [this with_calls with_log].
  replace (isDestroyed (this s1)) with false by done.
  replace (eventListeners (this s1) !! ev) with (Some a) by done.
  set (s3 := with_arrays _ _).
  assert (arrays s3 !! a = Some ((pre ++ [Plain f]) ++ post ++ [Plain g])) as Harr3.
  { subst s3. cbn [arrays with_arrays with_calls with_log].
    rewrite list_lookup_alter. replace (arrays s1 !! a) with (Some (pre ++ Plain f :: post)) by done.
    rewrite decide_True by done. simpl. by rewrite <- !app_assoc. }
  change (emit_from (run fuel2) a (S (length pre)) s3)
    with (run (S fuel2) (EmitFrom a (S (length pre))) s3).
  replace (S fuel2) with (length post + (S fuel2 - length post))%nat by lia.
  rewrite (emit_from_inert post _ s3 a (S (length pre)) (pre ++ [Plain f]) [Plain g]);
    [|done|rewrite length_app; simpl; lia|done|lia].
  replace (S fuel2 - length post)%nat with (length [Plain g] + (fuel2 - length post))%nat
    by (simpl; lia).
  rewrite (emit_from_inert [Plain g] _ _ a _ ((pre ++ [Plain f]) ++ post) []);
    [|by rewrite arrays_seen, Harr3, app_nil_r, <- !app_assoc
     |rewrite !length_app; simpl; lia|by constructor|lia].
  rewrite (emit_from_end _ _ a _ ((pre ++ [Plain f]) ++ post ++ [Plain g]));
    [|by rewrite !arrays_seen|rewrite !length_app; simpl; lia|lia].
  eexists. split; [done|]. rewrite !log_seen, !arrays_seen. split.
  + subst s3 s1 s0. cbn [log with_arrays with_calls with_log].
    rewrite log_seen. cbn [log with_log]. unfold called.
    rewrite !fmap_app. simpl. rewrite <- !app_assoc. simpl.
    do 4 f_equal. exact (eq_sym (fmap_app _ post [Plain g])).
  + rewrite Harr3. by rewrite <- !app_assoc.
Qed.

Lemma emit_once_added (fuel : nat) (s : state)
    (ev : JobQueueEvent) (i : option string) (a : nat)
    (pre post : list listener) (f g : fn) :
  isDestroyed (this s) = false ->
  eventListeners (this s) !! ev = Some a ->
  Forall inert pre -> Forall inert post -> inert (Plain g) ->
  (length pre + length post + 3 <= fuel)%nat ->
  arrays s !! a = Some (pre ++ Plain f :: post) ->
  (forall n, fn_body f n = [Call (Once ev g)]) ->
  exists s', emit (run fuel) ev i s = Ok tt s'
    /\ log s' = log s ++ Emitted ev i
                   :: called (pre ++ Plain f :: post)
                   ++ [Called (OnceId (fresh s)); Called (FnId (fn_name g))]
    /\ arrays s' !! a = Some (pre ++ Plain f :: post).
Proof.
  intros Hd Hev Hpre Hpost (g' & [= <-] & Hg) Hfuel Harr Hf.
  assert (forall k, emit k ev i s
          = k (EmitFrom a 0%nat) (with_log (log s ++ [Emitted ev i]) s)) as Hemit.
  { intros k. unfold emit, mbind, M_bind, self, note, modify. by rewrite Hd, Hev. }
  rewrite Hemit. set (s0 := with_log (log s ++ [Emitted ev i]) s).
  replace fuel with (length pre + (fuel - length pre))%nat by lia.
  rewrite (emit_from_inert pre _ s0 a 0%nat [] (Plain f :: post));
    [|done|done|done|lia].
  set (s1 := seen pre s0).
  destruct (fuel - length pre)%nat as [|fuel1] eqn:Hf1; [lia|].
  cbn [run dispatch Nat.add]. unfold emit_from.
  unfold mbind at 1. unfold M_bind at 1. unfold get at 1.
  replace (arrays s1 !! a) with (Some (pre ++ Plain f :: post)) by done.
  cbn [mbind option_bind]. rewrite list_lookup_middle by done.
  cbn [invoke]. unfold mbind, M_bind.
  destruct fuel1 as [|fuel2] eqn:Hf2; [lia|].
  unfold call_fn, mbind, M_bind, get, note, modify. cbn [run dispatch].
  rewrite Hf. cbn [exec_prog exec call_method]. unfold mbind, M_bind.
  rewrite (once_existing ev g _ a) by done. cbn [mret M_ret].
  cbn [fresh with_calls with_log seen s1 s0].
  set (w := OnceListener (fresh s) ev g).
  set (s3 := with_arrays _ _).
  assert (arrays s3 !! a = Some ((pre ++ [Plain f]) ++ post ++ [w])) as Harr3.
  { subst s3. cbn [arrays with_arrays with_calls with_log with_fresh].
    rewrite list_lookup_alter.
    replace (arrays s1 !! a) with (Some (pre ++ Plain f :: post)) by done.
    rewrite decide_True by done. simpl. by rewrite <- !app_assoc. }
  change (emit_from (run fuel2) a (S (length pre)) s3)
    with (run (S fuel2) (EmitFrom a (S (length pre))) s3).
  replace (S fuel2) with (length post + (S fuel2 - length post))%nat by lia.
  rewrite (emit_from_inert post _ s3 a (S (length pre)) (pre ++ [Plain f]) [w]);
    [|done|rewrite length_app; simpl; lia|done|lia].
  set (s4 := seen post s3).
  destruct (S fuel2 - length post)%nat as [|fuel5] eqn:Hf5; [lia|].
  cbn [run dispatch]. unfold emit_from.
  unfold mbind at 1. unfold M_bind at 1. unfold get at 1.
  replace (arrays s4 !! a) with (Some (((pre ++ [Plain f]) ++ post) ++ w :: []))
    by (by rewrite <- app_assoc).
  cbn [mbind option_bind]. rewrite list_lookup_middle
    by (rewrite !length_app; simpl; lia).
  cbn [invoke w]. unfold mbind, M_bind, note, modify.
  rewrite (off_existing ev _ _ a) by done.
  rewrite call_fn_inert by (done || lia).
  set (s6 := with_calls _ _).
  assert (arrays s6 !! a = Some ((pre ++ [Plain f]) ++ post)) as Harr6.
  { subst s6. cbn [arrays with_arrays with_calls with_log].
    rewrite list_lookup_alter.
    replace (arrays s4 !! a) with (Some (((pre ++ [Plain f]) ++ post) ++ [w]))
      by (by rewrite <- app_assoc).
    rewrite decide_True by done. simpl. f_equal.
    apply splice_first_last. rewrite !Forall_app. split_and!.
    - by apply inert_plain.
    - by repeat constructor.
    - by apply inert_plain. }
  rewrite (emit_from_end _ _ a _ ((pre ++ [Plain f]) ++ post));
    [|done|rewrite !length_app; simpl; lia|lia].
  eexists. split; [done|]. split.
  - subst s6 s4 s3 s1 s0.
    cbn [log with_arrays with_calls with_log with_fresh seen]. unfold called.
    rewrite !fmap_app. simpl. rewrite <- !app_assoc. simpl.
    by rewrite <- ?app_assoc.
  - rewrite Harr6. by rewrite <- !app_assoc.
Qed.

(** C9, amended. [emit] on a queue that is not destroyed goes through the
    listener array of the event by index, while the listeners run.  When
    all listeners of the event were registered with [on] and do nothing
    when they are called (no call to the queue, no abort of a signal, no
    exception), the listeners that are registered when the emission begins
    are called, each once, in the order of registration, and the array is
    as before.  When one listener [f] among such listeners does nothing
    but call [on(ev, g)] or [once(ev, g)] for the same event, with [g]
    doing nothing either, [g] is appended to the array that is being gone
    through and is called in that same emission, after all the listeners
    registered before it; a [g] added with [once] is taken out of the
    array again when it is called. *)
Theorem emit_goes_through_live_array (fuel : nat) (s : state)
    (ev : JobQueueEvent) (i : option string) (a : nat)
    (pre post : list listener) (f g : fn) :
  isDestroyed (this s) = false ->
  eventListeners (this s) !! ev = Some a ->
  Forall inert pre -> Forall inert post -> inert (Plain g) ->
  (length pre + length post + 3 <= fuel)%nat ->
  (arrays s !! a = Some (pre ++ post) ->
   exists s', emit (run fuel) ev i s = Ok tt s'
     /\ log s' = log s ++ Emitted ev i :: called (pre ++ post)
     /\ arrays s' !! a = Some (pre ++ post))
  /\ (arrays s !! a = Some (pre ++ Plain f :: post) ->
      (forall n, fn_body f n = [Call (On ev g)]) ->
      exists s', emit (run fuel) ev i s = Ok tt s'
        /\ log s' = log s ++ Emitted ev i
                       :: called (pre ++ Plain f :: post ++ [Plain g])
        /\ arrays s' !! a = Some (pre ++ Plain f :: post ++ [Plain g]))
  /\ (arrays s !! a = Some (pre ++ Plain f :: post) ->
      (forall n, fn_body f n = [Call (Once ev g)]) ->
      exists s', emit (run fuel) ev i s = Ok tt s'
        /\ log s' = log s ++ Emitted ev i
                       :: called (pre ++ Plain f :: post)
                       ++ [Called (OnceId (fresh s)); Called (FnId (fn_name g))]
        /\ arrays s' !! a = Some (pre ++ Plain f :: post)).
Proof.
  intros Hd Hev Hpre Hpost Hg Hfuel. split_and!.
  - by apply emit_listeners_unchanged.
  - by apply emit_on_added.
  - by apply emit_once_added.
Qed.

(** C9, counterexample: [adder] is the only listener for [PAUSED]; during the
    one emission of [PAUSED] it adds listener 4, which is called in that
    emission. *)
Lemma listener_added_during_emission_is_called :
  exists s,
    steps 10 [Client [Call (On PAUSED adder); Call Pause]] (new (plain 1))
    = Some s
    /\ log s = [Emitted PAUSED None; Called (FnId 2); Called (FnId 4)].
Proof. eexists. split; by vm_compute. Qed.

(** C9, amended, at [two_listeners], [adder_between] and
    [once_adder_between]. *)
Lemma emit_goes_through_live_array_witness :
  (exists s', emit (run 10) PAUSED None two_listeners = Ok tt s'
     /\ log s' = log two_listeners
                 ++ Emitted PAUSED None
                    :: called ([Plain (silent 1)] ++ [Plain (silent 3)])
     /\ arrays s' !! 0%nat = Some ([Plain (silent 1)] ++ [Plain (silent 3)]))
  /\ (exists s', emit (run 10) PAUSED None adder_between = Ok tt s'
        /\ log s' = log adder_between
                    ++ Emitted PAUSED None
                       :: called ([Plain (silent 1)]
                                  ++ Plain adder :: [Plain (silent 3)]
                                  ++ [Plain (silent 4)])
        /\ arrays s' !! 0%nat
           = Some ([Plain (silent 1)]
                   ++ Plain adder :: [Plain (silent 3)] ++ [Plain (silent 4)]))
  /\ (exists s', emit (run 10) PAUSED None once_adder_between = Ok tt s'
        /\ log s' = log once_adder_between
                    ++ Emitted PAUSED None
                       :: called ([Plain (silent 1)]
                                  ++ Plain once_adder :: [Plain (silent 3)])
                       ++ [Called (OnceId (fresh once_adder_between));
                           Called (FnId (fn_name (silent 4)))]
        /\ arrays s' !! 0%nat
           = Some ([Plain (silent 1)]
                   ++ Plain once_adder :: [Plain (silent 3)])).
Proof.
  assert (forall n, inert (Plain (silent n))) as Hsilent
    by (intros n; by exists (silent n)).
  split_and!.
  - apply (emit_goes_through_live_array 10 two_listeners PAUSED None 0
             [Plain (silent 1)] [Plain (silent 3)] adder (silent 4));
      try (by vm_compute); try (by repeat constructor).
  - apply (emit_goes_through_live_array 10 adder_between PAUSED None 0
             [Plain (silent 1)] [Plain (silent 3)] adder (silent 4));
      try (by vm_compute); try (by repeat constructor).
  - apply (emit_goes_through_live_array 10 once_adder_between PAUSED None 0
             [Plain (silent 1)] [Plain (silent 3)] once_adder (silent 4));
      try (by vm_compute); try (by repeat constructor).
Defined.

(** The other side of the live array, left out of C9 as amended: a [once]
    listener takes itself out of the array while [emit] goes through it, and
    the listener behind it is passed over in that emission. *)
Example once_listener_hides_the_next :
  exists s,
    steps 10 [Client [Call (Once PAUSED (silent 1)); Call (On PAUSED (silent 3));
                      Call Pause]] (new (plain 1))
    = Some s
    /\ log s = [Emitted PAUSED None; Called (OnceId 0); Called (FnId 1)].
Proof. eexists. split; by vm_compute. Qed.

(** *** The count of running jobs *)

Lemma waiting_push (fls : list (option flight)) fl :
  List.length (filter (fun o => is_Some o) (fls ++ [Some fl]))
  = S (List.length (filter (fun o => is_Some o) fls)).
Proof.
  rewrite filter_app, length_app.
  rewrite (filter_cons_True _ (Some fl)) by (by eexists). simpl. lia.
Qed.

Lemma waiting_pop (fls : list (option flight)) k fl :
  fls !! k = Some (Some fl) ->
  S (List.length (filter (fun o => is_Some o) (<[k := None]> fls)))
  = List.length (filter (fun o => is_Some o) fls).
Proof.
  revert k. induction fls as [|x fls IH]; intros k; [done|].
  destruct k as [|k]; simpl.
  - intros [= ->]. rewrite filter_cons_False by (by intros []).
    by rewrite filter_cons_True by (by eexists).
  - intros Hk. specialize (IH k Hk). rewrite !filter_cons.
    destruct (decide (is_Some x)); simpl in *; lia.
Qed.

Ltac cw :=
  unfold counts_waiting, waiting in *; sstate;
  repeat match goal with
         | H : _ \/ _ |- _ => destruct H
         end;
  repeat case_match; sstate;
  rewrite ?this_abort_all, ?flights_abort_all; sstate;
  first [ by left | right; rewrite ?waiting_push; lia ].

Ltac call_cw lem :=
  eapply wp_mono;
  [eapply lem; try done; try (by cw) | intros ? ? ? | intros ? ?; try done].

Section Waiting.
Variable rec : call -> M unit.
Hypothesis rec_counts : forall d k, keeps (counts_waiting d) (rec k).

Lemma off_counts d ev l : keeps (counts_waiting d) (off ev l).
Proof. intros s Hs. unfold off. wp_steps; by cw. Qed.

Lemma call_fn_counts d f : keeps (counts_waiting d) (call_fn rec f).
Proof. intros s Hs. unfold call_fn. wp_steps. apply rec_counts. by cw. Qed.

Lemma invoke_counts d l : keeps (counts_waiting d) (invoke rec l).
Proof.
  intros s Hs. unfold invoke. wp_steps.
  - by apply call_fn_counts.
  - call_cw off_counts. by apply call_fn_counts.
Qed.

Lemma emit_counts d ev id : keeps (counts_waiting d) (emit rec ev id).
Proof.
  intros s Hs. unfold emit. wp_steps; try by cw. apply rec_counts. by cw.
Qed.

Lemma emit_from_counts d a i : keeps (counts_waiting d) (emit_from rec a i).
Proof.
  intros s Hs. unfold emit_from. wp_steps; try by cw.
  call_cw invoke_counts; by apply rec_counts.
Qed.

Lemma processNextJobs_counts d : keeps (counts_waiting d) (processNextJobs rec).
Proof.
  intros s Hs. unfold processNextJobs. wp_steps; try by cw.
  call_cw rec_counts. wp_steps; try by cw.
  call_cw emit_counts. wp_steps; try by cw. by apply emit_counts.
Qed.

Lemma runJob_catch_counts d id s :
  counts_waiting d s ->
  wp (runJob_catch rec id) (fun b s' => b = false /\ counts_waiting d s')
     (counts_waiting d) s.
Proof.
  intros Hs. unfold runJob_catch. wp_steps; [by split|].
  call_cw emit_counts. by wp_steps.
Qed.

(** The [finally] block takes one off [running]. *)
Lemma runJob_finally_counts d id t s :
  counts_waiting (d + 1) s ->
  wp (runJob_finally rec id t) (fun _ => counts_waiting d) (counts_waiting d) s.
Proof.
  intros Hs. unfold runJob_finally. wp_steps; try by cw.
  all: apply processNextJobs_counts; by cw.
Qed.

(** [try { body } catch { } finally { }] with a body that keeps the count
    and stops at [await] only with one more job waiting. *)
Lemma protected_counts d id t (body : M bool) s :
  counts_waiting (d + 1) s ->
  (forall s, counts_waiting (d + 1) s ->
     wp body (fun b s' => if b then counts_waiting d s'
                          else counts_waiting (d + 1) s')
        (counts_waiting (d + 1)) s) ->
  wp (protected rec id t body) (fun _ => counts_waiting d) (counts_waiting d) s.
Proof.
  intros Hs Hbody. apply wp_protected, wp_try_catch.
  eapply wp_mono; [by apply Hbody| |].
  - intros [] s' H; [done|]. by apply runJob_finally_counts.
  - intros s' H. eapply wp_mono; [by apply runJob_catch_counts| |].
    + intros b s'' [-> H']. by apply runJob_finally_counts.
    + intros s'' H'. by apply runJob_finally_counts.
Qed.

Lemma runJob_counts d it : keeps (counts_waiting d) (runJob rec it).
Proof.
  intros s Hs. unfold runJob. do 2 (wp_step; sstate).
  wp_step; sstate; [by wp_steps|].
  repeat (lazymatch goal with
          | |- wp (protected _ _ _ _) _ _ _ => fail
          | _ => wp_step; sstate
          end).
  all: apply protected_counts; [by cw|]; intros s0 Hs0.
  all: wp_steps; try by cw.
  all: call_cw (emit_counts (d + 1)); wp_steps; try by cw.
  all: call_cw (rec_counts (d + 1)); wp_steps; by cw.
Qed.

Lemma settle_counts d k b : keeps (counts_waiting d) (settle rec k b).
Proof.
  intros s Hs. unfold settle. wp_step; sstate. wp_step; sstate.
  destruct (flights s !! k) as [[fl|]|] eqn:Hk; try by wp_steps.
  wp_step; sstate. wp_step; sstate. apply protected_counts.
  - pose proof (waiting_pop _ _ _ Hk). cw.
  - intros s0 Hs0. unfold runJob_resumed. wp_steps; try by cw.
    call_cw (emit_counts (d + 1)). by wp_steps.
Qed.

Lemma dequeue_item_counts d : keeps (counts_waiting d) dequeue_item.
Proof. intros s Hs. unfold dequeue_item. wp_steps; by cw. Qed.

Lemma process_loop_counts d : keeps (counts_waiting d) (process_loop rec).
Proof.
  intros s Hs. unfold process_loop. wp_steps; try by cw.
  call_cw dequeue_item_counts. wp_steps; try by cw.
  - call_cw emit_counts. by apply rec_counts.
  - call_cw runJob_counts. wp_steps; try by cw.
    all: apply rec_counts; by cw.
Qed.

Lemma add_counts d job p sg id rnd : keeps (counts_waiting d) (add rec job p sg id rnd).
Proof.
  intros s Hs. unfold add. wp_steps; try by cw.
  call_cw emit_counts. wp_steps; try by cw.
  call_cw processNextJobs_counts. by wp_steps.
Qed.

Lemma start_counts d : keeps (counts_waiting d) (start rec).
Proof.
  intros s Hs. unfold start. wp_steps; try by cw. by apply processNextJobs_counts.
Qed.

Lemma pause_counts d : keeps (counts_waiting d) (pause rec).
Proof.
  intros s Hs. unfold pause. wp_steps; try by cw. apply emit_counts. by cw.
Qed.

Lemma resume_counts d : keeps (counts_waiting d) (resume rec).
Proof.
  intros s Hs. unfold resume. wp_steps; try by cw.
  call_cw emit_counts. by apply processNextJobs_counts.
Qed.

Lemma clear_counts d : keeps (counts_waiting d) clear.
Proof. intros s Hs. unfold clear. wp_steps; by cw. Qed.

Lemma size_counts d : keeps (counts_waiting d) size.
Proof. intros s Hs. unfold size. wp_steps; by cw. Qed.

Lemma pending_counts d : keeps (counts_waiting d) pending.
Proof. intros s Hs. unfold pending. wp_steps; by cw. Qed.

Lemma active_counts d : keeps (counts_waiting d) active.
Proof. intros s Hs. unfold active. wp_steps; by cw. Qed.

Lemma setPriority_counts d id p : keeps (counts_waiting d) (setPriority id p).
Proof. intros s Hs. unfold setPriority. wp_steps; by cw. Qed.

Lemma abort_counts d id : keeps (counts_waiting d) (abort id).
Proof. intros s Hs. unfold abort. wp_steps; by cw. Qed.

Lemma on_counts d ev l : keeps (counts_waiting d) (on ev l).
Proof. intros s Hs. unfold on. wp_steps; by cw. Qed.

Lemma once_counts d ev f : keeps (counts_waiting d) (once ev f).
Proof. intros s Hs. unfold once. wp_steps; try by cw. apply on_counts. by cw. Qed.

Lemma removeAllListeners_counts d ev : keeps (counts_waiting d) (removeAllListeners ev).
Proof. intros s Hs. unfold removeAllListeners. wp_steps; by cw. Qed.

Lemma onEmpty_counts d f : keeps (counts_waiting d) (onEmpty rec f).
Proof.
  intros s Hs. unfold onEmpty. wp_steps. call_cw on_counts.
  wp_steps; try by cw. by apply call_fn_counts.
Qed.

Lemma onIdle_counts d f : keeps (counts_waiting d) (onIdle rec f).
Proof.
  intros s Hs. unfold onIdle. wp_steps. call_cw on_counts.
  wp_steps; try by cw. by apply call_fn_counts.
Qed.

Lemma destroy_counts d : keeps (counts_waiting d) destroy.
Proof. intros s Hs. unfold destroy. wp_steps; by cw. Qed.

Lemma abort_signal_counts d n : keeps (counts_waiting d) (abort_signal n).
Proof. intros s Hs. unfold abort_signal. wp_steps; by cw. Qed.

Lemma call_method_counts d m : keeps (counts_waiting d) (call_method rec m).
Proof.
  intros s Hs. destruct m; cbn [call_method]; wp_steps.
  - call_cw add_counts. by wp_steps.
  - call_cw start_counts. by wp_steps.
  - call_cw pause_counts. by wp_steps.
  - call_cw resume_counts. by wp_steps.
  - call_cw clear_counts. by wp_steps.
  - call_cw size_counts. by wp_steps.
  - call_cw active_counts. by wp_steps.
  - call_cw pending_counts. by wp_steps.
  - call_cw setPriority_counts. by wp_steps.
  - call_cw abort_counts. by wp_steps.
  - call_cw onEmpty_counts. by wp_steps.
  - call_cw onIdle_counts. by wp_steps.
  - call_cw on_counts. by wp_steps.
  - call_cw off_counts. by wp_steps.
  - call_cw once_counts. by wp_steps.
  - call_cw removeAllListeners_counts. by wp_steps.
  - call_cw destroy_counts. by wp_steps.
Qed.

Lemma exec_counts d c : keeps (counts_waiting d) (exec rec c).
Proof.
  intros s Hs. destruct c; cbn [exec]; wp_steps; try done.
  - call_cw call_method_counts. wp_steps; try done; by cw.
  - call_cw rec_counts. by wp_steps.
  - by apply abort_signal_counts.
Qed.

Lemma exec_prog_counts d p : keeps (counts_waiting d) (exec_prog rec p).
Proof.
  induction p as [|c p IH]; intros s Hs; cbn [exec_prog]; wp_steps; [done|].
  call_cw exec_counts. by apply IH.
Qed.

Lemma dispatch_counts d k : keeps (counts_waiting d) (dispatch rec k).
Proof.
  destruct k; cbn [dispatch].
  - apply exec_prog_counts.
  - apply emit_from_counts.
  - apply process_loop_counts.
Qed.

Lemma tick_counts d : keeps (counts_waiting d) (tick rec).
Proof.
  intros s Hs. unfold tick. wp_steps; try by cw.
  apply processNextJobs_counts. by cw.
Qed.
End Waiting.

Lemma timeout_fires_counts d t : keeps (counts_waiting d) (timeout_fires t).
Proof. intros s Hs. unfold timeout_fires. wp_steps; by cw. Qed.

Lemma run_counts fuel d k : keeps (counts_waiting d) (run fuel k).
Proof.
  revert d k. induction fuel as [|fuel IH]; intros d k; [by intros s Hs|].
  cbn [run]. by apply dispatch_counts.
Qed.

Lemma step_counts fuel d a : keeps (counts_waiting d) (step fuel a).
Proof.
  destruct a; cbn [step].
  - apply run_counts.
  - apply settle_counts. intros ? ?. apply run_counts.
  - apply tick_counts. intros ? ?. apply run_counts.
  - apply timeout_fires_counts.
Qed.

Lemma steps_count fuel d tr s s' :
  counts_waiting d s -> steps fuel tr s = Some s' -> counts_waiting d s'.
Proof.
  revert s. induction tr as [|a tr IH]; intros s Hs; cbn [steps].
  - by intros [= <-].
  - pose proof (step_counts fuel d a s Hs) as Hstep. unfold wp in Hstep.
    destruct (step fuel a s); [by apply IH..|done].
Qed.

(** X10. In every state that a queue reaches, after any calls, settled
    jobs and timers, with callbacks that call the queue again: unless the
    queue is destroyed, [running] is the number of jobs that have started
    and whose promise has not settled; so [active] is that number, and it
    is never negative. *)
Theorem running_counts_waiting_jobs options fuel tr s :
  steps fuel tr (new options) = Some s ->
  isDestroyed (this s) = false ->
  running (this s) = waiting s
  /\ active s = Ok (waiting s) s
  /\ 0 <= running (this s).
Proof.
  intros Hsteps Hd.
  assert (counts_waiting 0 (new options)) as H0 by (by right).
  destruct (steps_count fuel 0 tr _ s H0 Hsteps) as [?|Hr]; [congruence|].
  assert (running (this s) = waiting s) as Hw by lia.
  split_and!; [done| |rewrite Hw; unfold waiting; lia].
  unfold active, mbind, M_bind, self, mret, M_ret. by rewrite Hd, Hw.
Qed.

Lemma running_counts_waiting_jobs_witness :
  (steps 10 [Client [add_job "a" []; add_job "b" []]; Settle 0 true]
     (new (plain 3)) = Some one_settled
   /\ isDestroyed (this one_settled) = false)
  /\ running (this one_settled) = waiting one_settled
  /\ active one_settled = Ok (waiting one_settled) one_settled
  /\ 0 <= running (this one_settled).
Proof.
  assert (steps 10 [Client [add_job "a" []; add_job "b" []]; Settle 0 true]
            (new (plain 3)) = Some one_settled) as Hs by (by vm_compute).
  assert (isDestroyed (this one_settled) = false) as Hd by (by vm_compute).
  split; [exact (conj Hs Hd)|].
  exact (running_counts_waiting_jobs (plain 3) 10 _ one_settled Hs Hd).
Defined.

(** *** Pausing *)

Lemma watch_snoc l e : watch (l ++ [e]) = watch_step (watch l) e.
Proof. unfold watch. by rewrite foldl_app. Qed.

Lemma watch_failed p l : (foldl watch_step (p, false) l).2 = false.
Proof.
  revert p. induction l as [|e l IH]; intros p; [done|]. simpl.
  by destruct e as [[] ?| |]; simpl; rewrite ?IH.
Qed.

Lemma watch_paused ok l2 j l3 :
  (foldl watch_step (true, ok) (l2 ++ Emitted NEXT j :: l3)).2 = true ->
  exists k, Emitted RESUMED k ∈ l2.
Proof.
  revert ok. induction l2 as [|e l2 IH]; intros ok; simpl.
  - destruct ok; simpl; by rewrite watch_failed.
  - destruct e as [ev k| |]; simpl.
    1: destruct ev; simpl.
    all: try (intros [k' ?]%IH; exists k'; apply elem_of_cons; by right).
    intros _. exists k. apply elem_of_cons. by left.
Qed.

Lemma watch_spec l l1 i l2 j l3 :
  (watch l).2 = true ->
  l = l1 ++ Emitted PAUSED i :: l2 ++ Emitted NEXT j :: l3 ->
  exists k, Emitted RESUMED k ∈ l2.
Proof.
  intros Hw ->. unfold watch in Hw. rewrite foldl_app in Hw. simpl in Hw.
  by apply watch_paused in Hw.
Qed.

Ltac ps :=
  unfold unpaused, pause_sound in *; sstate;
  repeat match goal with
         | H : _ /\ _ |- _ => destruct H
         end;
  rewrite ?this_abort_all, ?log_abort_all; sstate;
  rewrite ?watch_snoc; cbn [watch_step fst snd];
  repeat match goal with
         | H : _ \/ _ |- _ => destruct H
         end;
  repeat case_match; sstate;
  repeat split; try done; try congruence;
  first [ by left | right; congruence | by right ].

Ltac call_ps lem :=
  eapply wp_mono;
  [eapply lem; try done; try (by ps) | intros ? ? ? | intros ? ?; try done].

Section Paused.
Variable rec : call -> M unit.
Hypothesis rec_sound : forall k, keeps pause_sound (rec k).

Lemma off_sound ev l : keeps pause_sound (off ev l).
Proof. intros s Hs. unfold off. wp_steps; by ps. Qed.

Lemma call_fn_sound f : keeps pause_sound (call_fn rec f).
Proof. intros s Hs. unfold call_fn. wp_steps. apply rec_sound. by ps. Qed.

Lemma invoke_sound l : keeps pause_sound (invoke rec l).
Proof.
  intros s Hs. unfold invoke. wp_steps.
  - by apply call_fn_sound.
  - call_ps off_sound. by apply call_fn_sound.
Qed.

(** An emission, when the state with the event in the log is sound. *)
Lemma emit_sound ev id s :
  (isDestroyed (this s) = true -> pause_sound s) ->
  (isDestroyed (this s) = false ->
   pause_sound (with_log (log s ++ [Emitted ev id]) s)) ->
  wp (emit rec ev id) (fun _ => pause_sound) pause_sound s.
Proof.
  intros Hd Hs. unfold emit. wp_steps; auto. apply rec_sound. auto.
Qed.

Lemma emit_plain ev id :
  plain_event ev -> keeps pause_sound (emit rec ev id).
Proof.
  intros (? & ? & ?) s Hs. apply emit_sound; [done|]. intros _.
  destruct ev; try done; by ps.
Qed.

Lemma emit_NEXT id s :
  unpaused s -> wp (emit rec NEXT id) (fun _ => pause_sound) pause_sound s.
Proof.
  intros [Hs Hp]. apply emit_sound; [done|]. intros Hd.
  destruct Hs as [Hok [?|Hw]]; [congruence|]. unfold pause_sound. sstate.
  rewrite watch_snoc. simpl. rewrite <- Hw, Hp, Hok. auto.
Qed.

Lemma emit_from_sound a i : keeps pause_sound (emit_from rec a i).
Proof.
  intros s Hs. unfold emit_from. wp_steps; try by ps.
  call_ps invoke_sound; by apply rec_sound.
Qed.

Lemma processNextJobs_sound : keeps pause_sound (processNextJobs rec).
Proof.
  intros s Hs. unfold processNextJobs. wp_steps; try by ps.
  call_ps rec_sound. wp_steps; try by ps.
  call_ps (emit_plain EMPTY). wp_steps; try by ps. by apply emit_plain.
Qed.

Lemma runJob_catch_sound id s :
  pause_sound s ->
  wp (runJob_catch rec id) (fun b s' => b = false /\ pause_sound s')
     pause_sound s.
Proof.
  intros Hs. unfold runJob_catch. wp_steps; [by split|].
  call_ps (emit_plain ERROR). by wp_steps.
Qed.

Lemma runJob_finally_sound id t : keeps pause_sound (runJob_finally rec id t).
Proof.
  intros s Hs. unfold runJob_finally. wp_steps; try by ps.
  all: apply processNextJobs_sound; by ps.
Qed.

Lemma protected_sound id t (body : M bool) s :
  wp body (fun _ => pause_sound) pause_sound s ->
  wp (protected rec id t body) (fun _ => pause_sound) pause_sound s.
Proof.
  intros Hbody. apply wp_protected, wp_try_catch.
  eapply wp_mono; [exact Hbody| |].
  - intros [] s' H; [done|]. by apply runJob_finally_sound.
  - intros s' H. eapply wp_mono; [by apply runJob_catch_sound| |].
    + intros b s'' [-> H']. by apply runJob_finally_sound.
    + intros s'' H'. by apply runJob_finally_sound.
Qed.

Lemma runJob_sound it s :
  unpaused s -> wp (runJob rec it) (fun _ => pause_sound) pause_sound s.
Proof.
  intros Hs. unfold runJob. do 2 (wp_step; sstate).
  wp_step; sstate; [wp_steps; by ps|].
  repeat (lazymatch goal with
          | |- wp (protected _ _ _ _) _ _ _ => fail
          | _ => wp_step; sstate
          end).
  all: apply protected_sound.
  all: wp_steps; try by ps.
  all: call_ps emit_NEXT; wp_steps; try by ps.
  all: call_ps rec_sound; wp_steps; by ps.
Qed.

Lemma settle_sound k b : keeps pause_sound (settle rec k b).
Proof.
  intros s Hs. unfold settle. do 2 (wp_step; sstate).
  destruct (flights s !! k) as [[fl|]|] eqn:Hk; try by wp_steps.
  do 2 (wp_step; sstate). apply protected_sound.
  unfold runJob_resumed. wp_steps; try by ps.
  call_ps (emit_plain COMPLETED). by wp_steps.
Qed.

Lemma dequeue_item_unpaused : keeps unpaused dequeue_item.
Proof. intros s Hs. unfold dequeue_item. wp_steps; by ps. Qed.

Lemma process_loop_sound : keeps pause_sound (process_loop rec).
Proof.
  intros s Hs. unfold process_loop. wp_steps; try by ps.
  assert (unpaused s) as Hu.
  { split; [done|]. unfold may_start in *.
    repeat match goal with H : _ && _ = true |- _ => apply andb_true_iff in H as [? ?] end.
    by destruct (isPaused (this s)). }
  call_ps dequeue_item_unpaused; [|by destruct H].
  wp_steps; try by ps.
  - call_ps emit_NEXT. by apply rec_sound.
  - call_ps runJob_sound. wp_steps; try by ps.
    all: apply rec_sound; by ps.
Qed.

Lemma add_sound job p sg id rnd : keeps pause_sound (add rec job p sg id rnd).
Proof.
  intros s Hs. unfold add. wp_steps; try by ps.
  call_ps (emit_plain ADDED). wp_steps; try by ps.
  call_ps processNextJobs_sound. by wp_steps.
Qed.

Lemma start_sound : keeps pause_sound (start rec).
Proof.
  intros s Hs. unfold start. wp_steps; try by ps. by apply processNextJobs_sound.
Qed.

Lemma pause_sound_kept : keeps pause_sound (pause rec).
Proof.
  intros s Hs. unfold pause. wp_steps; try by ps.
  apply emit_sound; sstate; intros Hd; [|by ps].
  destruct (isDestroyed (this s)); done.
Qed.

Lemma resume_sound : keeps pause_sound (resume rec).
Proof.
  intros s Hs. unfold resume. wp_steps; try by ps.
  eapply wp_mono; [apply emit_sound| |done].
  - sstate. intros Hd. by destruct (isDestroyed (this s)).
  - intros _. by ps.
  - intros ? s' Hs'. by apply processNextJobs_sound.
Qed.

Lemma clear_sound : keeps pause_sound clear.
Proof. intros s Hs. unfold clear. wp_steps; by ps. Qed.

Lemma size_sound : keeps pause_sound size.
Proof. intros s Hs. unfold size. wp_steps; by ps. Qed.

Lemma pending_sound : keeps pause_sound pending.
Proof. intros s Hs. unfold pending. wp_steps; by ps. Qed.

Lemma active_sound : keeps pause_sound active.
Proof. intros s Hs. unfold active. wp_steps; by ps. Qed.

Lemma setPriority_sound id p : keeps pause_sound (setPriority id p).
Proof. intros s Hs. unfold setPriority. wp_steps; by ps. Qed.

Lemma abort_sound id : keeps pause_sound (abort id).
Proof. intros s Hs. unfold abort. wp_steps; by ps. Qed.

Lemma on_sound ev l : keeps pause_sound (on ev l).
Proof. intros s Hs. unfold on. wp_steps; by ps. Qed.

Lemma once_sound ev f : keeps pause_sound (once ev f).
Proof. intros s Hs. unfold once. wp_steps; try by ps. apply on_sound. by ps. Qed.

Lemma removeAllListeners_sound ev : keeps pause_sound (removeAllListeners ev).
Proof. intros s Hs. unfold removeAllListeners. wp_steps; by ps. Qed.

Lemma onEmpty_sound f : keeps pause_sound (onEmpty rec f).
Proof.
  intros s Hs. unfold onEmpty. wp_steps. call_ps on_sound.
  wp_steps; try by ps. by apply call_fn_sound.
Qed.

Lemma onIdle_sound f : keeps pause_sound (onIdle rec f).
Proof.
  intros s Hs. unfold onIdle. wp_steps. call_ps on_sound.
  wp_steps; try by ps. by apply call_fn_sound.
Qed.

Lemma destroy_sound : keeps pause_sound destroy.
Proof. intros s Hs. unfold destroy. wp_steps; by ps. Qed.

Lemma abort_signal_sound n : keeps pause_sound (abort_signal n).
Proof. intros s Hs. unfold abort_signal. wp_steps; by ps. Qed.

Lemma call_method_sound m : keeps pause_sound (call_method rec m).
Proof.
  intros s Hs. destruct m; cbn [call_method]; wp_steps.
  - call_ps add_sound. by wp_steps.
  - call_ps start_sound. by wp_steps.
  - call_ps pause_sound_kept. by wp_steps.
  - call_ps resume_sound. by wp_steps.
  - call_ps clear_sound. by wp_steps.
  - call_ps size_sound. by wp_steps.
  - call_ps active_sound. by wp_steps.
  - call_ps pending_sound. by wp_steps.
  - call_ps setPriority_sound. by wp_steps.
  - call_ps abort_sound. by wp_steps.
  - call_ps onEmpty_sound. by wp_steps.
  - call_ps onIdle_sound. by wp_steps.
  - call_ps on_sound. by wp_steps.
  - call_ps off_sound. by wp_steps.
  - call_ps once_sound. by wp_steps.
  - call_ps removeAllListeners_sound. by wp_steps.
  - call_ps destroy_sound. by wp_steps.
Qed.

Lemma exec_sound c : keeps pause_sound (exec rec c).
Proof.
  intros s Hs. destruct c; cbn [exec]; wp_steps; try done.
  - call_ps call_method_sound. wp_steps; try done; by ps.
  - call_ps rec_sound. by wp_steps.
  - by apply abort_signal_sound.
Qed.

Lemma exec_prog_sound p : keeps pause_sound (exec_prog rec p).
Proof.
  induction p as [|c p IH]; intros s Hs; cbn [exec_prog]; wp_steps; [done|].
  call_ps exec_sound. by apply IH.
Qed.

Lemma dispatch_sound k : keeps pause_sound (dispatch rec k).
Proof.
  destruct k; cbn [dispatch].
  - apply exec_prog_sound.
  - apply emit_from_sound.
  - apply process_loop_sound.
Qed.

Lemma tick_sound : keeps pause_sound (tick rec).
Proof.
  intros s Hs. unfold tick. wp_steps; try by ps.
  apply processNextJobs_sound. by ps.
Qed.
End Paused.

Lemma timeout_fires_sound t : keeps pause_sound (timeout_fires t).
Proof. intros s Hs. unfold timeout_fires. wp_steps; by ps. Qed.

Lemma run_sound fuel k : keeps pause_sound (run fuel k).
Proof.
  revert k. induction fuel as [|fuel IH]; intros k; [by intros s Hs|].
  cbn [run]. by apply dispatch_sound.
Qed.

Lemma step_sound fuel a : keeps pause_sound (step fuel a).
Proof.
  destruct a; cbn [step].
  - apply run_sound.
  - apply settle_sound. intros ?. apply run_sound.
  - apply tick_sound. intros ?. apply run_sound.
  - apply timeout_fires_sound.
Qed.

Lemma steps_sound fuel tr s s' :
  pause_sound s -> steps fuel tr s = Some s' -> pause_sound s'.
Proof.
  revert s. induction tr as [|a tr IH]; intros s Hs; cbn [steps].
  - by intros [= <-].
  - pose proof (step_sound fuel a s Hs) as Hstep. unfold wp in Hstep.
    destruct (step fuel a s); [by apply IH..|done].
Qed.

(** X12. No job starts while the queue is paused.  In the events of any
    run of a queue, with callbacks that call the queue again: between a
    [PAUSED] event and a later [NEXT] event there is a [RESUMED] event. *)
Theorem no_start_while_paused options fuel tr s l1 i l2 j l3 :
  steps fuel tr (new options) = Some s ->
  log s = l1 ++ Emitted PAUSED i :: l2 ++ Emitted NEXT j :: l3 ->
  exists k, Emitted RESUMED k ∈ l2.
Proof.
  intros Hsteps Hlog.
  assert (pause_sound (new options)) as H0 by (split; [done|by right]).
  destruct (steps_sound fuel tr _ s H0 Hsteps) as [Hok _].
  by apply (watch_spec (log s) l1 i l2 j l3).
Qed.

Lemma no_start_while_paused_witness :
  let l1 := [Emitted ADDED (Some "a"%string); Emitted NEXT (Some "a"%string);
             Called (FnId 1)] in
  let l2 := [Emitted EMPTY None; Emitted ADDED (Some "b"%string);
             Emitted COMPLETED (Some "a"%string); Emitted RESUMED None] in
  let l3 := [Called (FnId 1); Emitted PAUSED None; Emitted EMPTY None] in
  (steps 10 pausing_trace (new (plain 1)) = Some paused_and_resumed
   /\ log paused_and_resumed
      = l1 ++ Emitted PAUSED None :: l2 ++ Emitted NEXT (Some "b"%string) :: l3)
  /\ exists k, Emitted RESUMED k ∈ l2.
Proof.
  intros l1 l2 l3.
  assert (steps 10 pausing_trace (new (plain 1)) = Some paused_and_resumed)
    as Hs by (by vm_compute).
  assert (log paused_and_resumed
          = l1 ++ Emitted PAUSED None
               :: l2 ++ Emitted NEXT (Some "b"%string) :: l3)
    as Hl by (by vm_compute).
  split; [exact (conj Hs Hl)|].
  exact (no_start_while_paused (plain 1) 10 pausing_trace paused_and_resumed
           l1 None l2 (Some "b"%string) l3 Hs Hl).
Defined.

(** *** A destroyed queue *)

Lemma silent_since_refl s : isDestroyed (this s) = true -> silent_since s s.
Proof.
  intros Hd. split_and!; [done..|]. exists []. by rewrite app_nil_r.
Qed.

Ltac quiet :=
  unfold silent_since in *; sstate;
  repeat match goal with
         | H : _ /\ _ |- _ => destruct H
         | H : exists _, _ |- _ => destruct H
         end;
  try congruence;
  try match goal with
      | H : isDestroyed (this ?s) = true, H' : context [isDestroyed (this ?s)] |- _ =>
          rewrite H in H'; by simpl in H'
      end;
  split_and!; try done; try congruence; eauto.

Section Destroyed.
Variable s0 : state.
Variable rec : call -> M unit.
Hypothesis rec_silent : forall p, keeps (silent_since s0) (rec (RunProg p)).

Lemma call_method_silent m s :
  silent_since s0 s ->
  call_method rec m s = Ok (sentinel m) s.
Proof. intros (Hd & _). by apply destroyed_inert. Qed.

Lemma exec_silent c : keeps (silent_since s0) (exec rec c).
Proof.
  intros s Hs. destruct c as [m|body| |n]; cbn [exec].
  - apply wp_bind. unfold wp at 1. rewrite (call_method_silent m s Hs).
    destruct m; simpl; try done.
    all: destruct Hs as (? & ? & ? & l & Hl & Hall).
    all: split_and!; [done..|]; eexists (l ++ [_]); sstate.
    all: rewrite Hl, app_assoc; split; [done|].
    all: apply Forall_app; split; [done|]; repeat constructor; by eexists.
  - apply wp_try_catch. eapply wp_mono; [by apply rec_silent|done|done].
  - done.
  - unfold abort_signal. wp_steps; by quiet.
Qed.

Lemma exec_prog_silent p : keeps (silent_since s0) (exec_prog rec p).
Proof.
  induction p as [|c p IH]; intros s Hs; cbn [exec_prog]; wp_steps; [done|].
  eapply wp_mono; [by apply exec_silent| |done]. intros ? s' Hs'. by apply IH.
Qed.

Lemma runJob_catch_silent id s :
  silent_since s0 s ->
  wp (runJob_catch rec id) (fun b s' => b = false /\ silent_since s0 s')
     (silent_since s0) s.
Proof. intros Hs. unfold runJob_catch. wp_steps; by quiet. Qed.

Lemma runJob_finally_silent id t : keeps (silent_since s0) (runJob_finally rec id t).
Proof. intros s Hs. unfold runJob_finally. wp_steps; by quiet. Qed.

Lemma settle_silent k b : keeps (silent_since s0) (settle rec k b).
Proof.
  intros s Hs. unfold settle, runJob_resumed. wp_steps; try by quiet.
  - apply runJob_finally_silent. by quiet.
  - eapply wp_mono; [apply runJob_catch_silent; by quiet| |].
    + intros ? s' [-> Hs']. by apply runJob_finally_silent.
    + intros s' Hs'. by apply runJob_finally_silent.
Qed.

Lemma tick_silent : keeps (silent_since s0) (tick rec).
Proof. intros s Hs. unfold tick. wp_steps; by quiet. Qed.
End Destroyed.

Lemma timeout_fires_silent s0 t : keeps (silent_since s0) (timeout_fires t).
Proof. intros s Hs. unfold timeout_fires. wp_steps; by quiet. Qed.

Lemma run_silent s0 fuel p : keeps (silent_since s0) (run fuel (RunProg p)).
Proof.
  revert p. induction fuel as [|fuel IH]; intros p; [by intros s Hs|].
  cbn [run dispatch]. by apply exec_prog_silent.
Qed.

Lemma step_silent s0 fuel a : keeps (silent_since s0) (step fuel a).
Proof.
  destruct a; cbn [step].
  - apply run_silent.
  - apply settle_silent.
  - apply tick_silent.
  - apply timeout_fires_silent.
Qed.

Lemma steps_silent s0 fuel tr s s' :
  silent_since s0 s -> steps fuel tr s = Some s' -> silent_since s0 s'.
Proof.
  revert s. induction tr as [|a tr IH]; intros s Hs; cbn [steps].
  - by intros [= <-].
  - pose proof (step_silent s0 fuel a s Hs) as Hstep. unfold wp in Hstep.
    destruct (step fuel a s); [by apply IH..|done].
Qed.

(** X11. A destroyed queue stays destroyed and silent, whatever happens
    next: calls of its methods, jobs that were running and now settle,
    the interval timer and the timeouts.  No event is emitted and no
    callback is called any more, nothing is queued and no job starts; the
    getters return [0]. *)
Theorem destroyed_queue_stays_silent (s s' : state) (fuel : nat)
    (tr : list action) :
  isDestroyed (this s) = true ->
  steps fuel tr s = Some s' ->
  isDestroyed (this s') = true
  /\ calls s' = calls s
  /\ queue (this s') = queue (this s)
  /\ exists l, log s' = log s ++ l /\ Forall reads_zero l.
Proof.
  intros Hd Hsteps.
  exact (steps_silent s fuel tr s s' (silent_since_refl s Hd) Hsteps).
Qed.

Lemma destroyed_queue_stays_silent_witness :
  (isDestroyed (this destroyed_busy) = true
   /\ steps 10 after_destroy destroyed_busy = Some destroyed_later)
  /\ isDestroyed (this destroyed_later) = true
  /\ calls destroyed_later = calls destroyed_busy
  /\ queue (this destroyed_later) = queue (this destroyed_busy)
  /\ exists l, log destroyed_later = log destroyed_busy ++ l
               /\ Forall reads_zero l.
Proof.
  assert (isDestroyed (this destroyed_busy) = true) as Hd by (by vm_compute).
  assert (steps 10 after_destroy destroyed_busy = Some destroyed_later) as Hs
    by (by vm_compute).
  split; [exact (conj Hd Hs)|].
  exact (destroyed_queue_stays_silent destroyed_busy destroyed_later 10
           after_destroy Hd Hs).
Defined.

(** *** Priorities and listeners *)

Lemma reprioritize_map id p arr q0 f0 :
  reprioritize id p arr (q0, f0)
  = (q0 ++ (retarget id p <$> arr), f0 || queued id arr).
Proof.
  revert q0 f0. induction arr as [|[pa va] arr IH]; intros q0 f0.
  - simpl. by rewrite app_nil_r, orb_false_r.
  - unfold reprioritize in *.
    cbn [foldl PriorityQueue.value PriorityQueue.priority fmap list_fmap
         queued existsb].
    assert (retarget id p (PriorityQueue.Item pa va)
            = if bool_decide (o_id (options va) = id)
              then PriorityQueue.Item p
                     {| ref := ref va; job := job va;
                        options := {| o_priority := p;
                                      o_signal := o_signal (options va);
                                      o_id := o_id (options va) |} |}
              else PriorityQueue.Item pa va) as -> by done.
    destruct (bool_decide (o_id (options va) = id)); rewrite IH.
    all: unfold PriorityQueue.enqueue, Queue.enqueue.
    all: rewrite <- app_assoc; simpl; f_equal.
    by destruct f0.
Qed.

(** X17. [setPriority(id, p)] for a job that waits (its entry in [jobMap]
    has no controller) keeps the entries of the queue and their order: the
    entries of the job [id] get the priority [p], the others are as they
    were; it returns whether there was such an entry, and then records [p]
    in [jobMap].  Nothing is emitted and no job starts, not even when the
    new priority is the greatest. *)
Theorem setPriority_keeps_the_order (id : string) (p : jsnum) (s : state)
    (info : jobInfo) :
  isDestroyed (this s) = false ->
  jobMap (this s) !! id = Some info -> controller info = None ->
  exists s',
    setPriority id p s = Ok (queued id (queue (this s))) s'
    /\ queue (this s') = retarget id p <$> queue (this s)
    /\ jobMap (this s')
       = (if queued id (queue (this s))
          then <[id := {| priority := p; controller := None;
                          timeoutId := None |}]> (jobMap (this s))
          else jobMap (this s))
    /\ running (this s') = running (this s)
    /\ flights s' = flights s
    /\ log s' = log s.
Proof.
  intros Hd Hinfo Hc. unfold setPriority, mbind, M_bind, self. rewrite Hd, Hinfo, Hc.
  pose proof (toArray_fst (queue (this s))) as Harr.
  destruct (PriorityQueue.toArray (queue (this s))) as [queueArray restored].
  simpl in Harr. subst queueArray.
  unfold PriorityQueue.clear, Queue.clear. rewrite reprioritize_map. simpl.
  destruct (queued id (queue (this s))); eexists; split; try done.
Qed.

Lemma setPriority_keeps_the_order_witness :
  (isDestroyed (this one_pending) = false
   /\ jobMap (this one_pending) !! "b"%string
      = Some {| priority := Fin 0; controller := None; timeoutId := None |}
   /\ controller {| priority := Fin 0; controller := None; timeoutId := None |}
      = None)
  /\ exists s',
       setPriority "b" (Fin 5) one_pending
       = Ok (queued "b" (queue (this one_pending))) s'
       /\ queue (this s') = retarget "b" (Fin 5) <$> queue (this one_pending)
       /\ jobMap (this s')
          = (if queued "b" (queue (this one_pending))
             then <["b"%string := {| priority := Fin 5; controller := None;
                                     timeoutId := None |}]>
                    (jobMap (this one_pending))
             else jobMap (this one_pending))
       /\ running (this s') = running (this one_pending)
       /\ flights s' = flights one_pending
       /\ log s' = log one_pending.
Proof.
  assert (isDestroyed (this one_pending) = false) as Hd by (by vm_compute).
  assert (jobMap (this one_pending) !! "b"%string
          = Some {| priority := Fin 0; controller := None; timeoutId := None |})
    as Hb by (by vm_compute).
  split; [by split_and!|].
  exact (setPriority_keeps_the_order "b" (Fin 5) one_pending _ Hd Hb eq_refl).
Defined.

Lemma emit_no_listeners rec ev i s :
  isDestroyed (this s) = false -> eventListeners (this s) !! ev = None ->
  emit rec ev i s = Ok tt (with_log (log s ++ [Emitted ev i]) s).
Proof.
  intros Hd Hev. unfold emit, mbind, M_bind, self, note, modify.
  by rewrite Hd, Hev.
Qed.

Lemma process_loop_throws rec s q' :
  may_start (this s) = true ->
  PriorityQueue.dequeue same_item (queue (this s)) = PriorityQueue.Throws q' ->
  process_loop rec s = Thrown (with_this (set_queue q' (this s)) s).
Proof.
  intros Hm Hq. unfold process_loop, dequeue_item, mbind, M_bind, self.
  by rewrite Hm, Hq.
Qed.

Lemma processNextJobs_throws fuel s q' :
  may_start (this s) = true ->
  (truthy (intervalCap (this s))
   && (default 0 (intervalCap (this s)) <=? intervalCount (this s))) = false ->
  PriorityQueue.dequeue same_item (queue (this s)) = PriorityQueue.Throws q' ->
  processNextJobs (run (S fuel)) s = Thrown (with_this (set_queue q' (this s)) s).
Proof.
  intros Hm Hgate Hq. unfold processNextJobs, mbind, M_bind, self.
  assert ((isDestroyed (this s) || isPaused (this s)) = false) as ->.
  { unfold may_start in Hm. by destruct (isDestroyed (this s)), (isPaused (this s)). }
  rewrite Hgate. cbn [run dispatch]. by rewrite (process_loop_throws _ s q').
Qed.

(** X18. A job added with the priority [-Infinity] to a new queue that
    starts jobs by itself: [add] throws (the [TypeError] of [dequeue], which
    selects no entry), after [ADDED] was emitted.  The job is lost from the
    queue and does not run, and its id stays in [jobMap]. *)
Theorem add_minus_infinity_throws (options : JobQueueOptions) (fuel : nat)
    (job : prog) (signal : option nat) (id : option string) (random : string) :
  0 < opt_concurrency options ->
  opt_autoStart options <> Some false ->
  (forall cap, opt_intervalCap options = Some cap -> 0 <= cap) ->
  exists s',
    add (run (S fuel)) job (Some NegInf) signal id random (new options)
    = Thrown s'
    /\ log s' = [Emitted ADDED (Some (given_id id random))]
    /\ queue (this s') = []
    /\ running (this s') = 0 /\ flights s' = []
    /\ jobMap (this s') !! given_id id random
       = Some {| priority := NegInf; controller := None; timeoutId := None |}.
Proof.
  intros Hc Ha Hcap.
  unfold add. unfold mbind at 1, M_bind at 1, self at 1.
  change (isDestroyed (this (new options))) with false. cbv iota.
  fold (given_id id random). change (js_truthy NegInf) with true. cbv iota.
  unfold mbind, M_bind, update, modify, get, self.
  set (s1 := with_this _ (with_fresh _ _)).
  rewrite (emit_no_listeners _ ADDED _ s1) by done.
  set (s2 := with_log _ s1).
  assert ((autoStart (this s2) && negb (isPaused (this s2))) = true) as ->.
  { unfold autoStart. simpl. by destruct (opt_autoStart options) as [[]|]. }
  rewrite (processNextJobs_throws fuel s2 []).
  - eexists. split; [reflexivity|]. simpl. split_and!; try done.
    by rewrite lookup_insert_eq.
  - unfold may_start, concurrency, intervalCap. simpl.
    assert ((0 <? opt_concurrency options) = true) as -> by (apply Z.ltb_lt; lia).
    destruct (opt_intervalCap options) as [cap|] eqn:E; [|done]. simpl.
    specialize (Hcap cap eq_refl). destruct (cap =? 0) eqn:E0; [done|]. simpl.
    apply Z.eqb_neq in E0. apply Z.ltb_lt. lia.
  - unfold intervalCap. simpl.
    destruct (opt_intervalCap options) as [cap|] eqn:E; [|done]. simpl.
    specialize (Hcap cap eq_refl). destruct (cap =? 0) eqn:E0; [done|]. simpl.
    apply Z.eqb_neq in E0. apply Z.leb_gt. lia.
  - done.
Qed.

Lemma add_minus_infinity_throws_witness :
  (0 < opt_concurrency (plain 1)
   /\ opt_autoStart (plain 1) <> Some false
   /\ (forall cap, opt_intervalCap (plain 1) = Some cap -> 0 <= cap))
  /\ exists s',
       add (run 1) [] (Some NegInf) None (Some "a"%string) EmptyString
         (new (plain 1))
       = Thrown s'
       /\ log s' = [Emitted ADDED (Some (given_id (Some "a"%string) EmptyString))]
       /\ queue (this s') = []
       /\ running (this s') = 0 /\ flights s' = []
       /\ jobMap (this s') !! given_id (Some "a"%string) EmptyString
          = Some {| priority := NegInf; controller := None; timeoutId := None |}.
Proof.
  assert (0 < opt_concurrency (plain 1)) as Hc by (simpl; lia).
  assert (opt_autoStart (plain 1) <> Some false) as Ha by done.
  assert (forall cap, opt_intervalCap (plain 1) = Some cap -> 0 <= cap) as Hcap
    by done.
  split; [by split_and!|].
  exact (add_minus_infinity_throws (plain 1) 0 [] None (Some "a"%string)
           EmptyString Hc Ha Hcap).
Defined.

Lemma splice_first_middle (l : listener) (pre rest : list listener) :
  Forall (fun x => listener_id x <> listener_id l) pre ->
  splice_first l (pre ++ l :: rest) = pre ++ rest.
Proof.
  intros Hpre. unfold splice_first. rewrite list_find_app_r.
  - simpl. unfold same_listener. rewrite decide_True by (by apply bool_decide_pack).
    simpl. apply delete_middle.
  - apply list_find_None. eapply Forall_impl; [done|]. intros x Hx.
    unfold same_listener. by intros ?%bool_decide_unpack.
Qed.





Lemma arrays_abort_all entries (s : state) :
  arrays (abort_all entries s) = arrays s.
Proof.
  revert s. induction entries as [|[id info] entries IH]; intros s; [done|].
  unfold abort_all in *. simpl. rewrite IH.
  by destruct (timeoutId info), (controller info).
Qed.








(** X15. [off(event, listener)] takes the first registration of the
    listener out of the array of the event and no other: a listener that
    was registered twice stays registered once.  If the listener is not
    registered for the event, nothing changes.  Nothing is emitted. *)
Theorem off_removes_the_first_registration (ev : JobQueueEvent)
    (l : listener) (s : state) (a : nat) (ls : list listener) :
  isDestroyed (this s) = false ->
  eventListeners (this s) !! ev = Some a ->
  arrays s !! a = Some ls ->
  exists s', off ev l s = Ok tt s'
    /\ this s' = this s /\ log s' = log s
    /\ (forall pre post,
          ls = pre ++ l :: post ->
          Forall (fun x => listener_id x <> listener_id l) pre ->
          arrays s' !! a = Some (pre ++ post))
    /\ (Forall (fun x => listener_id x <> listener_id l) ls ->
        arrays s' !! a = Some ls).
Proof.
  intros Hd Hev Harr. rewrite (off_existing ev l s a) by done.
  eexists. split; [done|]. cbn [this log arrays with_arrays].
  rewrite list_lookup_alter, decide_True, Harr by done. simpl.
  split_and!; try done.
  - intros pre post -> Hpre. by rewrite splice_first_middle.
  - intros Hls. f_equal. unfold splice_first.
    assert (list_find (fun x => same_listener x l) ls = None) as ->; [|done].
    apply list_find_None. eapply Forall_impl; [done|]. intros x Hx.
    unfold same_listener. by intros ?%bool_decide_unpack.
Qed.

Lemma off_removes_the_first_registration_witness :
  (isDestroyed (this two_listeners) = false
   /\ eventListeners (this two_listeners) !! PAUSED = Some 0%nat
   /\ arrays two_listeners !! 0%nat
      = Some [Plain (silent 1); Plain (silent 3)])
  /\ exists s', off PAUSED (Plain (silent 3)) two_listeners = Ok tt s'
       /\ this s' = this two_listeners /\ log s' = log two_listeners
       /\ (forall pre post,
             [Plain (silent 1); Plain (silent 3)]
             = pre ++ Plain (silent 3) :: post ->
             Forall (fun x => listener_id x <> listener_id (Plain (silent 3)))
               pre ->
             arrays s' !! 0%nat = Some (pre ++ post))
       /\ (Forall (fun x => listener_id x <> listener_id (Plain (silent 3)))
             [Plain (silent 1); Plain (silent 3)] ->
           arrays s' !! 0%nat = Some [Plain (silent 1); Plain (silent 3)]).
Proof.
  assert (isDestroyed (this two_listeners) = false) as H1 by (by vm_compute).
  assert (eventListeners (this two_listeners) !! PAUSED = Some 0%nat) as H2
    by (by vm_compute).
  assert (arrays two_listeners !! 0%nat
          = Some [Plain (silent 1); Plain (silent 3)]) as H3 by (by vm_compute).
  split; [by split_and!|].
  exact (off_removes_the_first_registration PAUSED (Plain (silent 3))
           two_listeners 0 _ H1 H2 H3).
Defined.




(** *** The interval cap with inert callbacks *)

Lemma starts_app l1 l2 : starts (l1 ++ l2) = starts l1 + starts l2.
Proof. unfold starts. rewrite filter_app, length_app. lia. Qed.

Lemma starts_none l : Forall (fun e => is_start e = false) l -> starts l = 0.
Proof.
  intros Hl. unfold starts. induction Hl as [|e l He _ IH]; [done|].
  rewrite filter_cons_False; [done|]. rewrite He. by intros [].
Qed.

Lemma starts_nonneg l : 0 <= starts l.
Proof. unfold starts. lia. Qed.

(** *** Inert listeners *)

Lemma calm_same s s' :
  arrays s' = arrays s -> queue (this s') = queue (this s) ->
  calm_state s -> calm_state s'.
Proof. unfold calm_state. by intros -> ->. Qed.

Lemma calm_alter (f : list listener -> list listener) a s s' :
  (forall ls, Forall calm_listener ls -> Forall calm_listener (f ls)) ->
  arrays s' = alter f a (arrays s) -> queue (this s') = queue (this s) ->
  calm_state s -> calm_state s'.
Proof.
  unfold calm_state. intros Hf -> -> [Ha Hq]. split; [|done].
  apply Forall_forall. intros ls Hls.
  apply list_elem_of_lookup in Hls as [i Hi].
  rewrite list_lookup_alter in Hi. destruct (decide (a = i)) as [->|].
  - destruct (arrays s !! i) as [ls0|] eqn:E; [|done]. simpl in Hi.
    injection Hi as <-. apply Hf. rewrite Forall_forall in Ha. apply Ha.
    apply list_elem_of_lookup. eauto.
  - rewrite Forall_forall in Ha. apply Ha. apply list_elem_of_lookup. eauto.
Qed.

Lemma splice_first_calm l ls :
  Forall calm_listener ls -> Forall calm_listener (splice_first l ls).
Proof.
  intros Hls. unfold splice_first. destruct (list_find _ ls) as [[i x]|]; [|done].
  rewrite delete_take_drop. apply Forall_app. split.
  - by apply Forall_take.
  - by apply Forall_drop.
Qed.

Lemma calm_lookup s a i l :
  calm_state s -> arrays s !! a ≫= (fun ls => ls !! i) = Some l ->
  calm_listener l.
Proof.
  intros [Ha _] Hl. destruct (arrays s !! a) as [ls|] eqn:E; [|done].
  simpl in Hl. rewrite Forall_forall in Ha.
  assert (Forall calm_listener ls) as Hls
    by (apply Ha, list_elem_of_lookup; eauto).
  rewrite Forall_forall in Hls. apply Hls, list_elem_of_lookup. eauto.
Qed.

Lemma inside_refl s : calm_state s -> inside s s.
Proof. intros Hc. split_and!; try done. exists []. by rewrite app_nil_r. Qed.

Lemma inside_step s0 s s' es :
  inside s0 s -> calm_state s' -> this s' = this s ->
  controllers s' = controllers s -> log s' = log s ++ es ->
  Forall (fun e => is_start e = false) es -> inside s0 s'.
Proof.
  intros (_ & Ht & Hc & l & Hl & Hall) Hcalm Ht' Hc' Hl' Hes.
  split_and!; [done|congruence..|]. exists (l ++ es).
  rewrite Hl', Hl, app_assoc. split; [done|]. by apply Forall_app.
Qed.

Ltac ins :=
  match goal with
  | H : inside ?s0 ?s |- inside _ ?s' =>
      first
        [ exact H
        | eapply (inside_step s0 s s' _ H);
          [ first [ eapply calm_same; [sstate; reflexivity..|by destruct H]
                  | eapply calm_alter;
                    [apply splice_first_calm|sstate; reflexivity..|by destruct H] ]
          | sstate; reflexivity
          | sstate; reflexivity
          | sstate; first [ reflexivity | symmetry; apply app_nil_r ]
          | by repeat constructor ] ]
  end.

Section Inside.
Variable rec : call -> M unit.
Hypothesis rec_inside : forall s0 k, listening k -> passes (inside s0) (rec k).

Lemma off_inside s0 ev l : passes (inside s0) (off ev l).
Proof. intros s Hs. unfold off. wp_steps; by ins. Qed.

Lemma call_fn_inside s0 f : inert_fn f -> passes (inside s0) (call_fn rec f).
Proof.
  intros Hf s Hs. unfold call_fn. wp_steps. rewrite (Hf (calls s)).
  assert (inside s0 (with_log (log s ++ [Called (FnId (fn_name f))]) s)) as Hs1
    by ins.
  apply rec_inside; [done|]. by ins.
Qed.

Lemma invoke_inside s0 l : calm_listener l -> passes (inside s0) (invoke rec l).
Proof.
  intros Hl s Hs. destruct l as [f|w ev f]; cbn [invoke].
  - by apply call_fn_inside.
  - apply wp_bind, wp_note.
    assert (inside s0 (with_log (log s ++ [Called (OnceId w)]) s)) as Hs1 by ins.
    apply wp_bind. eapply wp_mono; [by apply off_inside| |done].
    intros ? s' Hs'. by apply call_fn_inside.
Qed.

Lemma emit_from_inside s0 a i : passes (inside s0) (emit_from rec a i).
Proof.
  intros s Hs. unfold emit_from. apply wp_bind, wp_get.
  destruct (arrays s !! a ≫= (fun ls => ls !! i)) as [l|] eqn:Hl;
    [|by apply wp_ret].
  pose proof (calm_lookup s a i l (proj1 Hs) Hl) as Hcalm.
  apply wp_bind. eapply wp_mono; [by apply invoke_inside| |done].
  intros ? s' Hs'. by apply rec_inside.
Qed.
End Inside.

Lemma run_inside (fuel : nat) s0 k :
  listening k -> passes (inside s0) (run fuel k).
Proof.
  revert s0 k. induction fuel as [|fuel IH]; intros s0 k Hk; [by intros s Hs|].
  cbn [run]. destruct k as [p|a i|]; [| |done]; cbn [dispatch].
  - simpl in Hk. subst p. intros s Hs. by apply wp_ret.
  - by apply emit_from_inside.
Qed.

(** An emission on a queue with inert listeners does not throw: the event
    is in the log, the listeners have been called, nothing else has
    changed. *)
Lemma emit_inside (fuel : nat) ev id s :
  calm_state s ->
  wp (emit (run fuel) ev id)
     (fun _ s' =>
        if isDestroyed (this s) then s' = s
        else inside (with_log (log s ++ [Emitted ev id]) s) s')
     (fun _ => False) s.
Proof.
  intros Hc. unfold emit. apply wp_bind, wp_self.
  destruct (isDestroyed (this s)) eqn:Hd; [by apply wp_ret|].
  apply wp_bind, wp_note.
  assert (inside (with_log (log s ++ [Emitted ev id]) s)
            (with_log (log s ++ [Emitted ev id]) s)) as Hin.
  { apply inside_refl. by eapply calm_same. }
  destruct (eventListeners (this s) !! ev); [|by apply wp_ret].
  by apply run_inside.
Qed.

(** *** The interval cap *)

Lemma capped_step base cap s s' es :
  capped base cap s -> calm_state s' ->
  config (this s') = config (this s) ->
  log s' = log s ++ es -> Forall (fun e => is_start e = false) es ->
  (isDestroyed (this s') = true
   \/ (isDestroyed (this s') = isDestroyed (this s)
       /\ intervalCount (this s') = intervalCount (this s))) ->
  capped base cap s'.
Proof.
  intros (_ & Hcap & l & Hl & Hle & Hd) Hcalm Hcfg Hlog Hes Hd'.
  split_and!; [done|by rewrite Hcfg|]. exists (l ++ es).
  rewrite Hlog, Hl, app_assoc, starts_app, (starts_none es) by done.
  split_and!; [done|lia|].
  destruct Hd' as [?|[Hd1 Hd2]]; [by left|]. rewrite Hd1, Hd2.
  destruct Hd as [?|?]; [by left|right; lia].
Qed.

Lemma capped_inside base cap s0 s :
  capped base cap s0 -> inside s0 s -> capped base cap s.
Proof.
  intros Hs0 (Hcalm & Ht & _ & l & Hl & Hall).
  apply (capped_step base cap s0 s l Hs0); try done; rewrite ?Ht; auto.
Qed.

Ltac calm_tac :=
  first
    [ eapply calm_same; [sstate; reflexivity..|]; by eauto
    | eapply calm_alter;
      [apply splice_first_calm|sstate; reflexivity..|]; by eauto ].

Ltac cp :=
  match goal with
  | H : capped ?base ?cap ?s |- capped _ _ ?s' =>
      first
        [ exact H
        | eapply (capped_step base cap s s' _ H);
          [ destruct H as (? & _); calm_tac
          | sstate; reflexivity
          | sstate; first [ reflexivity | symmetry; apply app_nil_r ]
          | by repeat constructor
          | first [ left; sstate; by rewrite ?this_abort_all
                  | right; split; sstate; reflexivity ] ] ]
  end.

(** [cp], with the proof that the listeners and the queued jobs are still
    inert given by [tac]. *)
Ltac cp_by tac :=
  match goal with
  | H : capped ?base ?cap ?s |- capped _ _ ?s' =>
      eapply (capped_step base cap s s' _ H);
      [ destruct H as (? & _); tac
      | sstate; rewrite ?this_abort_all; reflexivity
      | sstate; rewrite ?log_abort_all;
        first [ reflexivity | symmetry; apply app_nil_r ]
      | by repeat constructor
      | first [ left; sstate; by rewrite ?this_abort_all
              | right; split; sstate; reflexivity ] ]
  end.

Ltac call_cp lem :=
  eapply wp_mono;
  [eapply lem; try done; try (by cp) | intros ? ? ? | intros ? ?; try done].

Section Capped.
Variables (base : list logEntry) (cap : Z).
Hypothesis cap_positive : 0 < cap.
Variable fuel : nat.
Hypothesis run_capped : forall k, working k -> keeps (capped base cap) (run fuel k).

Lemma emit_capped ev id :
  is_start (Emitted ev id) = false ->
  keeps (capped base cap) (emit (run fuel) ev id).
Proof.
  intros Hev s Hs.
  eapply wp_mono; [apply emit_inside; by destruct Hs| |done].
  intros ? s' Hs'. destruct (isDestroyed (this s)); [by subst|].
  eapply capped_inside; [|done]. cp.
Qed.

Lemma off_capped ev l : keeps (capped base cap) (off ev l).
Proof. intros s Hs. unfold off. wp_steps; by cp. Qed.

Lemma call_fn_capped f :
  inert_fn f -> keeps (capped base cap) (call_fn (run fuel) f).
Proof.
  intros Hf s Hs. unfold call_fn. wp_steps. rewrite (Hf (calls s)).
  assert (capped base cap (with_log (log s ++ [Called (FnId (fn_name f))]) s))
    as Hs1 by cp.
  apply run_capped; [by constructor|]. by cp.
Qed.

Lemma processNextJobs_capped :
  keeps (capped base cap) (processNextJobs (run fuel)).
Proof.
  intros s Hs. unfold processNextJobs. wp_steps; try by cp.
  call_cp run_capped. wp_steps; try by cp.
  call_cp (emit_capped EMPTY). wp_steps; try by cp. by apply emit_capped.
Qed.

Lemma runJob_catch_capped id s :
  capped base cap s ->
  wp (runJob_catch (run fuel) id) (fun b s' => b = false /\ capped base cap s')
     (capped base cap) s.
Proof.
  intros Hs. unfold runJob_catch. wp_steps; [by split|].
  call_cp (emit_capped ERROR). by wp_steps.
Qed.

Lemma runJob_finally_capped id t :
  keeps (capped base cap) (runJob_finally (run fuel) id t).
Proof.
  intros s Hs. unfold runJob_finally. wp_steps; try by cp.
  all: match goal with
       | |- wp _ _ _ ?s1 => assert (capped base cap s1) as Hs1 by cp
       end.
  all: by apply processNextJobs_capped.
Qed.
Lemma run_nil {Q : unit -> state -> Prop} {E : state -> Prop} s :
  Q tt s -> wp (run fuel (RunProg [])) Q E s.
Proof. intros HQ. unfold wp. by destruct fuel. Qed.

(** The job has started: [NEXT] is in the log, and [intervalCount] is one
    higher once the loop of [processNextJobs] has counted it. *)
Lemma started_capped id fl s s' :
  below_cap base cap s ->
  inside (with_log (log s ++ [Emitted NEXT (Some id)]) s) s' ->
  capped base cap (bump (with_flights fl s')).
Proof.
  intros ((Hc & Hcap & l & Hl & Hle & Hd) & Hnd & Hlt).
  intros (Hc' & Ht & _ & l' & Hl' & Hall). unfold bump, capped. sstate.
  split_and!.
  - eapply calm_same; [sstate; reflexivity..|done].
  - by rewrite Ht.
  - exists (l ++ [Emitted NEXT (Some id)] ++ l'). rewrite Hl', Hl, Ht.
    rewrite <- !app_assoc, !starts_app, (starts_none l') by done.
    change (starts [Emitted NEXT (Some id)]) with 1.
    destruct Hd as [?|?]; [congruence|].
    split_and!; [done|lia|right; lia].
Qed.

Lemma runJob_try_capped id t c E s :
  below_cap base cap s -> controllers s !! c = Some false ->
  wp (protected (run fuel) id t
        (q ← self;
         if isDestroyed q then abort_controller c;; mret false
         else
           emit (run fuel) NEXT (Some id);;
           s ← get;
           if default false (controllers s !! c) then throw
           else
             run fuel (RunProg []);;
             modify (fun s =>
               with_flights
                 (flights s ++ [Some {| fl_id := id; fl_timeoutId := t |}]) s);;
             mret true))
     (fun _ s' => capped base cap (bump s')) E s.
Proof.
  intros Hs Hc. apply wp_protected, wp_try_catch. apply wp_bind, wp_self.
  destruct Hs as (Hcp & Hd & Hlt). rewrite Hd. apply wp_bind.
  eapply wp_mono; [apply emit_inside; by destruct Hcp| |done].
  intros ? s' Hs'. rewrite Hd in Hs'. apply wp_bind, wp_get.
  assert (controllers s' = controllers s) as -> by (by destruct Hs' as (_ & _ & -> & _)).
  rewrite Hc. simpl. apply wp_bind, run_nil. apply wp_bind, wp_modify, wp_ret.
  by eapply started_capped.
Qed.

Lemma runJob_capped it E s :
  below_cap base cap s -> aborted s (o_signal (options it)) = false ->
  job it = [] ->
  wp (runJob (run fuel) it) (fun _ s' => capped base cap (bump s')) E s.
Proof.
  intros (Hs & Hd & Hlt) Hab Hjob. unfold runJob. rewrite Hjob.
  apply wp_bind, wp_self. rewrite Hd.
  repeat (lazymatch goal with
          | |- wp (protected _ _ _ _) _ _ _ => fail
          | _ => wp_step; sstate
          end).
  all: try (unfold aborted in *; sstate; congruence).
  all: apply runJob_try_capped; repeat case_match; sstate.
  all: try (by apply list_lookup_middle).
  all: split_and!; [by cp|done..].
Qed.
Lemma settle_capped k b : keeps (capped base cap) (settle (run fuel) k b).
Proof.
  intros s Hs. unfold settle. wp_step; sstate. wp_step; sstate.
  destruct (flights s !! k) as [[fl|]|] eqn:Hk; try by wp_steps.
  wp_step; sstate. wp_step; sstate.
  match goal with
  | |- wp _ _ _ ?s1 => assert (capped base cap s1) as Hs1 by cp
  end.
  apply wp_protected, wp_try_catch. unfold runJob_resumed.
  destruct b.
  - apply wp_bind, wp_self. apply wp_bind.
    eapply wp_mono.
    + instantiate (1 := capped base cap). instantiate (1 := fun _ => capped base cap).
      sstate. destruct (isDestroyed (this s)); [by apply wp_ret|].
      by apply emit_capped.
    + intros ? s' Hs'. apply wp_ret. by apply runJob_finally_capped.
    + intros s' Hs'. eapply wp_mono; [by apply runJob_catch_capped| |].
      * intros ? s'' [-> Hs'']. by apply runJob_finally_capped.
      * intros s'' Hs''. by apply runJob_finally_capped.
  - apply wp_throw. eapply wp_mono; [by apply runJob_catch_capped| |].
    + intros ? s'' [-> Hs'']. by apply runJob_finally_capped.
    + intros s'' Hs''. by apply runJob_finally_capped.
Qed.

Lemma calm_queue s s' :
  calm_state s -> arrays s' = arrays s ->
  Forall (fun item => job (PriorityQueue.value item) = []) (queue (this s')) ->
  calm_state s'.
Proof. unfold calm_state. intros [Ha _] ->. done. Qed.

Lemma calm_arrays s s' :
  calm_state s -> Forall (Forall calm_listener) (arrays s') ->
  queue (this s') = queue (this s) ->
  calm_state s'.
Proof. unfold calm_state. intros [_ Hq] ? ->. done. Qed.

Lemma dequeue_item_capped s :
  below_cap base cap s ->
  wp dequeue_item
     (fun v s' =>
        below_cap base cap s'
        /\ match v with Some it => job it = [] | None => True end)
     (capped base cap) s.
Proof.
  intros (Hs & Hd & Hlt). unfold dequeue_item. apply wp_bind, wp_self.
  pose proof (PriorityQueueProps.dequeue_sub same_item (queue (this s))) as Hsub.
  assert (Forall (fun item => job (PriorityQueue.value item) = [])
            (queue (this s))) as Hq by (by destruct Hs as ([_ ?] & _)).
  rewrite Forall_forall in Hq.
  destruct (PriorityQueue.dequeue same_item (queue (this s))) as [v q'|q'].
  - destruct Hsub as [Hsub Hv]. apply wp_bind, wp_update, wp_ret.
    split; [split_and!; [|done..]|].
    + eapply (capped_step base cap s _ [] Hs); sstate; try done.
      * eapply calm_queue; [by destruct Hs|done|]. sstate.
        apply Forall_forall. intros x Hx. by apply Hq, Hsub.
      * by rewrite app_nil_r.
      * by right.
    + destruct v as [it|]; [|done].
      destruct (Hv it eq_refl) as (x & Hx & <-). by apply Hq.
  - subst q'. apply wp_bind, wp_update, wp_throw.
    eapply (capped_step base cap s _ [] Hs); sstate; try done.
    + eapply calm_queue; [by destruct Hs|done|]. sstate. constructor.
    + by rewrite app_nil_r.
    + by right.
Qed.

Lemma may_start_below s :
  capped base cap s -> may_start (this s) = true -> below_cap base cap s.
Proof.
  intros Hs Hm. split; [done|]. unfold may_start, intervalCap in Hm.
  destruct Hs as (_ & Hcap & _). rewrite Hcap in Hm.
  assert (truthy (Some cap) = true) as Ht.
  { unfold truthy. by destruct (Z.eqb_spec cap 0); [lia|]. }
  rewrite Ht in Hm. simpl in Hm.
  destruct (isDestroyed (this s)); [done|]. split; [done|].
  repeat (apply andb_prop in Hm as [Hm ?]). lia.
Qed.

Lemma process_loop_capped : keeps (capped base cap) (process_loop (run fuel)).
Proof.
  intros s Hs. unfold process_loop. apply wp_bind, wp_self.
  destruct (may_start (this s)) eqn:Hm; [|by apply wp_ret].
  pose proof (may_start_below s Hs Hm) as Hb. apply wp_bind.
  eapply wp_mono; [by apply dequeue_item_capped| |done].
  intros [it|] s' [Hs' Hit]; [|apply wp_ret; by destruct Hs'].
  apply wp_bind, wp_get.
  destruct (aborted s' (o_signal (options it))) eqn:Hab.
  - apply wp_bind. destruct Hs' as (Hs' & _).
    call_cp (emit_capped NEXT None). by apply run_capped.
  - apply wp_bind. eapply wp_mono; [by apply runJob_capped| |done].
    intros ? s'' Hs''. apply wp_bind, wp_self. unfold intervalCap.
    assert (opt_intervalCap (config (this s'')) = Some cap) as ->.
    { by destruct Hs'' as (_ & ? & _). }
    assert (truthy (Some cap) = true) as ->.
    { unfold truthy. by destruct (Z.eqb_spec cap 0); [lia|]. }
    apply wp_bind, wp_update. apply wp_bind, wp_self.
    match goal with |- context [if ?b then _ else _] => destruct b end.
    + by apply wp_ret.
    + by apply run_capped.
Qed.
Lemma add_capped p sg id rnd :
  keeps (capped base cap) (add (run fuel) [] p sg id rnd).
Proof.
  intros s Hs. unfold add. wp_steps; try by cp.
  all: match goal with
       | |- wp _ _ _ ?s1 =>
           assert (capped base cap s1) as Hs1
       end.
  all: try (cp_by ltac:(eapply calm_queue; [done|done|]; sstate;
                        apply Forall_app; split; [by destruct H|];
                        by repeat constructor)).
  all: call_cp (emit_capped ADDED); wp_steps; try by cp.
  all: call_cp processNextJobs_capped; by wp_steps.
Qed.

Lemma start_capped : keeps (capped base cap) (start (run fuel)).
Proof.
  intros s Hs. unfold start. wp_steps; try by cp.
  by apply processNextJobs_capped.
Qed.

Lemma pause_capped : keeps (capped base cap) (pause (run fuel)).
Proof.
  intros s Hs. unfold pause. wp_steps; try by cp.
  apply emit_capped; [done|]. by cp.
Qed.

Lemma resume_capped : keeps (capped base cap) (resume (run fuel)).
Proof.
  intros s Hs. unfold resume. wp_steps; try by cp.
  call_cp (emit_capped RESUMED). by apply processNextJobs_capped.
Qed.

Lemma clear_capped : keeps (capped base cap) clear.
Proof.
  intros s Hs. unfold clear. wp_steps; try by cp.
  cp_by ltac:(eapply calm_queue; [done|done|]; sstate; constructor).
Qed.

Lemma size_capped : keeps (capped base cap) size.
Proof. intros s Hs. unfold size. wp_steps; by cp. Qed.

Lemma pending_capped : keeps (capped base cap) pending.
Proof. intros s Hs. unfold pending. wp_steps; by cp. Qed.

Lemma active_capped : keeps (capped base cap) active.
Proof. intros s Hs. unfold active. wp_steps; by cp. Qed.
Lemma retarget_job id p (x : PriorityQueue.item jobItem) :
  job (PriorityQueue.value (retarget id p x)) = job (PriorityQueue.value x).
Proof. unfold retarget. by case_bool_decide. Qed.

Lemma setPriority_capped id p : keeps (capped base cap) (setPriority id p).
Proof.
  intros s Hs. unfold setPriority. wp_steps; try by cp.
  all: match goal with
       | H : reprioritize _ _ _ _ = _ |- _ =>
           rewrite reprioritize_map in H; injection H as <- ?
       end.
  all: match goal with
       | H : PriorityQueue.toArray _ = _ |- _ =>
           pose proof (toArray_fst (queue (this s))) as Harr;
           rewrite H in Harr; simpl in Harr; subst
       end.
  all: cp_by ltac:(eapply calm_queue; [done|done|]; sstate;
                   match goal with
                   | H : calm_state _ |- _ => destruct H as [_ Hq]
                   end;
                   apply Forall_fmap; eapply Forall_impl; [exact Hq|];
                   intros x Hx; simpl; by rewrite retarget_job).
Qed.

Lemma abort_capped id : keeps (capped base cap) (abort id).
Proof.
  intros s Hs. unfold abort. wp_steps; try by cp.
  all: match goal with
       | H : PriorityQueue.toArray _ = _ |- _ =>
           pose proof (toArray_fst (queue (this s))) as Harr;
           rewrite H in Harr; simpl in Harr; subst
       end.
  all: cp_by ltac:(eapply calm_queue; [done|done|]; sstate;
                   match goal with
                   | H : calm_state _ |- _ => destruct H as [_ Hq]
                   end;
                   rewrite Forall_forall in Hq; apply Forall_forall;
                   intros x Hx;
                   match goal with
                   | H : without _ _ _ = _ |- _ =>
                       pose proof (without_sub id (queue (this s))
                                     (PriorityQueue.clear t) false x) as Hsub;
                       rewrite H in Hsub; destruct (Hsub Hx) as [[? _]|Hin];
                       [by apply Hq|by apply elem_of_nil in Hin]
                   end).
Qed.

Lemma capped_listen a l s :
  capped base cap s -> calm_listener l ->
  capped base cap
    (with_arrays (alter (fun listeners => listeners ++ [l]) a (arrays s)) s).
Proof.
  intros Hs Hl. eapply (capped_step base cap s _ [] Hs); sstate; try done.
  - eapply (calm_alter _ a s); [|done..|by destruct Hs].
    intros ls Hls. apply Forall_app. split; [done|]. by repeat constructor.
  - by rewrite app_nil_r.
  - by right.
Qed.

Lemma on_capped ev l :
  calm_listener l -> keeps (capped base cap) (on ev l).
Proof.
  intros Hl s Hs. unfold on. wp_steps; try by cp.
  - by apply capped_listen.
  - match goal with
    | |- capped _ _ (with_arrays (alter ?f ?a ?arr) ?s1) =>
        assert (capped base cap s1) as Hs1
    end.
    { cp_by ltac:(eapply calm_arrays; [done| |done]; sstate;
                  apply Forall_app; split; [by destruct H|];
                  by repeat constructor). }
    exact (capped_listen _ l _ Hs1 Hl).
Qed.

Lemma once_capped ev f :
  inert_fn f -> keeps (capped base cap) (once ev f).
Proof.
  intros Hf s Hs. unfold once. wp_steps; try by cp.
  apply on_capped; [done|]. by cp.
Qed.

Lemma removeAllListeners_capped ev :
  keeps (capped base cap) (removeAllListeners ev).
Proof. intros s Hs. unfold removeAllListeners. wp_steps; by cp. Qed.

Lemma onEmpty_capped f :
  inert_fn f -> keeps (capped base cap) (onEmpty (run fuel) f).
Proof.
  intros Hf s Hs. unfold onEmpty. wp_steps. call_cp on_capped.
  wp_steps; try by cp. by apply call_fn_capped.
Qed.

Lemma onIdle_capped f :
  inert_fn f -> keeps (capped base cap) (onIdle (run fuel) f).
Proof.
  intros Hf s Hs. unfold onIdle. wp_steps. call_cp on_capped.
  wp_steps; try by cp. by apply call_fn_capped.
Qed.

Lemma destroy_capped : keeps (capped base cap) destroy.
Proof.
  intros s Hs. unfold destroy. wp_steps; try by cp.
  cp_by ltac:(split; sstate;
              [rewrite arrays_abort_all; by destruct H|constructor]).
Qed.

Lemma abort_signal_capped n : keeps (capped base cap) (abort_signal n).
Proof. intros s Hs. unfold abort_signal. wp_steps; by cp. Qed.

Lemma call_method_capped m :
  calm_method m -> keeps (capped base cap) (call_method (run fuel) m).
Proof.
  intros Hm s Hs. destruct m; cbn [call_method]; simpl in Hm; wp_steps.
  - subst. call_cp add_capped. by wp_steps.
  - call_cp start_capped. by wp_steps.
  - call_cp pause_capped. by wp_steps.
  - call_cp resume_capped. by wp_steps.
  - call_cp clear_capped. by wp_steps.
  - call_cp size_capped. by wp_steps.
  - call_cp active_capped. by wp_steps.
  - call_cp pending_capped. by wp_steps.
  - call_cp setPriority_capped. by wp_steps.
  - call_cp abort_capped. by wp_steps.
  - call_cp onEmpty_capped. by wp_steps.
  - call_cp onIdle_capped. by wp_steps.
  - call_cp on_capped. by wp_steps.
  - call_cp off_capped. by wp_steps.
  - call_cp once_capped. by wp_steps.
  - call_cp removeAllListeners_capped. by wp_steps.
  - call_cp destroy_capped. by wp_steps.
Qed.

Lemma exec_capped c : calm c -> keeps (capped base cap) (exec (run fuel) c).
Proof.
  intros Hc s Hs. destruct Hc; cbn [exec]; wp_steps; try done.
  - call_cp call_method_capped. wp_steps; try done; by cp.
  - call_cp run_capped. by wp_steps.
  - by apply abort_signal_capped.
Qed.

Lemma exec_prog_capped p :
  Forall calm p -> keeps (capped base cap) (exec_prog (run fuel) p).
Proof.
  induction 1 as [|c p Hc Hp IH]; intros s Hs; cbn [exec_prog]; wp_steps;
    [done|].
  call_cp exec_capped. by apply IH.
Qed.

Lemma dispatch_capped k :
  working k -> keeps (capped base cap) (dispatch (run fuel) k).
Proof.
  destruct k; cbn [dispatch]; intros Hk; [|done|].
  - by apply exec_prog_capped.
  - apply process_loop_capped.
Qed.
End Capped.

Lemma run_capped base cap fuel k :
  0 < cap -> working k -> keeps (capped base cap) (run fuel k).
Proof.
  intros Hcap. revert k. induction fuel as [|fuel IH]; intros k Hk.
  - by intros s Hs.
  - cbn [run]. by apply dispatch_capped.
Qed.

Lemma timeout_fires_capped base cap t : keeps (capped base cap) (timeout_fires t).
Proof. intros s Hs. unfold timeout_fires. wp_steps; by cp. Qed.

(** A window begins wherever the log is cut. *)
Lemma capped_rebase base cap s : capped base cap s -> capped (log s) cap s.
Proof.
  intros (Hc & Hcap & l & Hl & Hle & Hd). split_and!; [done..|].
  exists []. rewrite app_nil_r. split_and!; [done| |].
  - change (starts []) with 0. destruct Hd as [?|?]; pose proof (starts_nonneg l); lia.
  - change (starts []) with 0. destruct Hd as [?|?]; [by left|right].
    pose proof (starts_nonneg l). lia.
Qed.

(** The interval timer begins a new window. *)
Lemma tick_capped base cap fuel s :
  0 < cap -> capped base cap s ->
  wp (tick (run fuel)) (fun _ => capped (log s) cap) (capped (log s) cap) s.
Proof.
  intros Hcap Hs%capped_rebase. unfold tick. wp_steps; try by cp.
  apply processNextJobs_capped; [by intros; apply run_capped|].
  destruct Hs as (Hc & Hcfg & l & Hl & Hle & Hd). split_and!.
  - by eapply calm_same.
  - done.
  - exists []. sstate. rewrite app_nil_r. change (starts []) with 0.
    split_and!; [done|lia|right; lia].
Qed.

Lemma step_capped base cap fuel a :
  0 < cap -> calm_action a -> a <> Tick ->
  keeps (capped base cap) (step fuel a).
Proof.
  intros Hcap Ha Hnt. destruct a; cbn [step]; [| |done|].
  - by apply run_capped.
  - apply settle_capped. by intros; apply run_capped.
  - apply timeout_fires_capped.
Qed.

Lemma steps_capped base cap fuel tr s s' :
  0 < cap -> Forall calm_action tr -> Forall (fun a => a <> Tick) tr ->
  capped base cap s -> steps fuel tr s = Some s' -> capped base cap s'.
Proof.
  intros Hcap Hcalm Hnt. revert s.
  induction tr as [|a tr IH]; intros s Hs; cbn [steps].
  - by intros [= <-].
  - apply Forall_cons in Hcalm as [Ha Hcalm].
    apply Forall_cons in Hnt as [Hna Hnt].
    pose proof (step_capped base cap fuel a Hcap Ha Hna s Hs) as Hstep.
    unfold wp in Hstep. destruct (step fuel a s); [by apply IH..|done].
Qed.

(** Whatever ran before, some window holds. *)
Lemma steps_some_window cap fuel tr s s' :
  0 < cap -> Forall calm_action tr ->
  (exists base, capped base cap s) -> steps fuel tr s = Some s' ->
  exists base, capped base cap s'.
Proof.
  intros Hcap Hcalm. revert s.
  induction tr as [|a tr IH]; intros s [base Hs]; cbn [steps].
  - intros [= <-]. by exists base.
  - apply Forall_cons in Hcalm as [Ha Hcalm].
    assert (a = Tick \/ a <> Tick) as [->|Hna]
      by (destruct a; first [by left|by right]).
    + pose proof (tick_capped base cap fuel s Hcap Hs) as Hstep.
      cbn [step]. unfold wp in Hstep.
      destruct (tick (run fuel) s); [apply IH; eauto..|done].
    + pose proof (step_capped base cap fuel a Hcap Ha Hna s Hs) as Hstep.
      unfold wp in Hstep. destruct (step fuel a s); [apply IH; eauto..|done].
Qed.
Lemma new_capped options cap :
  opt_intervalCap options = Some cap -> 0 < cap ->
  capped [] cap (new options).
Proof.
  intros Hopt Hcap. split_and!; [by split; constructor|done|].
  exists []. split_and!; [done|by change (starts []) with 0; lia|].
  right. change (starts []) with 0. simpl. lia.
Qed.

(** X19. With an interval cap [cap > 0], and as long as every listener,
    every callback and every job function given to the queue does nothing
    in its synchronous part, at most [cap] jobs start (a [next] event with
    the id of the job is emitted) in a stretch that holds at most one tick
    of the interval timer, and only as its first action; whatever happened
    before. *)
Theorem interval_cap_with_inert_callbacks (options : JobQueueOptions)
    (cap : Z) (fuel : nat) (before window : list action) (s1 s2 : state) :
  opt_intervalCap options = Some cap -> 0 < cap ->
  Forall calm_action before -> Forall calm_action window ->
  one_window window ->
  steps fuel before (new options) = Some s1 ->
  steps fuel window s1 = Some s2 ->
  exists l, log s2 = log s1 ++ l /\ starts l <= cap.
Proof.
  intros Hopt Hcap Hbefore Hcalm Hwin Hs1 Hs2.
  assert (exists base, capped base cap s1) as [base Hb].
  { eapply steps_some_window; [done|exact Hbefore| |exact Hs1].
    exists []. by apply new_capped. }
  assert (capped (log s1) cap s2) as (_ & _ & l & Hl & Hle & _);
    [|by exists l].
  destruct window as [|a rest].
  { injection Hs2 as <-. by eapply capped_rebase. }
  simpl in Hwin. apply Forall_cons in Hcalm as [Ha Hrest].
  assert (a = Tick \/ a <> Tick) as [->|Hna]
    by (destruct a; first [by left|by right]).
  - cbn [steps step] in Hs2.
    pose proof (tick_capped base cap fuel s1 Hcap Hb) as Hstep.
    unfold wp in Hstep.
    destruct (tick (run fuel) s1) as [? s|s|]; [..|done].
    all: by eapply (steps_capped (log s1) cap fuel rest s s2).
  - eapply (steps_capped (log s1) cap fuel (a :: rest) s1 s2); try done.
    + by constructor.
    + by constructor.
    + by eapply capped_rebase.
Qed.

Lemma interval_cap_with_inert_callbacks_witness :
  (opt_intervalCap (windowed 5 2 1000) = Some 2 /\ 0 < 2
   /\ Forall calm_action five_added /\ Forall calm_action next_window
   /\ one_window next_window
   /\ steps 20 five_added (new (windowed 5 2 1000)) = Some five_added_state
   /\ steps 20 next_window five_added_state = Some next_window_state)
  /\ exists l, log next_window_state = log five_added_state ++ l
               /\ starts l <= 2.
Proof.
  assert (Forall calm_action five_added) as H1.
  { repeat first [constructor | intros ? | reflexivity]. }
  assert (Forall calm_action next_window) as H2.
  { repeat first [constructor | intros ? | reflexivity]. }
  assert (one_window next_window) as H3.
  { simpl. by repeat constructor. }
  assert (steps 20 five_added (new (windowed 5 2 1000)) = Some five_added_state)
    as H4 by (by vm_compute).
  assert (steps 20 next_window five_added_state = Some next_window_state)
    as H5 by (by vm_compute).
  split; [split_and!; [reflexivity|lia|done..]|].
  exact (interval_cap_with_inert_callbacks (windowed 5 2 1000) 2 20
           five_added next_window five_added_state next_window_state
           eq_refl eq_refl H1 H2 H3 H4 H5).
Defined.

(** *** A queue that does not start by itself *)

Lemma holding_alter (f : list listener -> list listener) a arrs :
  (forall ls, Forall no_start_listener ls -> Forall no_start_listener (f ls)) ->
  Forall (Forall no_start_listener) arrs ->
  Forall (Forall no_start_listener) (alter f a arrs).
Proof.
  intros Hf Ha. apply Forall_forall. intros ls Hls.
  apply list_elem_of_lookup in Hls as [i Hi].
  rewrite list_lookup_alter in Hi. destruct (decide (a = i)) as [->|].
  - destruct (arrs !! i) as [ls0|] eqn:E; [|done]. simpl in Hi.
    injection Hi as <-. apply Hf. rewrite Forall_forall in Ha. apply Ha.
    apply list_elem_of_lookup. eauto.
  - rewrite Forall_forall in Ha. apply Ha. apply list_elem_of_lookup. eauto.
Qed.

Lemma splice_first_no_start l ls :
  Forall no_start_listener ls -> Forall no_start_listener (splice_first l ls).
Proof.
  intros Hls. unfold splice_first. destruct (list_find _ ls) as [[i x]|]; [|done].
  rewrite delete_take_drop. apply Forall_app. split.
  - by apply Forall_take.
  - by apply Forall_drop.
Qed.

Lemma holding_lookup s a i l :
  holding s -> arrays s !! a ≫= (fun ls => ls !! i) = Some l ->
  no_start_listener l.
Proof.
  intros (_ & _ & _ & _ & _ & Ha) Hl.
  destruct (arrays s !! a) as [ls|] eqn:E; [|done].
  simpl in Hl. rewrite Forall_forall in Ha.
  assert (Forall no_start_listener ls) as Hls
    by (apply Ha, list_elem_of_lookup; eauto).
  rewrite Forall_forall in Hls. apply Hls, list_elem_of_lookup. eauto.
Qed.

Ltac hold :=
  unfold holding, autoStart in *; sstate;
  repeat match goal with
         | H : _ /\ _ |- _ => destruct H
         end;
  rewrite ?this_abort_all, ?log_abort_all, ?flights_abort_all,
    ?arrays_abort_all; sstate;
  try congruence;
  split_and!; try done; try congruence;
  try (apply Forall_app; split; [done|by repeat constructor]);
  try (apply holding_alter; [|done]; intros ls Hls;
       first [ by apply splice_first_no_start
             | apply Forall_app; split; [done|by repeat constructor] ]).

Ltac call_hold lem :=
  eapply wp_mono;
  [eapply lem; try done; try (by hold) | intros ? ? ? | intros ? ?; try done].

Section Holding.
Variable rec : call -> M unit.
Hypothesis rec_holding : forall k, held k -> keeps holding (rec k).

Lemma off_holding ev l : keeps holding (off ev l).
Proof. intros s Hs. unfold off. wp_steps; by hold. Qed.

Lemma call_fn_holding f : no_start_fn f -> keeps holding (call_fn rec f).
Proof.
  intros Hf s Hs. unfold call_fn. wp_steps. apply rec_holding; [apply Hf|].
  by hold.
Qed.

Lemma invoke_holding l : no_start_listener l -> keeps holding (invoke rec l).
Proof.
  intros Hl s Hs. destruct l as [f|w ev f]; cbn [invoke].
  - by apply call_fn_holding.
  - wp_steps. call_hold off_holding. by apply call_fn_holding.
Qed.

Lemma emit_holding ev id :
  ev <> NEXT -> keeps holding (emit rec ev id).
Proof.
  intros Hev s Hs. unfold emit. wp_steps; try done.
  all: assert (is_next (Emitted ev id) = false) by (by destruct ev).
  - apply rec_holding; [done|]. by hold.
  - by hold.
Qed.

Lemma emit_from_holding a i : keeps holding (emit_from rec a i).
Proof.
  intros s Hs. unfold emit_from. apply wp_bind, wp_get.
  destruct (arrays s !! a ≫= (fun ls => ls !! i)) as [l|] eqn:Hl;
    [|by apply wp_ret].
  pose proof (holding_lookup s a i l Hs Hl) as Hcalm.
  apply wp_bind. call_hold invoke_holding. by apply rec_holding.
Qed.

Lemma add_holding job p sg id rnd : keeps holding (add rec job p sg id rnd).
Proof.
  intros s Hs. unfold add. wp_steps; try done.
  all: call_hold (emit_holding ADDED); wp_steps; try done.
  all: exfalso.
  all: match goal with
       | H : holding _, Hb : _ && _ = true |- _ =>
           destruct H as (Ha & _); by rewrite Ha in Hb
       end.
Qed.

Lemma pause_holding : keeps holding (pause rec).
Proof.
  intros s Hs. unfold pause. wp_steps; try done.
  apply emit_holding; [done|]. by hold.
Qed.

Lemma clear_holding : keeps holding clear.
Proof. intros s Hs. unfold clear. wp_steps; by hold. Qed.

Lemma size_holding : keeps holding size.
Proof. intros s Hs. unfold size. wp_steps; by hold. Qed.

Lemma pending_holding : keeps holding pending.
Proof. intros s Hs. unfold pending. wp_steps; by hold. Qed.

Lemma active_holding : keeps holding active.
Proof. intros s Hs. unfold active. wp_steps; by hold. Qed.

Lemma setPriority_holding id p : keeps holding (setPriority id p).
Proof. intros s Hs. unfold setPriority. wp_steps; by hold. Qed.

Lemma abort_holding id : keeps holding (abort id).
Proof. intros s Hs. unfold abort. wp_steps; by hold. Qed.

Lemma on_holding ev l : no_start_listener l -> keeps holding (on ev l).
Proof.
  intros Hl s Hs. unfold on. wp_steps; try by hold. hold.
  apply holding_alter.
  - intros ls Hls. apply Forall_app. split; [done|]. by repeat constructor.
  - apply Forall_app. split; [done|]. by repeat constructor.
Qed.

Lemma once_holding ev f : no_start_fn f -> keeps holding (once ev f).
Proof.
  intros Hf s Hs. unfold once. wp_steps; try done.
  apply on_holding; [done|]. by hold.
Qed.

Lemma removeAllListeners_holding ev : keeps holding (removeAllListeners ev).
Proof. intros s Hs. unfold removeAllListeners. wp_steps; by hold. Qed.

Lemma onEmpty_holding f : no_start_fn f -> keeps holding (onEmpty rec f).
Proof.
  intros Hf s Hs. unfold onEmpty. wp_steps. call_hold on_holding.
  wp_steps; try done. by apply call_fn_holding.
Qed.

Lemma onIdle_holding f : no_start_fn f -> keeps holding (onIdle rec f).
Proof.
  intros Hf s Hs. unfold onIdle. wp_steps. call_hold on_holding.
  wp_steps; try done. by apply call_fn_holding.
Qed.

Lemma destroy_holding : keeps holding destroy.
Proof. intros s Hs. unfold destroy. wp_steps; by hold. Qed.

Lemma abort_signal_holding n : keeps holding (abort_signal n).
Proof. intros s Hs. unfold abort_signal. wp_steps; by hold. Qed.

Lemma call_method_holding m :
  m <> Start -> m <> Resume ->
  (forall f, callback m = Some f -> no_start_fn f) ->
  keeps holding (call_method rec m).
Proof.
  intros H1 H2 Hf s Hs. destruct m; cbn [call_method]; try congruence;
    wp_steps.
  - call_hold add_holding. by wp_steps.
  - call_hold pause_holding. by wp_steps.
  - call_hold clear_holding. by wp_steps.
  - call_hold size_holding. by wp_steps.
  - call_hold active_holding. by wp_steps.
  - call_hold pending_holding. by wp_steps.
  - call_hold setPriority_holding. by wp_steps.
  - call_hold abort_holding. by wp_steps.
  - call_hold onEmpty_holding; [by apply Hf|]. by wp_steps.
  - call_hold onIdle_holding; [by apply Hf|]. by wp_steps.
  - call_hold on_holding; [by apply Hf|]. by wp_steps.
  - call_hold off_holding. by wp_steps.
  - call_hold once_holding; [by apply Hf|]. by wp_steps.
  - call_hold removeAllListeners_holding. by wp_steps.
  - call_hold destroy_holding. by wp_steps.
Qed.

Lemma exec_holding c : no_start c -> keeps holding (exec rec c).
Proof.
  intros Hc s Hs. destruct Hc as [m H1 H2 Hf|body Hbody| |n]; cbn [exec];
    wp_steps; try done.
  - call_hold call_method_holding.
    + intros f Hm n. by apply Hf.
    + wp_steps; try done; by hold.
  - call_hold rec_holding. by wp_steps.
  - by apply abort_signal_holding.
Qed.

Lemma exec_prog_holding p : Forall no_start p -> keeps holding (exec_prog rec p).
Proof.
  induction 1 as [|c p Hc Hp IH]; intros s Hs; cbn [exec_prog]; wp_steps;
    [done|].
  call_hold exec_holding. by apply IH.
Qed.

Lemma settle_holding k b : keeps holding (settle rec k b).
Proof.
  intros s Hs. unfold settle. apply wp_bind, wp_get.
  assert (flights s = []) as -> by (by destruct Hs as (_ & _ & _ & ? & _)).
  by apply wp_ret.
Qed.

Lemma tick_holding : keeps holding (tick rec).
Proof.
  intros s Hs. unfold tick. apply wp_bind, wp_self.
  assert (intervalId (this s) = None) as -> by (by destruct Hs as (_ & ? & _)).
  by apply wp_ret.
Qed.
End Holding.

Lemma timeout_fires_holding t : keeps holding (timeout_fires t).
Proof. intros s Hs. unfold timeout_fires. wp_steps; by hold. Qed.

Lemma run_holding fuel k : held k -> keeps holding (run fuel k).
Proof.
  revert k. induction fuel as [|fuel IH]; intros k Hk; [by intros s Hs|].
  cbn [run]. destruct k as [p|a i|]; [| |done]; cbn [dispatch].
  - by apply exec_prog_holding.
  - by apply emit_from_holding.
Qed.

Lemma step_holding fuel a : no_start_action a -> keeps holding (step fuel a).
Proof.
  intros Ha. destruct a; cbn [step].
  - by apply run_holding.
  - apply settle_holding.
  - apply tick_holding.
  - apply timeout_fires_holding.
Qed.

Lemma steps_holding fuel tr s s' :
  Forall no_start_action tr -> holding s -> steps fuel tr s = Some s' ->
  holding s'.
Proof.
  intros Htr. revert s. induction Htr as [|a tr Ha Htr IH]; intros s Hs;
    cbn [steps].
  - by intros [= <-].
  - pose proof (step_holding fuel a Ha s Hs) as Hstep. unfold wp in Hstep.
    destruct (step fuel a s); [by apply IH..|done].
Qed.

(** X20. A queue made with [autoStart: false] and without an interval
    timer starts no job until [start] or [resume] is called: as long as the
    code around the queue and the callbacks that it registers call neither
    of them, whatever else is called ([add], [pause], [setPriority],
    [abort], [clear], listeners, ...), no job starts: no [next] event is
    emitted, [running] stays [0] and no call of [runJob] waits at its
    [await]. *)
Theorem autoStart_false_holds_jobs (options : JobQueueOptions) (fuel : nat)
    (tr : list action) (s : state) :
  opt_autoStart options = Some false ->
  truthy (opt_interval options) && truthy (opt_intervalCap options) = false ->
  Forall no_start_action tr ->
  steps fuel tr (new options) = Some s ->
  Forall (fun e => is_next e = false) (log s)
  /\ running (this s) = 0
  /\ flights s = [].
Proof.
  intros Hauto Hint Htr Hs.
  assert (holding (new options)) as Hnew.
  { unfold holding, autoStart. simpl. rewrite Hauto, Hint.
    split_and!; try done; constructor. }
  pose proof (steps_holding fuel tr _ s Htr Hnew Hs) as (_ & _ & ? & ? & ? & _).
  done.
Qed.

Lemma autoStart_false_holds_jobs_witness :
  (opt_autoStart (manual 2) = Some false
   /\ truthy (opt_interval (manual 2)) && truthy (opt_intervalCap (manual 2))
      = false
   /\ Forall no_start_action busy_without_start
   /\ steps 10 busy_without_start (new (manual 2)) = Some still_holding)
  /\ Forall (fun e => is_next e = false) (log still_holding)
  /\ running (this still_holding) = 0
  /\ flights still_holding = [].
Proof.
  assert (Forall no_start_action busy_without_start) as H1.
  { repeat first [ apply Forall_cons; split | apply Forall_nil
                 | apply no_start_Call | done
                 | intros f n [= <-] | intros f n [=] ]. }
  assert (steps 10 busy_without_start (new (manual 2)) = Some still_holding)
    as H2 by (by vm_compute).
  split; [split_and!; [reflexivity|reflexivity|done..]|].
  exact (autoStart_false_holds_jobs (manual 2) 10 busy_without_start
           still_holding eq_refl eq_refl H1 H2).
Defined.
End JobQueueProps.

(** ** [limit] *)

Module LimitProps.
Import Limit LimitSpec.

Lemma thrown_app tasks l1 l2 :
  thrown tasks (l1 ++ l2) = thrown tasks l1 ++ thrown tasks l2.
Proof. unfold thrown. by rewrite filter_app. Qed.

Lemma drop_index (tasks : list task) i t rest :
  drop i tasks = t :: rest ->
  tasks !! i = Some t /\ drop (S i) tasks = rest /\ (i < List.length tasks)%nat.
Proof.
  intros Hd. assert (tasks !! i = Some t) as Hi.
  { pose proof (lookup_drop tasks i 0) as H.
    by rewrite Hd, Nat.add_0_r in H. }
  split_and!; [done| |by eapply lookup_lt_Some].
  rewrite (drop_S _ _ _ Hi) in Hd. by injection Hd.
Qed.

Lemma all_return_lookup tasks k : all_return tasks -> tasks !! k <> Some ThrowsAtCall.
Proof.
  intros Hall Hk. unfold all_return in Hall. rewrite Forall_forall in Hall.
  by apply list_elem_of_lookup_2, Hall in Hk.
Qed.

Lemma all_return_thrown tasks ks : all_return tasks -> thrown tasks ks = [].
Proof.
  intros Hall. unfold thrown. induction ks as [|k ks IH]; [done|].
  rewrite filter_cons_False; [done|]. by apply all_return_lookup.
Qed.

Ltac fields :=
  cbn [index active called waiting promise resolve reject] in *.

Section Invariant.
Variable tasks : list task.
Variable n : Z.

(** The loop keeps the state consistent, and it stops only when no place
    is free, no task is left, or a task has thrown. *)
Lemma while_consistent rest s :
  rest = drop (index s) tasks ->
  consistent tasks n s -> promise s <> Resolved ->
  match while n rest s with
  | Returns s' =>
      consistent tasks n s' /\ promise s' = promise s
      /\ (active s' < n -> index s' = List.length tasks)
      /\ active s <= active s'
      /\ (active s < n -> (index s < List.length tasks)%nat ->
          active s < active s')
      /\ (n <= active s -> s' = s)
  | Throws s' =>
      consistent tasks n s' /\ promise s' = promise s
      /\ exists k, tasks !! k = Some ThrowsAtCall
  end.
Proof.
  revert s. induction rest as [|t rest IH]; intros s Hrest Hs Hp; cbn [while].
  - assert (List.length (drop (index s) tasks) = 0%nat) as Hlen
      by (by rewrite <- Hrest).
    rewrite length_drop in Hlen. destruct Hs as (Hle & Hs).
    split_and!; try done; lia.
  - symmetry in Hrest. apply drop_index in Hrest as (Ht & Hrest & Hlt).
    destruct (Z.ltb_spec (active s) n) as [Hlt'|Hge].
    2: { split_and!; try done; lia. }
    destruct Hs as (Hle & Hcalled & Hnd & Hw & Hacc & Hmax & Hres).
    destruct t.
    + match goal with
      | |- match while n rest ?s1 with _ => _ end =>
          assert (consistent tasks n s1) as Hs1
      end.
      { split_and!; fields.
        * lia.
        * by rewrite seq_S, Hcalled.
        * apply NoDup_app. split_and!; [done| |apply NoDup_singleton].
          intros k Hk ->%list_elem_of_singleton. apply Hw in Hk. lia.
        * intros k [Hk| ->%list_elem_of_singleton]%elem_of_app;
            [apply Hw in Hk|]; lia.
        * rewrite thrown_app, !length_app. cbn [List.length].
          assert (thrown tasks [index s] = []) as ->.
          { unfold thrown. rewrite filter_cons_False; [done|].
            rewrite Ht. by intros [=]. }
          simpl. lia.
        * lia.
        * done. }
      match goal with
      | |- match while n rest ?s1 with _ => _ end =>
          specialize (IH s1 (eq_sym Hrest) Hs1 Hp)
      end.
      fields.
      destruct (while n rest _) as [s'|s'].
      * destruct IH as (H1 & H2 & H3 & H4 & H5 & H6).
        split_and!; try done; lia.
      * destruct IH as (H1 & H2 & H3). by split_and!.
    + split_and!; fields; try done; [|by eauto].
      split_and!; fields; try done.
      * by rewrite seq_S, Hcalled.
      * intros k Hk. apply Hw in Hk. lia.
      * rewrite thrown_app, length_app. unfold thrown at 2.
        rewrite filter_cons_True by done. simpl. lia.
      * lia.
Qed.
Lemma while_index rest s :
  match while n rest s with
  | Returns s' | Throws s' => (index s <= index s')%nat
  end.
Proof.
  revert s. induction rest as [|t rest IH]; intros s; cbn [while]; [done|].
  destruct (active s <? n); [|done]. destruct t; fields; [|lia].
  match goal with
  | |- match while n rest ?s1 with _ => _ end => specialize (IH s1)
  end.
  destruct (while n rest _); fields; lia.
Qed.

Lemma finally_index k s : (index s <= index (finally tasks n k s))%nat.
Proof.
  unfold finally. case_bool_decide; [|done]. unfold next.
  match goal with |- context [if ?b then _ else _] => destruct b end;
    fields; [done|].
  match goal with
  | |- context [while n ?rest ?s1] => pose proof (while_index rest s1) as H1
  end.
  by destruct (while n _ _).
Qed.

Lemma run_index ks more :
  (index (run tasks n ks) <= index (run tasks n (ks ++ more)))%nat.
Proof.
  unfold run. induction more as [|k more IH] using rev_ind.
  - by rewrite app_nil_r.
  - rewrite app_assoc, foldl_app. simpl.
    etrans; [exact IH|apply finally_index].
Qed.

Lemma resolve_consistent s :
  consistent tasks n s ->
  (List.length tasks <= index s)%nat -> active s = 0 ->
  consistent tasks n (resolve s).
Proof.
  intros (Hle & Hcalled & Hnd & Hw & Hacc & Hmax & Hres) Hi Ha.
  split_and!; fields; try done. intros _. split; [lia|done].
Qed.

Lemma next_consistent s :
  consistent tasks n s ->
  match next tasks n s with
  | Returns s' =>
      consistent tasks n s' /\ (promise s <> Rejected -> settled tasks n s')
  | Throws s' =>
      consistent tasks n s'
      /\ promise s' = promise s /\ promise s <> Resolved
      /\ exists k, tasks !! k = Some ThrowsAtCall
  end.
Proof.
  intros Hs. unfold next.
  destruct ((List.length tasks <=? index s)%nat && (active s =? 0)) eqn:Hc.
  - apply andb_prop in Hc as [Hi%Nat.leb_le Ha%Z.eqb_eq].
    pose proof (resolve_consistent s Hs Hi Ha) as Hr.
    split; [done|]. intros Hp. split_and!; [done|..]; fields.
    + by destruct (promise s).
    + intros _. destruct Hs as (Hle & _). lia.
    + intros _ _. by destruct (promise s).
  - assert (promise s <> Resolved) as Hp.
    { intros Hp. destruct Hs as (_ & _ & _ & _ & _ & _ & Hres).
      destruct (Hres Hp) as [Hi Ha]. rewrite Hi, Ha, Nat.leb_refl in Hc.
      done. }
    pose proof (while_consistent _ s eq_refl Hs Hp) as Hw.
    destruct (while n _ s) as [s'|s'].
    + destruct Hw as (Hs' & Hp' & Hfull & Hmono & Hgrow & Hsame).
      split; [done|]. intros Hnr. split_and!; [done|congruence|done|].
      intros Hi Ha.
      destruct Hs as (Hle & _ & _ & _ & Hacc & _).
      assert (active s = 0) as Ha0 by lia.
      rewrite Ha0 in Hc. simpl in Hc. rewrite andb_true_r in Hc.
      apply Nat.leb_gt in Hc.
      destruct (Z.ltb_spec (active s) n) as [Hlt|Hge]; [lia|].
      rewrite (Hsame Hge) in Hi. lia.
    + destruct Hw as (Hs' & Hp' & Hk). by split_and!.
Qed.

Lemma filter_out_length (k : nat) (l : list nat) :
  NoDup l -> k ∈ l ->
  S (List.length (filter (fun j => j <> k) l)) = List.length l.
Proof.
  induction 1 as [|x l Hx Hnd IH]; [by intros ?%elem_of_nil|].
  intros [->|Hk]%elem_of_cons.
  - rewrite filter_cons_False by (by intros ?). simpl. f_equal.
    clear IH. induction l as [|y l IH]; [done|].
    apply not_elem_of_cons in Hx as [Hne Hx].
    apply NoDup_cons in Hnd as [_ Hnd].
    rewrite filter_cons_True by done. simpl. by rewrite IH.
  - rewrite filter_cons_True by (intros ->; done). simpl. by rewrite IH.
Qed.

Lemma finally_releases k s :
  consistent tasks n s -> k ∈ waiting s ->
  consistent tasks n
    {| index := index s; active := active s - 1; called := called s;
       waiting := filter (fun j => j <> k) (waiting s);
       promise := promise s |}
  /\ promise s <> Resolved.
Proof.
  intros (Hle & Hcalled & Hnd & Hw & Hacc & Hmax & Hres) Hk.
  pose proof (filter_out_length k _ Hnd Hk) as Hlen.
  assert (promise s <> Resolved) as Hp.
  { intros Hp. destruct (Hres Hp) as [_ Ha]. lia. }
  split; [|done]. split_and!; fields; try done.
  - by apply NoDup_filter.
  - intros j [_ Hj]%list_elem_of_filter. by apply Hw.
  - lia.
  - lia.
Qed.

Lemma finally_consistent k s :
  consistent tasks n s -> consistent tasks n (finally tasks n k s).
Proof.
  intros Hs. unfold finally. case_bool_decide as Hk; [|done].
  destruct (finally_releases k s Hs Hk) as [Hs1 _].
  pose proof (next_consistent _ Hs1) as Hn.
  destruct (next tasks n _); by destruct Hn.
Qed.

Lemma limit_consistent : consistent tasks n (limit tasks n).
Proof.
  unfold limit.
  match goal with
  | |- context [next tasks n ?s0] =>
      assert (consistent tasks n s0) as Hs0
  end.
  { split_and!; fields; try done; [lia|constructor|by intros ? ?%elem_of_nil|lia]. }
  pose proof (next_consistent _ Hs0) as Hn.
  destruct (next tasks n _) as [s|s]; [by destruct Hn|].
  destruct Hn as ((Hle & Hcalled & Hnd & Hw & Hacc & Hmax & Hres) & Hp & _).
  fields. split_and!; fields; try done. rewrite Hp. done.
Qed.

Lemma run_consistent ks : consistent tasks n (run tasks n ks).
Proof.
  unfold run. induction ks as [|k ks IH] using rev_ind.
  - apply limit_consistent.
  - rewrite foldl_app. simpl. by apply finally_consistent.
Qed.

Lemma finally_settled k s :
  all_return tasks -> settled tasks n s -> settled tasks n (finally tasks n k s).
Proof.
  intros Hall Hs. unfold finally. case_bool_decide as Hk; [|done].
  destruct Hs as (Hs & Hp & _).
  destruct (finally_releases k s Hs Hk) as [Hs1 _].
  pose proof (next_consistent _ Hs1) as Hn.
  destruct (next tasks n _).
  - destruct Hn as [_ Hn]. by apply Hn.
  - destruct Hn as (_ & _ & _ & j & Hj). by apply all_return_lookup in Hj.
Qed.

Lemma limit_settled : all_return tasks -> settled tasks n (limit tasks n).
Proof.
  intros Hall. unfold limit.
  match goal with
  | |- context [next tasks n ?s0] =>
      assert (consistent tasks n s0) as Hs0
  end.
  { split_and!; fields; try done; [lia|constructor|by intros ? ?%elem_of_nil|lia]. }
  pose proof (next_consistent _ Hs0) as Hn.
  destruct (next tasks n _) as [s|s].
  - destruct Hn as [_ Hn]. by apply Hn.
  - destruct Hn as (_ & _ & _ & j & Hj). by apply all_return_lookup in Hj.
Qed.

Lemma run_settled ks : all_return tasks -> settled tasks n (run tasks n ks).
Proof.
  intros Hall. unfold run. induction ks as [|k ks IH] using rev_ind.
  - by apply limit_settled.
  - rewrite foldl_app. simpl. by apply finally_settled.
Qed.
End Invariant.

(** X21. [limit] keeps within [n]: whatever promises have settled, in
    whatever order, [active] is the number of tasks whose callback of
    [finally] has not run yet plus the number of tasks that threw at their
    call, and it is at most [n] (at most [0] if [n] is negative).  So never
    more than [n] tasks run at once. *)
Theorem limit_runs_at_most_n (tasks : list task) (n : Z) (ks : list nat) :
  active (run tasks n ks)
  = Z.of_nat (List.length (waiting (run tasks n ks)))
    + Z.of_nat (List.length (thrown tasks (called (run tasks n ks))))
  /\ active (run tasks n ks) <= Z.max 0 n
  /\ NoDup (waiting (run tasks n ks)).
Proof.
  destruct (run_consistent tasks n ks) as (_ & _ & Hnd & _ & Hacc & Hmax & _).
  done.
Qed.

(** X22. [limit] calls the tasks in the order of the array, each at most
    once: the tasks called so far are those before [index], in order, and
    [index] never passes the length of the array.  A task whose callback
    is still to come is one of them. *)
Theorem limit_calls_tasks_in_order (tasks : list task) (n : Z)
    (ks : list nat) :
  called (run tasks n ks) = seq 0 (index (run tasks n ks))
  /\ (index (run tasks n ks) <= List.length tasks)%nat
  /\ forall k, k ∈ waiting (run tasks n ks) -> k ∈ called (run tasks n ks).
Proof.
  destruct (run_consistent tasks n ks) as (Hle & Hcalled & _ & Hw & _).
  split_and!; [done..|]. intros k Hk%Hw. rewrite Hcalled.
  apply elem_of_seq. lia.
Qed.

(** X23. If no task throws at its call, the promise of [limit] is never
    rejected, and it is resolved exactly when every task has been called
    and every callback of [finally] has run.  As long as tasks are left to
    call, [n] tasks are running; so with [n > 0], once nothing is running
    every task has been called and the promise is resolved. *)
Theorem limit_resolves_when_all_done (tasks : list task) (n : Z)
    (ks : list nat) :
  all_return tasks ->
  (promise (run tasks n ks) = Resolved
   <-> index (run tasks n ks) = List.length tasks
       /\ waiting (run tasks n ks) = [])
  /\ promise (run tasks n ks) <> Rejected
  /\ ((index (run tasks n ks) < List.length tasks)%nat ->
      Z.of_nat (List.length (waiting (run tasks n ks))) = Z.max 0 n)
  /\ (0 < n -> waiting (run tasks n ks) = [] ->
      promise (run tasks n ks) = Resolved
      /\ called (run tasks n ks) = seq 0 (List.length tasks)).
Proof.
  intros Hall.
  destruct (run_settled tasks n ks Hall) as (Hs & Hnr & Hfull & Hres).
  destruct Hs as (Hle & Hcalled & Hnd & Hw & Hacc & Hmax & Hdone).
  rewrite (all_return_thrown tasks _ Hall) in Hacc. simpl in Hacc.
  split_and!.
  - split.
    + intros [Hi Ha]%Hdone. split; [done|].
      destruct (waiting (run tasks n ks)); [done|simpl in *; lia].
    + intros [Hi Hw0]. apply Hres; [done|]. rewrite Hacc, Hw0. done.
  - done.
  - intros Hlt. destruct (Z.ltb_spec (active (run tasks n ks)) n) as [Hlt'|Hge].
    + apply Hfull in Hlt'. lia.
    + lia.
  - intros Hn Hw0. rewrite Hw0 in Hacc. simpl in Hacc.
    assert (index (run tasks n ks) = List.length tasks) as Hi
      by (apply Hfull; lia).
    split; [by apply Hres|]. by rewrite Hcalled, Hi.
Qed.

Lemma limit_resolves_when_all_done_witness :
  all_return five
  /\ (promise (run five 2 [1; 0; 2; 3; 4]%nat) = Resolved
      <-> index (run five 2 [1; 0; 2; 3; 4]%nat) = List.length five
          /\ waiting (run five 2 [1; 0; 2; 3; 4]%nat) = [])
  /\ promise (run five 2 [1; 0; 2; 3; 4]%nat) <> Rejected
  /\ ((index (run five 2 [1; 0; 2; 3; 4]%nat) < List.length five)%nat ->
      Z.of_nat (List.length (waiting (run five 2 [1; 0; 2; 3; 4]%nat)))
      = Z.max 0 2)
  /\ (0 < 2 -> waiting (run five 2 [1; 0; 2; 3; 4]%nat) = [] ->
      promise (run five 2 [1; 0; 2; 3; 4]%nat) = Resolved
      /\ called (run five 2 [1; 0; 2; 3; 4]%nat) = seq 0 (List.length five)).
Proof.
  assert (all_return five) as Hall by (by repeat constructor).
  split; [done|].
  exact (limit_resolves_when_all_done five 2 [1; 0; 2; 3; 4]%nat Hall).
Defined.

(** X24. With [n <= 0] and at least one task, [limit] calls no task and
    its promise never settles, whatever happens; with no task at all the
    promise is resolved at once, even for such [n]. *)
Theorem limit_hangs_without_places (tasks : list task) (n : Z)
    (ks : list nat) :
  n <= 0 -> tasks <> [] ->
  called (run tasks n ks) = []
  /\ promise (run tasks n ks) = Unsettled
  /\ promise (run [] n ks) = Resolved.
Proof.
  intros Hn Hne.
  assert (limit tasks n
          = {| index := 0; active := 0; called := []; waiting := [];
               promise := Unsettled |}) as Hl.
  { unfold limit, next. fields. destruct tasks as [|t tasks]; [done|].
    simpl. destruct (Z.ltb_spec 0 n); [lia|done]. }
  assert (run tasks n ks = limit tasks n) as ->.
  { unfold run. induction ks as [|k ks IH] using rev_ind; [done|].
    rewrite foldl_app, IH, Hl. simpl. unfold finally. fields.
    case_bool_decide as Hk; [by apply elem_of_nil in Hk|done]. }
  rewrite Hl. fields. split_and!; [done..|].
  unfold run. induction ks as [|k ks IH] using rev_ind; [done|].
  rewrite foldl_app. simpl. unfold finally.
  pose proof (run_consistent [] n ks) as (_ & _ & _ & _ & Hacc & _ & Hres).
  unfold run in *. destruct (Hres IH) as [_ Ha].
  case_bool_decide as Hk; [|done].
  destruct (waiting _); [by apply elem_of_nil in Hk|simpl in *; lia].
Qed.

Lemma limit_hangs_without_places_witness :
  (0 <= 0 /\ second_throws <> [])
  /\ called (run second_throws 0 [0; 1]%nat) = []
  /\ promise (run second_throws 0 [0; 1]%nat) = Unsettled
  /\ promise (run [] 0 [0; 1]%nat) = Resolved.
Proof.
  assert (second_throws <> []) as Hne by done.
  split; [split; [lia|done]|].
  exact (limit_hangs_without_places second_throws 0 [0; 1]%nat
           (Z.le_refl 0) Hne).
Defined.

(** X25. A task that throws at its call keeps its place for ever:
    [active] was raised for it and no callback lowers it again.  From then
    on [active] is at least [1] and the promise of [limit] is never
    resolved, whatever settles afterwards. *)
Theorem limit_never_resolves_after_throw (tasks : list task) (n : Z)
    (ks more : list nat) (k : nat) :
  k ∈ called (run tasks n ks) ->
  tasks !! k = Some ThrowsAtCall ->
  1 <= active (run tasks n (ks ++ more))
  /\ promise (run tasks n (ks ++ more)) <> Resolved.
Proof.
  intros Hk Ht.
  destruct (run_consistent tasks n ks) as (_ & Hc & _).
  rewrite Hc in Hk. apply elem_of_seq in Hk.
  pose proof (run_index tasks n ks more) as Hmono.
  destruct (run_consistent tasks n (ks ++ more))
    as (_ & Hc' & _ & _ & Hacc & _ & Hres).
  assert (k ∈ thrown tasks (called (run tasks n (ks ++ more)))) as Hin.
  { unfold thrown. apply list_elem_of_filter. split; [done|].
    rewrite Hc'. apply elem_of_seq. lia. }
  assert (1 <= active (run tasks n (ks ++ more))) as Ha.
  { rewrite Hacc. destruct (thrown _ _); [by apply elem_of_nil in Hin|].
    simpl. lia. }
  split; [done|]. intros [_ H0]%Hres. lia.
Qed.

Lemma limit_never_resolves_after_throw_witness :
  (1%nat ∈ called (run second_throws 1 [0%nat])
   /\ second_throws !! 1%nat = Some ThrowsAtCall)
  /\ 1 <= active (run second_throws 1 ([0%nat] ++ [2%nat]))
  /\ promise (run second_throws 1 ([0%nat] ++ [2%nat])) <> Resolved.
Proof.
  assert (1%nat ∈ called (run second_throws 1 [0%nat])) as H1.
  { vm_compute. apply list_elem_of_here || (right; left). }
  split; [by split|].
  exact (limit_never_resolves_after_throw second_throws 1 [0%nat] [2%nat]
           1%nat H1 eq_refl).
Defined.
End LimitProps.

(** ** [makeLimit] *)

Module MakeLimitProps.
Import MakeLimit MakeLimitSpec.

Ltac fields :=
  cbn [running queue made started waiting threw rejected set_queue
       set_running set_made set_started set_waiting set_threw set_rejected
       state_of] in *.

Lemma weight_eq body throws : weight (Fn body throws) = S (weights body).
Proof.
  simpl. f_equal.
Qed.

Lemma weights_cons f l : weights (f :: l) = (weight f + weights l)%nat.
Proof. done. Qed.

Lemma weights_app l1 l2 : weights (l1 ++ l2) = (weights l1 + weights l2)%nat.
Proof.
  induction l1 as [|f l1 IH]; [done|].
  rewrite <- app_comm_cons, !weights_cons, IH. lia.
Qed.

Lemma queued_enqueue k f q :
  queued (Queue.enqueue (k, f) q) = (queued q + weight f)%nat.
Proof.
  unfold queued, Queue.enqueue, Queue.toArray. rewrite fmap_app, weights_app.
  cbn [fmap list_fmap snd]. rewrite weights_cons.
  unfold weights. cbn [foldr]. lia.
Qed.

Section Sound.
Variable c : Z.

Section Calls.
Variable run : state -> option result.
Variable budget : nat.
Hypothesis run_ok : forall inside s,
  sound c inside s -> nearly_busy c s -> (queued (queue s) < budget)%nat ->
  exists r, run s = Some r
    /\ sound c inside (state_of r) /\ busy c (state_of r)
    /\ (queued (queue (state_of r)) <= queued (queue s))%nat
    /\ (forall s', r = Throws s' ->
        running s < c
        /\ exists k f q', queue s = (k, f) :: q' /\ k ∈ threw s').

Lemma limited_sound inside f s :
  sound c inside s -> busy c s ->
  (queued (queue s) + weight f < budget)%nat ->
  exists s', limited run f s = Some s'
    /\ sound c inside s' /\ busy c s'
    /\ (queued (queue s') <= queued (queue s) + weight f)%nat.
Proof.
  intros Hs Hb Hfuel. unfold limited.
  set (s1 := set_made (S (made s))
               (set_queue (Queue.enqueue (made s, f) (queue s)) s)).
  assert (sound c inside s1) as Hs1.
  { destruct Hs as (Hacc & Hmax & Hord & Hnd & Hin & Hrej).
    subst s1. split_and!; fields; try done.
    unfold Queue.enqueue, Queue.toArray in *.
    rewrite fmap_app, app_assoc, Hord, seq_S. done. }
  assert (nearly_busy c s1) as Hn1.
  { subst s1. unfold nearly_busy. fields. unfold Queue.enqueue.
    destruct Hb as [->|Hb]; [by left|right; lia]. }
  assert (queued (queue s1) < budget)%nat as Hf1.
  { subst s1. fields. rewrite queued_enqueue. lia. }
  destruct (run_ok inside s1 Hs1 Hn1 Hf1) as (r & -> & Hr & Hbr & Hq & Hth).
  assert (queued (queue s1) = queued (queue s) + weight f)%nat as Hq1.
  { subst s1. fields. by rewrite queued_enqueue. }
  destruct r as [s'|s']; fields.
  - exists s'. split_and!; [done..|lia].
  - eexists. split; [done|]. split_and!; fields; [|done|lia].
    destruct (Hth s' eq_refl) as (Hlt & k & g & q' & Hq' & Hk).
    destruct Hr as (Hacc & Hmax & Hord & Hnd & Hin & Hrej).
    split_and!; fields; try done.
    intros j [Hj| ->%list_elem_of_singleton]%elem_of_app; [by apply Hrej|].
    subst s1. fields. unfold Queue.enqueue in Hq'.
    destruct Hb as [Hb|Hb]; [|lia]. rewrite Hb in Hq'. simpl in Hq'.
    by injection Hq' as <- _ _.
Qed.

Lemma call_each_sound inside body s :
  sound c inside s -> busy c s ->
  (queued (queue s) + weights body < budget)%nat ->
  exists s', call_each run body s = Some s'
    /\ sound c inside s' /\ busy c s'
    /\ (queued (queue s') <= queued (queue s) + weights body)%nat.
Proof.
  revert s. induction body as [|f body IH]; intros s Hs Hb Hfuel;
    cbn [call_each].
  - exists s. split_and!; [done..|lia].
  - rewrite weights_cons in Hfuel.
    destruct (limited_sound inside f s Hs Hb) as (s1 & -> & Hs1 & Hb1 & Hq1);
      [lia|].
    destruct (IH s1 Hs1 Hb1) as (s2 & -> & Hs2 & Hb2 & Hq2); [lia|].
    exists s2. split_and!; [done..|]. rewrite weights_cons. lia.
Qed.
End Calls.

Lemma sound_nonneg inside s : sound c inside s -> 0 <= running s.
Proof. intros (Hacc & _). lia. Qed.

Lemma runNext_sound fuel inside s :
  sound c inside s -> nearly_busy c s -> (queued (queue s) < fuel)%nat ->
  exists r, runNext c fuel s = Some r
    /\ sound c inside (state_of r) /\ busy c (state_of r)
    /\ (queued (queue (state_of r)) <= queued (queue s))%nat
    /\ (forall s', r = Throws s' ->
        running s < c
        /\ exists k f q', queue s = (k, f) :: q' /\ k ∈ threw s').
Proof.
  revert inside s. induction fuel as [|fuel IH]; intros inside s Hs Hn Hfuel;
    [lia|].
  cbn [runNext].
  destruct ((Queue.length (queue s) =? 0)%nat || (c <=? running s)) eqn:Hc.
  { exists (Returns s). fields. split_and!; try done.
    apply orb_prop in Hc as [Hc%Nat.eqb_eq|Hc%Z.leb_le]; [left|by right].
    unfold Queue.length in Hc. by destruct (queue s). }
  apply orb_false_elim in Hc as [Hlen%Nat.eqb_neq Hrun%Z.leb_gt].
  destruct (queue s) as [|[k [body throws]] q'] eqn:Hq; [done|].
  cbn [Queue.dequeue].
  set (s1 := set_started (started s ++ [k])
               (set_running (running s + 1) (set_queue q' s))).
  pose proof (sound_nonneg _ _ Hs) as H0.
  destruct Hs as (Hacc & Hmax & Hord & Hnd & Hin & Hrej).
  rewrite Hq in Hord. unfold Queue.toArray in Hord.
  cbn [fmap list_fmap fst] in Hord.
  assert (NoDup (started s ++ k :: (fst <$> q'))) as Hall
    by (rewrite Hord; apply NoDup_seq).
  assert (k ∉ started s) as Hk.
  { apply NoDup_app in Hall as (_ & Hall & _). intros Hk.
    apply (Hall k Hk). by left. }
  assert (sound c (k :: inside) s1) as Hs1.
  { subst s1. split_and!; fields; try done.
    - cbn [List.length]. lia.
    - lia.
    - by rewrite <- app_assoc.
    - assert (waiting s ++ threw s ++ k :: inside
              ≡ₚ k :: waiting s ++ threw s ++ inside) as ->.
      { rewrite !app_assoc. by rewrite <- Permutation_middle. }
      apply NoDup_cons. split; [|done]. intros Hk'. by apply Hk, Hin.
    - intros j Hj. apply elem_of_app.
      rewrite !elem_of_app, elem_of_cons in Hj.
      destruct Hj as [Hj|[Hj|[->|Hj]]].
      + left. apply Hin. rewrite !elem_of_app. auto.
      + left. apply Hin. rewrite !elem_of_app. auto.
      + right. by left.
      + left. apply Hin. rewrite !elem_of_app. auto. }
  assert (busy c s1) as Hb1.
  { subst s1. unfold busy. fields. unfold nearly_busy in Hn.
    rewrite ?Hq in Hn. destruct Hn as [Hn|Hn]; [left|right; lia].
    simpl in Hn. destruct q'; [done|simpl in Hn; lia]. }
  assert (queued (queue s) = S (queued q' + weights body))%nat as Hw.
  { rewrite Hq. unfold queued, Queue.toArray. cbn [fmap list_fmap snd].
    rewrite weights_cons, weight_eq. lia. }
  rewrite ?Hq in Hw.
  destruct (call_each_sound (runNext c fuel) fuel IH (k :: inside) body s1
              Hs1 Hb1) as (s2 & -> & Hs2 & Hb2 & Hq2).
  { subst s1. fields. lia. }
  subst s1. fields.
  destruct Hs2 as (Hacc2 & Hmax2 & Hord2 & Hnd2 & Hin2 & Hrej2).
  destruct throws.
  - eexists. split; [done|]. fields. split_and!; [|done|lia|].
    + split_and!; fields; try done.
      * rewrite length_app. cbn [List.length] in *. lia.
      * by rewrite <- (app_assoc (threw s2) [k] inside).
      * intros j Hj. apply Hin2. rewrite !elem_of_app in Hj.
        rewrite !elem_of_app, elem_of_cons.
        destruct Hj as [Hj|[[Hj| ->%list_elem_of_singleton]|Hj]]; auto.
      * intros j Hj%Hrej2. apply elem_of_app. by left.
    + intros s' [= <-]. split; [done|]. exists k, (Fn body true), q'.
      split; [done|]. fields. apply elem_of_app. right. by left.
  - eexists. split; [done|]. fields. split_and!; [|done|lia|done].
    split_and!; fields; try done.
    + rewrite length_app. cbn [List.length] in *. lia.
    + assert ((waiting s2 ++ [k]) ++ threw s2 ++ inside
              ≡ₚ waiting s2 ++ threw s2 ++ k :: inside) as ->; [|done].
      rewrite <- app_assoc. apply Permutation_app_head. simpl.
      apply Permutation_middle.
    + intros j Hj. apply Hin2. rewrite !elem_of_app in Hj.
      rewrite !elem_of_app, elem_of_cons.
      destruct Hj as [[Hj| ->%list_elem_of_singleton]|[Hj|Hj]]; auto.
Qed.

Lemma finally_sound fuel k s :
  sound c [] s -> busy c s -> (queued (queue s) < fuel)%nat ->
  exists s', finally c fuel k s = Some s'
    /\ sound c [] s' /\ busy c s'
    /\ (queued (queue s') <= queued (queue s))%nat.
Proof.
  intros Hs Hb Hfuel. unfold finally. case_bool_decide as Hk.
  2: { exists s. by split_and!. }
  set (s1 := set_waiting (filter (fun j => j <> k) (waiting s))
               (set_running (running s - 1) s)).
  destruct Hs as (Hacc & Hmax & Hord & Hnd & Hin & Hrej).
  assert (NoDup (waiting s)) as Hndw by (by apply NoDup_app in Hnd as (? & _)).
  pose proof (LimitProps.filter_out_length k _ Hndw Hk) as Hlen.
  assert (sound c [] s1) as Hs1.
  { subst s1. split_and!; fields; try done.
    - simpl in *. lia.
    - lia.
    - rewrite app_nil_r in *. apply NoDup_app in Hnd as (_ & Hdis & Hndt).
      apply NoDup_app. split_and!; [by apply NoDup_filter| |done].
      intros j [_ Hj]%list_elem_of_filter. by apply Hdis.
    - intros j Hj. apply Hin. rewrite !elem_of_app in *.
      destruct Hj as [[_ Hj]%list_elem_of_filter|Hj]; auto. }
  assert (nearly_busy c s1) as Hn1.
  { subst s1. unfold nearly_busy. fields.
    destruct Hb as [->|Hb]; [left; simpl; lia|right; lia]. }
  destruct (runNext_sound fuel [] s1 Hs1 Hn1) as (r & -> & Hr & Hbr & Hq & _).
  { by subst s1. }
  exists (state_of r). split; [by destruct r|]. by subst s1.
Qed.

Lemma makeLimit_sound : sound c [] makeLimit /\ busy c makeLimit.
Proof.
  split; [|by left]. unfold makeLimit.
  split_and!; fields; try done; [lia|constructor].
Qed.

Lemma enough_cons e evs :
  enough (e :: evs)
  = match e with
    | Call f => (weight f + enough evs)%nat
    | Settled _ => enough evs
    end.
Proof. unfold enough. cbn [foldr]. destruct e; lia. Qed.

Lemma limiter_steps_sound fuel evs s :
  sound c [] s -> busy c s -> (queued (queue s) + enough evs <= fuel)%nat ->
  exists s', steps c fuel evs s = Some s' /\ sound c [] s' /\ busy c s'.
Proof.
  revert s. induction evs as [|e evs IH]; intros s Hs Hb Hfuel; cbn [steps].
  - by exists s.
  - rewrite enough_cons in Hfuel.
    assert (1 <= enough evs)%nat as H1 by (unfold enough; lia).
    destruct e as [f|k]; cbn [step].
    + destruct (limited_sound (runNext c fuel) fuel
                  (runNext_sound fuel) [] f s Hs Hb)
        as (s1 & -> & Hs1 & Hb1 & Hq1); [lia|].
      apply IH; [done..|lia].
    + destruct (finally_sound fuel k s Hs Hb) as (s1 & -> & Hs1 & Hb1 & Hq1);
        [lia|].
      apply IH; [done..|lia].
Qed.

Lemma limiter_run_sound fuel evs :
  (enough evs <= fuel)%nat ->
  exists s, steps c fuel evs makeLimit = Some s /\ sound c [] s /\ busy c s.
Proof.
  intros Hfuel. destruct makeLimit_sound as [Hs Hb].
  by apply limiter_steps_sound.
Qed.
End Sound.

(** With no place to give, [runNext] does nothing. *)
Lemma runNext_full c fuel s :
  c <= running s -> runNext c (S fuel) s = Some (Returns s).
Proof.
  intros Hc. cbn [runNext]. apply Z.leb_le in Hc. rewrite Hc.
  by rewrite orb_true_r.
Qed.

Lemma steps_idle c fuel evs s :
  c <= 0 -> running s = 0 -> waiting s = [] ->
  exists s', steps c (S fuel) evs s = Some s'
    /\ running s' = 0 /\ waiting s' = [] /\ started s' = started s
    /\ threw s' = threw s /\ rejected s' = rejected s.
Proof.
  intros Hc. revert s. induction evs as [|e evs IH]; intros s Hr Hw;
    cbn [steps].
  - by exists s.
  - destruct e as [f|k]; cbn [step].
    + unfold limited. rewrite runNext_full by (fields; lia).
      match goal with
      | |- context [steps c (S fuel) evs ?s1] =>
          destruct (IH s1) as (s' & -> & H1 & H2 & H3 & H4 & H5);
          [done..|by exists s']
      end.
    + unfold finally. rewrite Hw. case_bool_decide as Hk;
        [by apply elem_of_nil in Hk|]. by apply IH.
Qed.

(** X26. The limiter keeps within [concurrency]: after any calls of the
    limiter and any settled promises, in any order, [running] is the
    number of functions whose callback of [finally] has not run yet plus
    the number of functions that threw at their call, and it is at most
    [concurrency] (at most [0] if that is negative).  So never more than
    [concurrency] functions run at once; functions that call the limiter
    again are included. *)
Theorem makeLimit_runs_at_most_concurrency (c : Z) (fuel : nat)
    (evs : list event) :
  (enough evs <= fuel)%nat ->
  exists s, steps c fuel evs makeLimit = Some s
    /\ running s
       = Z.of_nat (List.length (waiting s)) + Z.of_nat (List.length (threw s))
    /\ running s <= Z.max 0 c
    /\ NoDup (waiting s ++ threw s).
Proof.
  intros Hfuel. destruct (limiter_run_sound c fuel evs Hfuel) as (s & Hs & Hsound & _).
  exists s. destruct Hsound as (Hacc & Hmax & _ & Hnd & _).
  rewrite app_nil_r in Hnd. simpl in Hacc. split_and!; [done| |done..]. lia.
Qed.

Lemma makeLimit_runs_at_most_concurrency_witness :
  (enough some_events <= 7)%nat
  /\ exists s, steps 2 7 some_events makeLimit = Some s
       /\ running s
          = Z.of_nat (List.length (waiting s))
            + Z.of_nat (List.length (threw s))
       /\ running s <= Z.max 0 2
       /\ NoDup (waiting s ++ threw s).
Proof.
  assert (enough some_events <= 7)%nat as H by (vm_compute; lia).
  split; [done|].
  exact (makeLimit_runs_at_most_concurrency 2 7 some_events H).
Defined.

(** X27. The limiter starts the functions in the order in which it was
    called with them, each at most once, and loses none: the calls that
    have started, in the order of their start, followed by the calls that
    are queued, front first, are all the calls made so far in their
    order. *)
Theorem makeLimit_starts_in_call_order (c : Z) (fuel : nat)
    (evs : list event) :
  (enough evs <= fuel)%nat ->
  exists s, steps c fuel evs makeLimit = Some s
    /\ started s ++ (fst <$> Queue.toArray (queue s)) = seq 0 (made s)
    /\ (forall k, k ∈ waiting s ++ threw s -> k ∈ started s).
Proof.
  intros Hfuel. destruct (limiter_run_sound c fuel evs Hfuel) as (s & Hs & Hsound & _).
  exists s. destruct Hsound as (_ & _ & Hord & _ & Hin & _).
  rewrite app_nil_r in Hin. by split_and!.
Qed.

Lemma makeLimit_starts_in_call_order_witness :
  (enough some_events <= 7)%nat
  /\ exists s, steps 1 7 some_events makeLimit = Some s
       /\ started s ++ (fst <$> Queue.toArray (queue s)) = seq 0 (made s)
       /\ (forall k, k ∈ waiting s ++ threw s -> k ∈ started s).
Proof.
  assert (enough some_events <= 7)%nat as H by (vm_compute; lia).
  split; [done|].
  exact (makeLimit_starts_in_call_order 1 7 some_events H).
Defined.

(** X28. The limiter leaves no place idle: whenever a function is queued,
    [running] has reached [concurrency]. *)
Theorem makeLimit_leaves_no_place_idle (c : Z) (fuel : nat)
    (evs : list event) :
  (enough evs <= fuel)%nat ->
  exists s, steps c fuel evs makeLimit = Some s
    /\ (Queue.isEmpty (queue s) = false -> c <= running s).
Proof.
  intros Hfuel. destruct (limiter_run_sound c fuel evs Hfuel) as (s & Hs & _ & Hb).
  exists s. split; [done|]. intros Hq. destruct Hb as [Hb|Hb]; [|done].
  by rewrite Hb in Hq.
Qed.

Lemma makeLimit_leaves_no_place_idle_witness :
  (enough some_events <= 7)%nat
  /\ exists s, steps 2 7 some_events makeLimit = Some s
       /\ (Queue.isEmpty (queue s) = false -> 2 <= running s).
Proof.
  assert (enough some_events <= 7)%nat as H by (vm_compute; lia).
  split; [done|].
  exact (makeLimit_leaves_no_place_idle 2 7 some_events H).
Defined.

(** X29. A function that throws at its call keeps its place: [running]
    was raised for it and no callback of [finally] is there to lower it,
    so [running] is at least the number of these functions.  The executor
    of a call rejects its promise only if the function of that very call
    has thrown. *)
Theorem makeLimit_thrower_keeps_its_place (c : Z) (fuel : nat)
    (evs : list event) :
  (enough evs <= fuel)%nat ->
  exists s, steps c fuel evs makeLimit = Some s
    /\ Z.of_nat (List.length (threw s)) <= running s
    /\ (forall k, k ∈ threw s -> k ∉ waiting s)
    /\ (forall k, k ∈ rejected s -> k ∈ threw s).
Proof.
  intros Hfuel. destruct (limiter_run_sound c fuel evs Hfuel) as (s & Hs & Hsound & _).
  exists s. destruct Hsound as (Hacc & _ & _ & Hnd & _ & Hrej).
  rewrite app_nil_r in Hnd. apply NoDup_app in Hnd as (_ & Hdis & _).
  split_and!; [done|lia| |done]. intros k Hk Hw. by apply (Hdis k).
Qed.

Lemma makeLimit_thrower_keeps_its_place_witness :
  (enough some_events <= 7)%nat
  /\ exists s, steps 2 7 some_events makeLimit = Some s
       /\ Z.of_nat (List.length (threw s)) <= running s
       /\ (forall k, k ∈ threw s -> k ∉ waiting s)
       /\ (forall k, k ∈ rejected s -> k ∈ threw s).
Proof.
  assert (enough some_events <= 7)%nat as H by (vm_compute; lia).
  split; [done|].
  exact (makeLimit_thrower_keeps_its_place 2 7 some_events H).
Defined.

(** X30. A limiter made with [concurrency <= 0] never calls a function:
    whatever it is called with stays queued, and no promise that it
    returns is ever settled by it. *)
Theorem makeLimit_without_places_starts_nothing (c : Z) (fuel : nat)
    (evs : list event) :
  c <= 0 -> (enough evs <= fuel)%nat ->
  exists s, steps c fuel evs makeLimit = Some s
    /\ started s = [] /\ rejected s = [] /\ running s = 0
    /\ fst <$> Queue.toArray (queue s) = seq 0 (made s).
Proof.
  intros Hc Hfuel.
  destruct (limiter_run_sound c fuel evs Hfuel) as (s & Hs & Hsound & _).
  destruct fuel as [|fuel]; [unfold enough in Hfuel; lia|].
  destruct (steps_idle c fuel evs makeLimit Hc eq_refl eq_refl)
    as (s' & Hs' & Hr & _ & Hst & _ & Hrej).
  rewrite Hs in Hs'. injection Hs' as <-. exists s.
  destruct Hsound as (_ & _ & Hord & _). rewrite Hst in Hord.
  by split_and!.
Qed.

Lemma makeLimit_without_places_starts_nothing_witness :
  (0 <= 0 /\ (enough some_events <= 7)%nat)
  /\ exists s, steps 0 7 some_events makeLimit = Some s
       /\ started s = [] /\ rejected s = [] /\ running s = 0
       /\ fst <$> Queue.toArray (queue s) = seq 0 (made s).
Proof.
  assert (enough some_events <= 7)%nat as H by (vm_compute; lia).
  split; [split; [lia|done]|].
  exact (makeLimit_without_places_starts_nothing 0 7 some_events
           (Z.le_refl 0) H).
Defined.
End MakeLimitProps.
